(** * GenerateMap: a shallow embedding of the map partitioning engine

    The development follows the latest revision of [generateMap.js]
    (class [GenerateMap]): the island test [IsTargetPokygon], the two
    connectivity analysers [largestConnectedComponent] and
    [splitConnectedComponents], the seeder [generateCentersInPolygons], the
    grower [growConnectedGroups] with [buildAdjacency], the rebalancer
    [rebalanceBoundaries] with [shareEdge], and the edge cancellation of
    [drawBorders].  The count repair loop of the earlier
    [forceAssignWithConnectivity] is embedded as well.

    Conventions.
    - The island test is the only place that uses transcendental functions;
      it is modelled over the real numbers [R]: JavaScript doubles idealised
      as reals, [Math.sin], [Math.cos], [Math.sqrt], [Math.atan2] as their
      mathematical counterparts.
    - The graph algorithms only compare coordinates for equality and compare
      squared distances; they are modelled over an abstract number interface
      [JSNumber], and over the collaborators [Externals] (d3, the random
      source, the Poisson-disk sampler), so every theorem holds for any
      arithmetic and any collaborators.
    - A JavaScript array is a [list]; [a[i]] is [a !! i]; a [TypeError]
      raised on [undefined] is [None].
    - Loops whose bound is not syntactic carry a fuel argument; for each of
      them a lemma ([bfs_fuel_enough], [grow_fuel_enough],
      [exchangeRound_fuel_enough]) shows that the fuel given by the caller
      is enough, so the loop has ended by itself when the fuel runs out. *)

From Stdlib Require Import Reals Lra Lia ZArith.
From stdpp Require Import base option list list_tactics relations.

Module Island.

Local Open Scope R_scope.

(** [const ISLAND_FACTOR = 1;] *)
Definition ISLAND_FACTOR : R := 1.

(** Comparison of numbers as a boolean, [a < b]. *)
Definition Rltb (a b : R) : bool := if Rlt_dec a b then true else false.

(** [Math.atan2(y, x)] on real arguments (ECMAScript: the angle of the
    point [(x, y)] in [(-PI, PI]], and [0] at the origin). *)
Definition atan2 (y x : R) : R :=
  if Rlt_dec 0 x then atan (y / x)
  else if Rlt_dec x 0 then
    (if Rlt_dec y 0 then atan (y / x) - PI else atan (y / x) + PI)
  else if Rlt_dec 0 y then PI / 2
  else if Rlt_dec y 0 then - (PI / 2)
  else 0.

(** [centerPoint] is an object [{x, y}]. *)
Record CenterPoint := mkCenterPoint { cpx : R; cpy : R }.

Section LandTest.

(** The polygon type and [d3.polygonCentroid] belong to the d3 library;
    [this.pixelScale] is the field set by the constructor
    ([canvasWidth / 3]). *)
Context {Polygon : Type}.
Variable polygonCentroid : Polygon -> R * R.
Variable pixelScale : R.

(** [distToCenter] *)
Definition distToCenter (c : R * R) (o : CenterPoint) : R :=
  sqrt ((fst c - cpx o) ^ 2 + (snd c - cpy o) ^ 2).

(** [angle]: the source subtracts [centerPoint.x] from [cy] and
    [centerPoint.y] from [cx]. *)
Definition angle (c : R * R) (o : CenterPoint) : R :=
  atan2 (snd c - cpx o) (fst c - cpy o).

(** [length] *)
Definition length_ (c : R * R) (o : CenterPoint) : R :=
  0.5 * (Rmax (Rabs (fst c - cpx o)) (Rabs (snd c - cpy o)) + distToCenter c o).

(** [r1] and [r2] *)
Definition r1 (c : R * R) (o : CenterPoint) (startAngle bumps scale : R) : R :=
  (0.5 + 0.4 * sin (startAngle + bumps * angle c o + cos ((bumps + 3) * angle c o)))
  * pixelScale * scale.

Definition r2 (c : R * R) (o : CenterPoint) (startAngle bumps scale : R) : R :=
  (0.7 - 0.2 * sin (startAngle + bumps * angle c o - sin ((bumps + 2) * angle c o)))
  * pixelScale * scale.

(** [IsTargetPokygon(polygon, centerPoint, startAngle, bumps, scale)] *)
Definition IsTargetPokygon (polygon : Polygon) (o : CenterPoint)
    (startAngle bumps scale : R) : bool :=
  let c := polygonCentroid polygon in
  let len := length_ c o in
  let a := r1 c o startAngle bumps scale in
  let b := r2 c o startAngle bumps scale in
  Rltb len a || (Rltb (a * ISLAND_FACTOR) len && Rltb len b).

(** The single test that the specification says the two disjuncts amount
    to: [length < r2]. *)
Definition singleTest (polygon : Polygon) (o : CenterPoint)
    (startAngle bumps scale : R) : bool :=
  let c := polygonCentroid polygon in
  Rltb (length_ c o) (r2 c o startAngle bumps scale).

End LandTest.

(** The tile centroid [(400, 400)] seen from the map center [(400, 300)] of
    the application (a 600 x 400 box at [(100, 100)]), with
    [pixelScale = 140], a canvas 420 wide. *)
Definition cxCentroid : unit -> R * R := fun _ => (400, 400).

Definition cxCenter : CenterPoint := mkCenterPoint 400 300.

End Island.

(* ================================================================== *)
(** * Numbers, tiles and the containers of the engine *)
(* ================================================================== *)

(** The arithmetic the graph algorithms use on JavaScript numbers: template
    literals and [===] compare coordinates (decidable equality), squared
    distances use [-], [*], [+] and [<], and the searches start from
    [Infinity].  [nofZ] embeds the integer literals of the source.
    Coordinates are numbers other than [NaN], with [0] and [-0] identified:
    on these, [===] and equality of the printed keys
    ([`${a[0]},${a[1]}-${b[0]},${b[1]}`]) are both equality of the
    numbers. *)
Class JSNumber (num : Type) := {
  num_eq_dec :: EqDecision num;
  nadd : num -> num -> num;
  nsub : num -> num -> num;
  nmul : num -> num -> num;
  nlt : num -> num -> bool;
  nInfinity : num;
  nofZ : Z -> num
}.

(** What the engine takes from outside: the d3 polygon helpers, the random
    source behind [_.random] and the Poisson-disk sampler, and the field
    [this.mapCenter].  The random source is threaded explicitly: its state is
    the number of draws made so far. *)
Class Externals (num : Type) := {
  (** [d3.polygonCentroid(points)] *)
  polygonCentroid : list (num * num) -> num * num;
  (** [d3.polygonHull(points)], [null] is [None] *)
  polygonHull : list (num * num) -> option (list (num * num));
  (** [d3.polygonContains(hull, point)] *)
  polygonContains : list (num * num) -> num * num -> bool;
  (** [_.random(lower, upper, true)] at the given draw *)
  random : nat -> num -> num -> num;
  (** [new PoissonDiskSampling({...}).fill()] for the bounding box
      [minX maxX minY maxY] of the hull, started at the given draw; returns
      the points and the draw reached *)
  poissonFill : nat -> num -> num -> num -> num -> list (num * num) * nat;
  (** [this.mapCenter] *)
  mapCenter : num * num
}.

Section Engine.

Context {num : Type} `{!JSNumber num} `{!Externals num}.

(** A point is the array [[x, y]]. *)
Definition Point : Type := num * num.

(** A tile is a polygon object: an array of points.  Tiles are moved between
    groups by reference and compared with [!==], so a tile carries the
    identity of its object, [tid], next to its vertices. *)
Record Tile := mkTile { tid : nat; verts : list Point }.

#[global] Instance Tile_eq_dec : EqDecision Tile.
Proof. solve_decision. Defined.

(** [p !== t] on polygon objects. *)
Definition sameRef (p t : Tile) : bool := bool_decide (tid p = tid t).

(** A directed edge [(a, b)]; the string [key(a, b)] of the source is
    determined by the two points and determines them. *)
Definition Edge : Type := Point * Point.

(** [rev(a, b)] is the key of [(b, a)]. *)
Definition revEdge (e : Edge) : Edge := (e.2, e.1).

(** The edge visited at step [i] of
    [for (i = 0; i < poly.length; i++) { a = poly[i]; b = poly[(i + 1) % poly.length] }]. *)
Definition edgeAt (poly : list Point) (i : nat) : option Edge :=
  match poly !! i, poly !! ((i + 1) mod length poly) with
  | Some a, Some b => Some (a, b)
  | _, _ => None
  end.

Definition polyEdges (poly : list Point) : list Edge :=
  omap (edgeAt poly) (seq 0 (length poly)).

(** ** A JavaScript [Map], kept in insertion order *)

Section AMap.
Context {K V : Type} `{!EqDecision K}.

Fixpoint aget (k : K) (m : list (K * V)) : option V :=
  match m with
  | [] => None
  | (k', v) :: m' => if decide (k = k') then Some v else aget k m'
  end.

(** [m.set(k, v)]: an existing key keeps its place. *)
Fixpoint aset (k : K) (v : V) (m : list (K * V)) : list (K * V) :=
  match m with
  | [] => [(k, v)]
  | (k', v') :: m' => if decide (k = k') then (k, v) :: m' else (k', v') :: aset k v m'
  end.

Fixpoint adelete (k : K) (m : list (K * V)) : list (K * V) :=
  match m with
  | [] => []
  | (k', v') :: m' => if decide (k = k') then m' else (k', v') :: adelete k m'
  end.

End AMap.

(** ** A JavaScript [Set] of indices, kept in insertion order *)

Definition sadd (x : nat) (s : list nat) : list nat :=
  if decide (x ∈ s) then s else s ++ [x].

(** [new Set(array)] *)
Definition setOf (l : list nat) : list nat := foldl (fun s x => sadd x s) [] l.

(** [adj.get(i).add(j); adj.get(j).add(i);] on the adjacency map, which has
    one entry per tile index. *)
Definition linkAdj (adj : list (list nat)) (i j : nat) : list (list nat) :=
  alter (sadd i) j (alter (sadd j) i adj).

(** [groups[i]] where the index is known to be in range. *)
Definition groupAt {A : Type} (groups : list (list A)) (i : nat) : list A :=
  default [] (groups !! i).

(** [groups[g].push(x)]; [groups[g]] undefined raises a [TypeError]. *)
Definition pushAt {A : Type} (groups : list (list A)) (g : nat) (x : A)
    : option (list (list A)) :=
  match groups !! g with
  | Some l => Some (<[g := l ++ [x]]> groups)
  | None => None
  end.

(** The tiles [polys[u]] for the indices of a component. *)
Definition tilesAt (polys : list Tile) (comp : list nat) : list Tile :=
  omap (fun u => polys !! u) comp.

(* ================================================================== *)
(** * ConnectivityAnalyzer *)
(* ================================================================== *)

(** ** The breadth-first traversal shared by both analysers

    [while (queue.length) { u = queue.shift(); comp.push(polys[u]);
       adj.get(u).forEach(v => { if (!visited[v]) { visited[v] = true; queue.push(v) } }) }]

    The component is collected as the list of indices [u]; the tiles
    [polys[u]] are looked up when the component is stored.  [fuel] bounds the
    number of iterations; [bfs_fuel_enough] shows that the number of tiles
    is always enough. *)
Definition visitNeighbour (st : list bool * list nat) (v : nat) : list bool * list nat :=
  match st.1 !! v with
  | Some false => (<[v := true]> st.1, st.2 ++ [v])
  | _ => st
  end.

Fixpoint bfs (adj : list (list nat)) (fuel : nat) (visited : list bool)
    (queue comp : list nat) : list bool * list nat :=
  match fuel with
  | 0 => (visited, comp)
  | S fuel' =>
    match queue with
    | [] => (visited, comp)
    | u :: rest =>
      let st := foldl visitNeighbour (visited, rest) (groupAt adj u) in
      bfs adj fuel' st.1 st.2 (comp ++ [u])
    end
  end.

(** One iteration of [for (let i = 0; i < polys.length; i++)]: the component
    found from [i], or nothing when [i] is already visited. *)
Definition componentFrom (adj : list (list nat)) (n : nat) (visited : list bool)
    (i : nat) : option (list bool * list nat) :=
  match visited !! i with
  | Some false => Some (bfs adj n (<[i := true]> visited) [i] [])
  | _ => None
  end.

(** ** [splitConnectedComponents] *)

(** The body of the edge loop: an edge whose reverse is recorded links the
    two tiles, any other edge is recorded for its tile. *)
Definition splitEdgeStep (idx : nat) (st : list (Edge * nat) * list (list nat))
    (e : Edge) : list (Edge * nat) * list (list nat) :=
  match aget (revEdge e) st.1 with
  | Some otherIdx => (st.1, linkAdj st.2 idx otherIdx)
  | None => (aset e idx st.1, st.2)
  end.

Definition splitTileStep (st : list (Edge * nat) * list (list nat))
    (it : nat * Tile) : list (Edge * nat) * list (list nat) :=
  foldl (splitEdgeStep it.1) st (polyEdges (verts it.2)).

Definition splitAdjacency (polys : list Tile) : list (list nat) :=
  (foldl splitTileStep ([], replicate (length polys) []) (imap pair polys)).2.

Definition splitVisit (polys : list Tile) (adj : list (list nat))
    (st : list bool * list (list Tile)) (i : nat) : list bool * list (list Tile) :=
  match componentFrom adj (length polys) st.1 i with
  | Some (visited, comp) => (visited, st.2 ++ [tilesAt polys comp])
  | None => st
  end.

(** [null] and [undefined] are [None]. *)
Definition splitConnectedComponents (polys : option (list Tile)) : list (list Tile) :=
  match polys with
  | None => []
  | Some [] => []
  | Some ps =>
    (foldl (splitVisit ps (splitAdjacency ps))
           (replicate (length ps) false, []) (seq 0 (length ps))).2
  end.

(** ** [largestConnectedComponent] *)

(** [addEdge(a, b, idx)] *)
Definition addEdge (idx : nat) (edges : list (Edge * list nat)) (e : Edge)
    : list (Edge * list nat) :=
  match aget (revEdge e) edges with
  | Some l => aset (revEdge e) (l ++ [idx]) edges
  | None =>
    match aget e edges with
    | Some l => aset e (l ++ [idx]) edges
    | None => aset e [idx] edges
    end
  end.

Definition largestEdges (polys : list Tile) : list (Edge * list nat) :=
  foldl (fun edges (it : nat * Tile) => foldl (addEdge it.1) edges (polyEdges (verts it.2)))
        [] (imap pair polys).

(** The pairs [(list[i], list[j])] with [i < j], in loop order. *)
Fixpoint indexPairs (l : list nat) : list (nat * nat) :=
  match l with
  | [] => []
  | x :: r => map (pair x) r ++ indexPairs r
  end.

Definition linkShared (adj : list (list nat)) (l : list nat) : list (list nat) :=
  if decide (2 <= length l)
  then foldl (fun a (p : nat * nat) => linkAdj a p.1 p.2) adj (indexPairs l)
  else adj.

Definition largestAdjacency (polys : list Tile) : list (list nat) :=
  foldl linkShared (replicate (length polys) []) (largestEdges polys).*2.

(** The state of the outer loop is [visited] and the indices of [bestComp]. *)
Definition largestVisit (n : nat) (adj : list (list nat))
    (st : list bool * list nat) (i : nat) : list bool * list nat :=
  match componentFrom adj n st.1 i with
  | Some (visited, comp) =>
    (visited, if decide (length st.2 < length comp) then comp else st.2)
  | None => st
  end.

Definition largestIndices (polys : list Tile) : list nat :=
  (foldl (largestVisit (length polys) (largestAdjacency polys))
         (replicate (length polys) false, []) (seq 0 (length polys))).2.

Definition largestConnectedComponent (polys : list Tile) : list Tile :=
  tilesAt polys (largestIndices polys).

(* ================================================================== *)
(** * BorderExtractor: the edge cancellation of [drawBorders] *)
(* ================================================================== *)

Definition borderEdgeStep (edgeMap : list (Edge * Edge)) (e : Edge) : list (Edge * Edge) :=
  match aget (revEdge e) edgeMap with
  | Some _ => adelete (revEdge e) edgeMap
  | None => aset e e edgeMap
  end.

(** The segments [[a, b]] stroked by [edgeMap.forEach], in order. *)
Definition drawBorders (polys : list Tile) : list Edge :=
  (foldl (fun m (poly : Tile) => foldl borderEdgeStep m (polyEdges (verts poly))) [] polys).*2.

(* ================================================================== *)
(** * SeededRegionGrower *)
(* ================================================================== *)

(** ** [generateCentersInPolygons] *)

(** A center is an object [{x, y}]. *)
Record Center := mkCenter { cx : num; cy : num }.

(** [d3.min] and [d3.max] of an array of numbers ([undefined] on the empty
    array does not arise: the hull has three points or more). *)
Definition d3min (l : list num) : num :=
  match l with
  | [] => nInfinity
  | v :: l' => foldl (fun m x => if nlt x m then x else m) v l'
  end.

Definition d3max (l : list num) : num :=
  match l with
  | [] => nInfinity
  | v :: l' => foldl (fun m x => if nlt m x then x else m) v l'
  end.

(** [_.range(num).map(() => ({x: mapCenter.x + _.random(-80, 80, true), ...}))] *)
Fixpoint jitterCenters (n : nat) (s : nat) : list Center * nat :=
  match n with
  | 0 => ([], s)
  | S n' =>
    let c := mkCenter (nadd mapCenter.1 (random s (nofZ (-80)) (nofZ 80)))
                      (nadd mapCenter.2 (random (S s) (nofZ (-80)) (nofZ 80))) in
    let r := jitterCenters n' (S (S s)) in
    (c :: r.1, r.2)
  end.

(** [for (i = 0; i < raw.length && centers.length < num; i++)] *)
Fixpoint acceptRaw (hull : list Point) (minX minY : num) (n : nat)
    (raw : list Point) (centers : list Center) : list Center :=
  match raw with
  | [] => centers
  | p :: raw' =>
    if decide (length centers < n) then
      let candidate := (nadd p.1 minX, nadd p.2 minY) in
      acceptRaw hull minX minY n raw'
        (if polygonContains hull candidate
         then centers ++ [mkCenter candidate.1 candidate.2] else centers)
    else centers
  end.

(** [while (centers.length < num && guard < 5000)]; [budget] is
    [5000 - guard]. *)
Fixpoint topUp (hull : list Point) (minX maxX minY maxY : num) (n : nat)
    (budget : nat) (centers : list Center) (s : nat) : list Center * nat :=
  match budget with
  | 0 => (centers, s)
  | S budget' =>
    if decide (length centers < n) then
      let x := random s minX maxX in
      let y := random (S s) minY maxY in
      topUp hull minX maxX minY maxY n budget'
        (if polygonContains hull (x, y) then centers ++ [mkCenter x y] else centers)
        (S (S s))
    else (centers, s)
  end.

Definition generateCentersInPolygons (n : nat) (polygons : list Tile) (s : nat)
    : list Center * nat :=
  match polygonHull (concat (verts <$> polygons)) with
  | None => jitterCenters n s
  | Some hull =>
    if decide (length hull < 3) then jitterCenters n s
    else
      let minX := d3min hull.*1 in
      let maxX := d3max hull.*1 in
      let minY := d3min hull.*2 in
      let maxY := d3max hull.*2 in
      let raw := poissonFill s minX maxX minY maxY in
      let centers := acceptRaw hull minX minY n raw.1 [] in
      topUp hull minX maxX minY maxY n 5000 centers raw.2
  end.

(** ** [buildAdjacency] *)

Definition buildTileStep (st : list (Edge * nat) * list (list nat))
    (it : nat * Tile) : list (Edge * nat) * list (list nat) :=
  foldl (splitEdgeStep it.1) (st.1, st.2 ++ [[]]) (polyEdges (verts it.2)).

Definition buildAdjacency (polys : list Tile) : list (list nat) :=
  (foldl buildTileStep ([], []) (imap pair polys)).2.

(** ** [growConnectedGroups] *)

(** [d = (cx - px) * (cx - px) + (cy - py) * (cy - py)] *)
Definition sqDist (c p : Point) : num :=
  nadd (nmul (nsub c.1 p.1) (nsub c.1 p.1)) (nmul (nsub c.2 p.2) (nsub c.2 p.2)).

(** The search [for (j = 0; j < k; j++) { [px, py] = centerPos[j]; ... }];
    destructuring [undefined] raises a [TypeError]. *)
Fixpoint nearestFrom (c : Point) (centerPos : list Point) (js : list nat)
    (best : nat) (bd : num) : option nat :=
  match js with
  | [] => Some best
  | j :: js' =>
    match centerPos !! j with
    | None => None
    | Some p =>
      let d := sqDist c p in
      if nlt d bd then nearestFrom c centerPos js' j d
      else nearestFrom c centerPos js' best bd
    end
  end.

Definition nearestIndex (c : Point) (centerPos : list Point) (k : nat) : option nat :=
  nearestFrom c centerPos (seq 0 k) 0 nInfinity.

(** The initial queues: tile [i] goes to the queue of its nearest center. *)
Definition enqueueTile (centerPos : list Point) (k : nat)
    (queues : option (list (list nat))) (it : nat * Tile) : option (list (list nat)) :=
  match queues with
  | None => None
  | Some qs =>
    match nearestIndex (polygonCentroid (verts it.2)) centerPos k with
    | None => None
    | Some best => pushAt qs best it.1
    end
  end.

(** [assign] holds [-1] as [None]. *)
Definition isUnassigned (assign : list (option nat)) (i : nat) : bool :=
  bool_decide (assign !! i = Some None).

(** The body of [for (const idx of frontier)] for group [g]. *)
Definition growTile (idxAdj : list (list nat)) (g : nat)
    (st : list (option nat) * list nat * bool) (idx : nat)
    : list (option nat) * list nat * bool :=
  let '(assign, front, progress) := st in
  let assign1 := if isUnassigned assign idx then <[idx := Some g]> assign else assign in
  let progress1 := if isUnassigned assign idx then true else progress in
  let front1 := foldl (fun f nb => if isUnassigned assign1 nb then sadd nb f else f)
                      front (groupAt idxAdj idx) in
  (assign1, front1, progress1).

(** The body of [for (let g = 0; g < k; g++)]. *)
Definition growGroup (idxAdj : list (list nat))
    (st : list (option nat) * list (list nat) * bool) (g : nat)
    : list (option nat) * list (list nat) * bool :=
  let '(assign, fronts, progress) := st in
  let r := foldl (growTile idxAdj g) (assign, [], progress) (groupAt fronts g) in
  (r.1.1, <[g := r.1.2]> fronts, r.2).

Definition growRound (idxAdj : list (list nat)) (k : nat)
    (assign : list (option nat)) (fronts : list (list nat))
    : list (option nat) * list (list nat) * bool :=
  foldl (growGroup idxAdj) (assign, fronts, false) (seq 0 k).

(** [while (progress)]; [grow_fuel_enough] shows that one round more than
    there are tiles is always enough. *)
Fixpoint growLoop (idxAdj : list (list nat)) (k : nat) (fuel : nat)
    (assign : list (option nat)) (fronts : list (list nat)) : list (option nat) :=
  match fuel with
  | 0 => assign
  | S fuel' =>
    let r := growRound idxAdj k assign fronts in
    if r.2 then growLoop idxAdj k fuel' r.1.1 r.1.2 else r.1.1
  end.

(** [g = assign[i] !== -1 ? assign[i] : 0; groups[g].push(polys[i])] *)
Definition collectTile (assign : list (option nat))
    (groups : option (list (list Tile))) (it : nat * Tile) : option (list (list Tile)) :=
  match groups with
  | None => None
  | Some gs => pushAt gs (default 0 (mjoin (assign !! it.1))) it.2
  end.

(** [comps.sort((a, b) => b.length - a.length)]: a stable sort, longest
    first.  [sortByLength] inserts the components from the last to the
    first, each before the components that are not longer, so components of
    equal length keep their order. *)
Fixpoint insertByLength {A : Type} (c : list A) (sorted : list (list A)) : list (list A) :=
  match sorted with
  | [] => [c]
  | c' :: rest =>
    if decide (length c' <= length c) then c :: c' :: rest
    else c' :: insertByLength c rest
  end.

Definition sortByLength {A : Type} (comps : list (list A)) : list (list A) :=
  foldr insertByLength [] comps.

(** The connectivity prune of one group: the state is the pool and the
    groups mapped so far. *)
Definition pruneGroup (st : list Tile * list (list Tile)) (g : list Tile)
    : list Tile * list (list Tile) :=
  let comps := splitConnectedComponents (Some g) in
  if decide (length comps <= 1) then (st.1, st.2 ++ [g])
  else
    let sorted := sortByLength comps in
    (st.1 ++ concat (drop 1 sorted), st.2 ++ [groupAt sorted 0]).

Record Grown := mkGrown {
  groups : list (list Tile);
  pool : list Tile;
  assign : list (option nat);
  idxAdj : list (list nat)
}.

Definition growConnectedGroups (polys : list Tile) (k : nat) (minTiles : nat) (s : nat)
    : option (Grown * nat) :=
  let centers := generateCentersInPolygons k polys s in
  let idxAdj := buildAdjacency polys in
  let N := length polys in
  let centerPos := (fun c => (cx c, cy c)) <$> centers.1 in
  queues ← foldl (enqueueTile centerPos k) (Some (replicate k [])) (imap pair polys);
  let fronts := setOf <$> queues in
  let assign := growLoop idxAdj k (S N) (replicate N None) fronts in
  groups ← foldl (collectTile assign) (Some (replicate k [])) (imap pair polys);
  let pruned := foldl pruneGroup ([], []) groups in
  Some (mkGrown pruned.2 pruned.1 assign idxAdj, centers.2).

(* ================================================================== *)
(** * PartitionRebalancer *)
(* ================================================================== *)

(** ** [shareEdge] *)

Definition equalPoint (u v : Point) : bool :=
  bool_decide (u.1 = v.1) && bool_decide (u.2 = v.2).

Definition shareEdge (p1 p2 : Tile) : bool :=
  existsb (fun e1 : Edge =>
    existsb (fun e2 : Edge =>
      (equalPoint e1.1 e2.1 && equalPoint e1.2 e2.2)
      || (equalPoint e1.1 e2.2 && equalPoint e1.2 e2.1))
      (polyEdges (verts p2)))
    (polyEdges (verts p1)).

(** ** [rebalanceBoundaries] *)

(** [groupTiles.filter(p => p !== removePoly)] *)
Definition removeTile (groupTiles : list Tile) (removePoly : Tile) : list Tile :=
  filter (fun p => sameRef p removePoly = false) groupTiles.

Definition staysConnectedAfterRemoval (groupTiles : list Tile) (removePoly : Tile) : bool :=
  let remain := removeTile groupTiles removePoly in
  if decide (length remain = 0) then false
  else bool_decide (length (splitConnectedComponents (Some remain)) = 1).

(** [centroidOfGroup] *)
Definition centroidOfGroup (g : list Tile) : Point :=
  polygonCentroid (concat (verts <$> g)).

(** [assignToNearest(poly)] with the group centers computed beforehand. *)
Definition assignToNearest (groupCenters : list Point) (k : nat)
    (groups : option (list (list Tile))) (poly : Tile) : option (list (list Tile)) :=
  match groups with
  | None => None
  | Some gs =>
    match nearestIndex (polygonCentroid (verts poly)) groupCenters k with
    | None => None
    | Some best => pushAt gs best poly
    end
  end.

(** The donors of [gi]: [gj !== gi && groups[gj].length > minTiles]. *)
Definition donorsOf (groups : list (list Tile)) (minTiles gi : nat) : list nat :=
  filter (fun gj => gj ≠ gi /\ minTiles < length (groupAt groups gj)) (seq 0 (length groups)).

(** The first tile of the donor that touches the receiver and whose removal
    keeps the donor connected. *)
Definition pickTile (donorTiles receiver : list Tile) : option Tile :=
  List.find (fun t => existsb (fun r => shareEdge t r) receiver
                      && staysConnectedAfterRemoval donorTiles t) donorTiles.

(** [for (const gj of donors)] up to the first transfer. *)
Fixpoint seekDonor (groups : list (list Tile)) (gi : nat) (donors : list nat)
    : option (nat * Tile) :=
  match donors with
  | [] => None
  | gj :: donors' =>
    match pickTile (groupAt groups gj) (groupAt groups gi) with
    | Some t => Some (gj, t)
    | None => seekDonor groups gi donors'
    end
  end.

(** [groups[gj] = groups[gj].filter(p => p !== t); groups[gi].push(t)] *)
Definition moveTile (groups : list (list Tile)) (gj gi : nat) (t : Tile) : list (list Tile) :=
  let groups1 := <[gj := removeTile (groupAt groups gj) t]> groups in
  <[gi := groupAt groups1 gi ++ [t]]> groups1.

(** [need.indexOf(gi)] and [need.splice(idx, 1)] *)
Fixpoint spliceOut (gi : nat) (need : list nat) : list nat :=
  match need with
  | [] => []
  | x :: need' => if decide (x = gi) then need' else x :: spliceOut gi need'
  end.

(** The body of [for (const gi of need)]. *)
Definition exchangeFor (minTiles : nat) (gi : nat) (need : list nat)
    (groups : list (list Tile)) : list nat * list (list Tile) :=
  let donors := donorsOf groups minTiles gi in
  match donors with
  | [] => (need, groups)
  | _ =>
    let groups' := match seekDonor groups gi donors with
                   | Some (gj, t) => moveTile groups gj gi t
                   | None => groups
                   end in
    (if decide (minTiles <= length (groupAt groups' gi)) then spliceOut gi need else need,
     groups')
  end.

(** [for (const gi of need)]: the array iterator reads [need[pos]] against
    the current array, which the body may shorten.  [fuel] bounds the number
    of iterations; the length of [need] on entry is enough
    ([exchangeRound_fuel_enough]). *)
Fixpoint exchangeRound (minTiles : nat) (fuel : nat) (pos : nat) (need : list nat)
    (groups : list (list Tile)) : list nat * list (list Tile) :=
  match fuel with
  | 0 => (need, groups)
  | S fuel' =>
    match need !! pos with
    | None => (need, groups)
    | Some gi =>
      let r := exchangeFor minTiles gi need groups in
      exchangeRound minTiles fuel' (S pos) r.1 r.2
    end
  end.

(** [for (let round = 0; round < 20 && need.length; round++)] *)
Fixpoint exchangeRounds (minTiles : nat) (rounds : nat) (need : list nat)
    (groups : list (list Tile)) : list (list Tile) :=
  match rounds with
  | 0 => groups
  | S rounds' =>
    match need with
    | [] => groups
    | _ =>
      let r := exchangeRound minTiles (length need) 0 need groups in
      exchangeRounds minTiles rounds' r.1 r.2
    end
  end.

(** [rebalanceBoundaries(groups, pool, idxAdj, minTiles, targetCounts)];
    [idxAdj] and [targetCounts] are not read by the body. *)
Definition rebalanceBoundaries (groups : list (list Tile)) (pool : list Tile)
    (idxAdj : list (list nat)) (minTiles : nat) (targetCounts : nat)
    : option (list (list Tile)) :=
  let k := length groups in
  let groupCenters := centroidOfGroup <$> groups in
  groups1 ← foldl (assignToNearest groupCenters k) (Some groups) pool;
  let need := filter (fun i => length (groupAt groups1 i) < minTiles) (seq 0 k) in
  Some (exchangeRounds minTiles 20 need groups1).

(** The pipeline of [createMap] and [assignCountriesWithinRegion]. *)
Definition partitionIntoGroups (polys : list Tile) (k minTiles : nat) (s : nat)
    : option (list (list Tile)) :=
  g ← growConnectedGroups polys k minTiles s;
  rebalanceBoundaries (groups g.1) (pool g.1) (idxAdj g.1) minTiles k.

(* ================================================================== *)
(** * The count repair of [forceAssignWithConnectivity] (earlier revision) *)
(* ================================================================== *)

(** [_.maxBy(_.range(n), i => validGroups[i].length)]: the first index of
    maximal length, [undefined] on the empty range. *)
Fixpoint maxByLength {A : Type} (groups : list (list A)) (idxs : list nat)
    (best : option nat) : option nat :=
  match idxs with
  | [] => best
  | i :: idxs' =>
    match best with
    | None => maxByLength groups idxs' (Some i)
    | Some b =>
      if decide (length (groupAt groups b) < length (groupAt groups i))
      then maxByLength groups idxs' (Some i)
      else maxByLength groups idxs' best
    end
  end.

Definition largestIdx {A : Type} (groups : list (list A)) : option nat :=
  maxByLength groups (seq 0 (length groups)) None.

(** [while (validGroups.length < numGroups)]: every iteration that does not
    break pushes one group, so [n] counts the iterations the loop condition
    still allows, [numGroups - validGroups.length]. *)
Fixpoint repairLoop (n : nat) (minTiles : nat) (validGroups : list (list Tile))
    : option (list (list Tile)) :=
  match n with
  | 0 => Some validGroups
  | S n' =>
    match largestIdx validGroups with
    | None => None
    | Some i =>
      let largest := groupAt validGroups i in
      if decide (length largest <= minTiles * 2) then Some validGroups
      else
        let half := length largest / 2 in
        repairLoop n' minTiles (<[i := drop half largest]> validGroups ++ [take half largest])
    end
  end.

Definition countRepair (validGroups : list (list Tile)) (numGroups minTiles : nat)
    : option (list (list Tile)) :=
  repairLoop (numGroups - length validGroups) minTiles validGroups.

End Engine.

(* ================================================================== *)
(** * Notions used to state the properties *)
(* ================================================================== *)

Section Notions.

Context {num : Type} `{!JSNumber num}.

(** The adjacency graph held by an adjacency map: [v] is a neighbour of [u]
    when [adj.get(u)] has [v]. *)
Definition adjacent (adj : list (list nat)) (u v : nat) : Prop := v ∈ groupAt adj u.

(** Connected: joined by a path of neighbours. *)
Definition connected (adj : list (list nat)) : nat -> nat -> Prop := rtc (adjacent adj).

(** The adjacency map has an entry for each of the [n] tiles and only holds
    tile indices. *)
Definition adjBounded (n : nat) (adj : list (list nat)) : Prop :=
  length adj = n /\ forall u v, adjacent adj u v -> u < n /\ v < n.

Definition adjSymmetric (adj : list (list nat)) : Prop :=
  forall u v, adjacent adj u v -> adjacent adj v u.

(** The well-formedness of an adjacency map on [n] tiles. *)
Definition adjOk (n : nat) (adj : list (list nat)) : Prop :=
  adjBounded n adj /\ adjSymmetric adj.

(** A connected component of the graph on the tiles [0 .. n-1], as a list of
    indices without repetition: it is not empty and holds exactly the tiles
    connected to any one of its members. *)
Definition isComponent (adj : list (list nat)) (n : nat) (c : list nat) : Prop :=
  c ≠ [] /\ NoDup c /\
  forall s, s ∈ c -> s < n /\ forall v, v ∈ c <-> connected adj s v.

(** The graph restricted to the tiles of [c] is connected. *)
Definition connectedWithin (adj : list (list nat)) (c : list nat) : Prop :=
  forall u v, u ∈ c -> v ∈ c ->
    rtc (fun a b => adjacent adj a b /\ a ∈ c /\ b ∈ c) u v.

(** The number of tiles not yet visited. *)
Definition countFalse (visited : list bool) : nat :=
  length (filter (fun b => b = false) visited).

(** The components found by the outer loop of both analysers, in the order
    of discovery. *)
Definition discover (adj : list (list nat)) (n : nat)
    (st : list bool * list (list nat)) (i : nat) : list bool * list (list nat) :=
  match componentFrom adj n st.1 i with
  | Some (visited, comp) => (visited, st.2 ++ [comp])
  | None => st
  end.

Definition components (adj : list (list nat)) (n : nat) : list (list nat) :=
  (foldl (discover adj n) (replicate n false, []) (seq 0 n)).2.

(** [if (comp.length > bestComp.length) bestComp = comp] along a list of
    components. *)
Definition pickBest (comps : list (list nat)) : list nat :=
  foldl (fun best c => if decide (length best < length c) then c else best) [] comps.

End Notions.

Section Invariants.

(** The invariant of the traversal started at [s] on the array [old] of
    visited marks. *)
Definition bfsInv (adj : list (list nat)) (n : nat) (old : list bool) (s : nat)
    (visited : list bool) (queue comp : list nat) : Prop :=
  length visited = n
  /\ length old = n
  /\ NoDup (comp ++ queue)
  /\ (forall v, visited !! v = Some true <-> old !! v = Some true \/ v ∈ comp ++ queue)
  /\ (forall v, v ∈ comp ++ queue -> old !! v = Some false)
  /\ (forall u v, u ∈ comp -> adjacent adj u v -> visited !! v = Some true)
  /\ (forall v, v ∈ comp ++ queue -> connected adj s v).

End Invariants.

Section OuterInvariants.

(** The invariant of the outer loop before index [i]: the components found
    so far hold exactly the visited tiles, once each, and every tile below
    [i] is visited. *)
Definition outerInv (n i : nat) (visited : list bool) (comps : list (list nat)) : Prop :=
  length visited = n
  /\ NoDup (concat comps)
  /\ (forall v, visited !! v = Some true <-> v ∈ concat comps)
  /\ (forall v, v < i -> v < n -> visited !! v = Some true).

(** [c1] was discovered before [c2]: it holds a tile below all of [c2]. *)
Definition before (c1 c2 : list nat) : Prop :=
  exists s, s ∈ c1 /\ forall v, v ∈ c2 -> s < v.

(** Each component found so far is the class of its first tile, which is its
    least tile and lies below [i]; components appear in the order of their
    least tiles. *)
Definition classInv (adj : list (list nat)) (i : nat) (comps : list (list nat)) : Prop :=
  Forall (fun c => exists s rest, c = s :: rest /\ s < i
                   /\ (forall v, v ∈ c <-> connected adj s v)
                   /\ (forall v, v ∈ c -> s <= v)) comps
  /\ (forall j1 j2 c1 c2, j1 < j2 -> comps !! j1 = Some c1 -> comps !! j2 = Some c2 ->
        before c1 c2).

End OuterInvariants.

Section GeometryNotions.

Context {num : Type} `{!JSNumber num}.

(** Two directed edges on the same segment: equal, or one the reverse of the
    other. *)
Definition sameLine (e k : @Edge num) : Prop := e = k \/ e = revEdge k.

(** Two tiles share an edge. *)
Definition touching (t1 t2 : @Tile num) : Prop :=
  exists e1 e2, e1 ∈ polyEdges (verts t1) /\ e2 ∈ polyEdges (verts t2) /\ sameLine e1 e2.

(** The edges of all tiles in the order the loops visit them, each with the
    index of its tile. *)
Definition occurrences (polys : list (@Tile num)) : list (nat * @Edge num) :=
  imap pair polys ≫= fun it => pair it.1 <$> polyEdges (verts it.2).

(** The invariant of the edge map of [largestConnectedComponent] after the
    occurrences [P]: one key per segment, whose list holds the tiles with an
    edge on that segment. *)
Definition edgesInv (P : list (nat * @Edge num)) (m : list (@Edge num * list nat)) : Prop :=
  NoDup m.*1
  /\ (forall k, k ∈ m.*1 -> revEdge k ∈ m.*1 -> revEdge k = k)
  /\ (forall k l, (k, l) ∈ m -> forall u, u ∈ l <-> exists e, (u, e) ∈ P /\ sameLine e k)
  /\ (forall u e, (u, e) ∈ P -> exists k, k ∈ m.*1 /\ sameLine e k).

(** Every two tiles of the list are joined by a chain of tiles of the list
    in which consecutive tiles share an edge. *)
Definition edgeConnected (ps : list (@Tile num)) : Prop :=
  forall t1 t2, t1 ∈ ps -> t2 ∈ ps ->
    rtc (fun a b => a ∈ ps /\ b ∈ ps /\ shareEdge a b = true) t1 t2.

End GeometryNotions.

Section ExchangeNotions.

Context {num : Type} `{!JSNumber num}.

(** Every two tiles of an [n]-tile graph are connected. *)
Definition allConnected (adj : list (list nat)) (n : nat) : Prop :=
  forall u v, u < n -> v < n -> connected adj u v.

(** One transfer of the boundary exchange: tile [t] leaves the donor
    [groups[gj]] for the receiver [groups[gi]]; the donor has more than
    [minTiles] tiles, [t] shares an edge with a tile of the receiver, and
    the donor without [t] is one connected component. *)
Definition safeTransfer (minTiles : nat) (groups groups' : list (list (@Tile num))) : Prop :=
  exists gi gj t,
    gj ≠ gi
    /\ minTiles < length (groupAt groups gj)
    /\ t ∈ groupAt groups gj
    /\ (exists r, r ∈ groupAt groups gi /\ shareEdge t r = true)
    /\ length (splitConnectedComponents (Some (removeTile (groupAt groups gj) t))) = 1
    /\ groups' = moveTile groups gj gi t
    /\ groupAt groups' gj = removeTile (groupAt groups gj) t
    /\ groupAt groups' gi = groupAt groups gi ++ [t]
    /\ allConnected (splitAdjacency (groupAt groups' gj)) (length (groupAt groups' gj))
    /\ edgeConnected (groupAt groups' gj).

End ExchangeNotions.

Section GrowNotions.

(** The number of tiles still unassigned ([-1]). *)
Definition countNone (assign : list (option nat)) : nat :=
  length (filter (fun a => a = None) assign).

(** Every assigned group index is below [k]. *)
Definition assignBelow (k : nat) (assign : list (option nat)) : Prop :=
  Forall (fun a => forall g, a = Some g -> g < k) assign.

(** What a step of the growth keeps: the size of [assign], the bound on the
    group indices, and the fact that progress means one tile fewer is
    unassigned. *)
Definition growKeeps (k : nat) (a0 : list (option nat)) (p0 : bool)
    (a : list (option nat)) (p : bool) : Prop :=
  length a = length a0
  /\ (assignBelow k a0 -> assignBelow k a)
  /\ countNone a <= countNone a0
  /\ (p = true -> p0 = true \/ countNone a < countNone a0).

End GrowNotions.

Section RepairNotions.

Context {num : Type} `{!JSNumber num} `{!Externals num}.

(** One step of the count repair: the first group of maximal length, longer
    than [2 * minTiles], keeps its second half, and its first half
    ([floor(length / 2)] tiles) becomes a new last group. *)
Definition bisectLargest (minTiles : nat) (gs gs' : list (list (@Tile num))) : Prop :=
  exists i,
    largestIdx gs = Some i
    /\ minTiles * 2 < length (groupAt gs i)
    /\ gs' = <[i := drop (length (groupAt gs i) / 2) (groupAt gs i)]> gs
             ++ [take (length (groupAt gs i) / 2) (groupAt gs i)].

(** [i] is the first index of a group of maximal length: what
    [_.maxBy(_.range(n), i => groups[i].length)] picks. *)
Definition firstLargest {A : Type} (gs : list (list A)) (i : nat) : Prop :=
  i < length gs
  /\ (forall j, j < length gs -> length (groupAt gs j) <= length (groupAt gs i))
  /\ (forall j, j < i -> length (groupAt gs j) < length (groupAt gs i)).

(** One iteration of the count repair as the amended claim words it: there
    are fewer than [numGroups] groups, the first largest group has more than
    [2 * minTiles] tiles, it keeps its second half, and its first
    [floor(length / 2)] tiles become a new last group. *)
Definition bisectFirstLargest (numGroups minTiles : nat)
    (gs gs' : list (list (@Tile num))) : Prop :=
  length gs < numGroups
  /\ exists i,
       firstLargest gs i
       /\ minTiles * 2 < length (groupAt gs i)
       /\ gs' = <[i := drop (length (groupAt gs i) / 2) (groupAt gs i)]> gs
                ++ [take (length (groupAt gs i) / 2) (groupAt gs i)].

(** The count repair has nothing left to do: the count is met or the
    largest group has at most [2 * minTiles] tiles. *)
Definition repairDone (numGroups minTiles : nat) (gs : list (list (@Tile num))) : Prop :=
  numGroups <= length gs \/ forall g, g ∈ gs -> length g <= minTiles * 2.

(** The hull of the tile set is missing or has fewer than three points. *)
Definition hullDegenerate (polygons : list (@Tile num)) : Prop :=
  match polygonHull (concat (verts <$> polygons)) with
  | None => True
  | Some hull => length hull < 3
  end.

End RepairNotions.

(* ================================================================== *)
(** * A concrete arithmetic and concrete collaborators, for running the model *)
(* ================================================================== *)

Module Grid.

(** Integers extended with [Infinity]. *)
Inductive znum := ZFin (z : Z) | ZInf.

#[global] Instance znum_eq_dec : EqDecision znum.
Proof. solve_decision. Defined.

Definition zlift (f : Z -> Z -> Z) (a b : znum) : znum :=
  match a, b with
  | ZFin x, ZFin y => ZFin (f x y)
  | _, _ => ZInf
  end.

Definition zlt (a b : znum) : bool :=
  match a, b with
  | ZFin x, ZFin y => bool_decide (x < y)%Z
  | ZFin _, ZInf => true
  | ZInf, _ => false
  end.

#[global] Instance znum_number : JSNumber znum := {|
  nadd := zlift Z.add;
  nsub := zlift Z.sub;
  nmul := zlift Z.mul;
  nlt := zlt;
  nInfinity := ZInf;
  nofZ := ZFin
|}.

Definition zval (a : znum) : Z := match a with ZFin z => z | ZInf => 0 end.

(** The centroid of d3: [x = sum (a0 + b0) * c], [k = sum c] with
    [c = a0 * b1 - b0 * a1] over the edges [(a, b)], result [x / (3 k)]. *)
Definition centroidSums (pts : list (znum * znum)) : Z * Z * Z :=
  foldl (fun (acc : Z * Z * Z) (e : (znum * znum) * (znum * znum)) =>
           let a0 := zval e.1.1 in let a1 := zval e.1.2 in
           let b0 := zval e.2.1 in let b1 := zval e.2.2 in
           let c := (a0 * b1 - b0 * a1)%Z in
           (acc.1.1 + (a0 + b0) * c, acc.1.2 + (a1 + b1) * c, acc.2 + c)%Z)
        (0, 0, 0)%Z
        (zip (rotate (length pts - 1) pts) pts).

Definition gridCentroid (pts : list (znum * znum)) : znum * znum :=
  let s := centroidSums pts in
  (ZFin (s.1.1 / (3 * s.2)), ZFin (s.1.2 / (3 * s.2))).

(** The hull of the vertices of a rectangular grid: the corners of its
    bounding box, counterclockwise. *)
Definition gridHull (pts : list (znum * znum)) : option (list (znum * znum)) :=
  if decide (length pts < 3) then None
  else
    let x0 := d3min pts.*1 in let x1 := d3max pts.*1 in
    let y0 := d3min pts.*2 in let y1 := d3max pts.*2 in
    Some [(x0, y0); (x1, y0); (x1, y1); (x0, y1)].

(** The crossing test of [d3.polygonContains], with the division cleared. *)
Definition crosses (p0 p1 p : znum * znum) : bool :=
  let x := zval p.1 in let y := zval p.2 in
  let x0 := zval p0.1 in let y0 := zval p0.2 in
  let x1 := zval p1.1 in let y1 := zval p1.2 in
  negb (Bool.eqb (y <? y1)%Z (y <? y0)%Z)
  && (if (y1 <? y0)%Z
      then ((x - x1) * (y0 - y1) <? (x0 - x1) * (y - y1))%Z
      else ((x0 - x1) * (y - y1) <? (x - x1) * (y0 - y1))%Z).

Definition gridContains (hull : list (znum * znum)) (p : znum * znum) : bool :=
  foldl (fun inside (e : (znum * znum) * (znum * znum)) =>
           if crosses e.1 e.2 p then negb inside else inside)
        false
        (zip (rotate (length hull - 1) hull) hull).

(** A random source whose every draw is the upper bound, and a Poisson
    sampler that places two points. *)
#[global] Instance gridExternals : Externals znum := {|
  polygonCentroid := gridCentroid;
  polygonHull := gridHull;
  polygonContains := gridContains;
  random := fun _ _ upper => upper;
  poissonFill := fun s _ _ _ _ => ([(ZFin 1, ZFin 1); (ZFin 3, ZFin 3)], S s);
  mapCenter := (ZFin 2, ZFin 2)
|}.

(** The square tile of side 2 whose lower left corner is [(x, y)], wound
    counterclockwise. *)
Definition square (id : nat) (x y : Z) : Tile :=
  mkTile id [(ZFin x, ZFin y); (ZFin (x + 2), ZFin y);
             (ZFin (x + 2), ZFin (y + 2)); (ZFin x, ZFin (y + 2))].

(** A 2 x 2 block of squares and a 5 x 1 strip. *)
Definition block : list Tile :=
  [square 0 0 0; square 1 2 0; square 2 0 2; square 3 2 2].

Definition strip : list Tile :=
  [square 0 0 0; square 1 2 0; square 2 4 0; square 3 6 0; square 4 8 0].

End Grid.

(* ================================================================== *)
(** * Further notions *)
(* ================================================================== *)

Section BorderNotions.

Context {num : Type} `{!JSNumber num}.

(** The directed edges of all tiles of a group, in the order the loops
    visit them. *)
Definition allEdges (polys : list (@Tile num)) : list (@Edge num) :=
  polys ≫= fun poly => polyEdges (verts poly).

End BorderNotions.

Section GrowerNotions.

(** The array [assign] during the first round of the grower, for tiles
    [0 .. N-1] whose nearest center is given by [tg]: the tiles of the groups
    below [g] and the tiles [p] have their group, the others none. *)
Definition assignedBelow (tg : nat -> nat) (N g : nat) (p : list nat) : list (option nat) :=
  (fun i => if decide (tg i < g \/ i ∈ p) then Some (tg i) else None) <$> seq 0 N.

End GrowerNotions.

Section NearestNotions.

Context {num : Type} `{!JSNumber num}.

(** [<] orders the numbers [ds] and [Infinity] as it orders numbers that are
    not [NaN]: it is irreflexive and transitive, numbers that are not below
    one another compare alike with every third, and nothing is above
    [Infinity]. *)
Definition ltOrders (ds : list num) : Prop :=
  (forall a, a ∈ nInfinity :: ds -> nlt a a = false)
  /\ (forall a b c, a ∈ nInfinity :: ds -> b ∈ nInfinity :: ds -> c ∈ nInfinity :: ds ->
        nlt a b = true -> nlt b c = true -> nlt a c = true)
  /\ (forall a b c, a ∈ nInfinity :: ds -> b ∈ nInfinity :: ds -> c ∈ nInfinity :: ds ->
        nlt a b = true -> nlt a c = true \/ nlt c b = true)
  /\ (forall a, a ∈ nInfinity :: ds -> nlt nInfinity a = false).

(** Center [j] is the first nearest of the [k] centers to the point [c]: no
    center is nearer, and every center before it is farther. *)
Definition firstNearest (c : @Point num) (centerPos : list (@Point num)) (k j : nat) : Prop :=
  j < k
  /\ exists pj,
       centerPos !! j = Some pj
       /\ (forall i p, i < k -> centerPos !! i = Some p ->
             nlt (sqDist c p) (sqDist c pj) = false)
       /\ (forall i p, i < j -> centerPos !! i = Some p ->
             nlt (sqDist c pj) (sqDist c p) = true).

End NearestNotions.

(* ================================================================== *)
(** * [buildMainland] *)
(* ================================================================== *)

Section Mainland.

Context {num : Type} `{!JSNumber num} `{!Externals num}.

(** The island test uses transcendental functions and is modelled over the
    reals: [toR] is the real value of a number. *)
Variable toR : num -> R.

(** [this.pixelScale] *)
Variable pixelScale : num.

(** [d3.polygonCentroid(polygon)] of a tile, as a pair of reals. *)
Definition tileCentroid (polygon : @Tile num) : R * R :=
  let c := polygonCentroid (verts polygon) in (toR c.1, toR c.2).

(** [this.mapCenter] as the center point of the island test. *)
Definition mapCenterPoint : Island.CenterPoint :=
  Island.mkCenterPoint (toR mapCenter.1) (toR mapCenter.2).

(** [this.IsTargetPokygon(polygon, this.mapCenter, startAngle, bumps, scale)]
    with [bumps = 3], [startAngle = 0] and [scale = 1]. *)
Definition isLand (polygon : @Tile num) : bool :=
  Island.IsTargetPokygon tileCentroid (toR pixelScale) polygon mapCenterPoint 0 3 1.

(** The loop [_.each(polygons, ...)] that collects [candidate]; the array of
    [voronoi.polygons] is sparse, a missing cell is [None]. *)
Definition landCandidates (polygons : list (option (@Tile num))) : list (@Tile num) :=
  omap (fun polygon : option (@Tile num) =>
          match polygon with
          | None => None
          | Some p =>
            if decide (length (verts p) < 4) then None
            else if isLand p then Some p else None
          end) polygons.

Definition buildMainland (polygons : list (option (@Tile num))) : list (@Tile num) :=
  let candidate := landCandidates polygons in
  if decide (length candidate = 0) then []
  else largestConnectedComponent candidate.

End Mainland.

(* ================================================================== *)
(** * The partitioners of the earlier revision *)
(* ================================================================== *)

Section EarlierRevision.

Context {num : Type} `{!JSNumber num} `{!Externals num}.

(** [points.forEach((p, i) => { const d = (cx - p.x) ** 2 + (cy - p.y) ** 2;
    if (d < minDist) { minDist = d; idx = i; } })], the state being [idx]
    and [minDist]; [x ** 2] is [x * x]. *)
Fixpoint nearestEach (c : @Point num) (points : list (@Point num)) (i idx : nat)
    (minDist : num) : nat :=
  match points with
  | [] => idx
  | p :: points' =>
    let d := sqDist c p in
    if nlt d minDist then nearestEach c points' (S i) i d
    else nearestEach c points' (S i) idx minDist
  end.

(** The first loop of [assignPolygonsToCenters] and of
    [forceAssignWithConnectivity]: [groups[idx].push(poly)] for the nearest
    center [idx]. *)
Definition assignInitial (centers : list (@Center num))
    (groups : option (list (list (@Tile num)))) (poly : @Tile num)
    : option (list (list (@Tile num))) :=
  match groups with
  | None => None
  | Some gs =>
    pushAt gs (nearestEach (polygonCentroid (verts poly))
                           ((fun c => (cx c, cy c)) <$> centers) 0 0 nInfinity) poly
  end.

(** ** [forceAssignWithConnectivity] *)

(** [orphans.forEach(poly => ...)]: the orphan goes to the valid group with
    the nearest centroid; the centroids are those of the groups as they are
    when the orphan is handled. *)
Definition mergeOrphan (validGroups : option (list (list (@Tile num))))
    (poly : @Tile num) : option (list (list (@Tile num))) :=
  match validGroups with
  | None => None
  | Some vgs =>
    pushAt vgs (nearestEach (polygonCentroid (verts poly))
                            (centroidOfGroup <$> vgs) 0 0 nInfinity) poly
  end.

Definition forceAssignWithConnectivity (polygons : list (@Tile num))
    (numGroups minTiles : nat) (s : nat) : option (list (list (@Tile num)) * nat) :=
  let centers := generateCentersInPolygons numGroups polygons s in
  groups ← foldl (assignInitial centers.1) (Some (replicate numGroups [])) polygons;
  let connectedGroups := groups ≫= fun g => splitConnectedComponents (Some g) in
  let validGroups := filter (fun g => minTiles <= length g) connectedGroups in
  let orphans := concat (filter (fun g => ~ minTiles <= length g) connectedGroups) in
  merged ← foldl mergeOrphan (Some validGroups) orphans;
  out ← countRepair merged numGroups minTiles;
  Some (out, centers.2).

(** ** [assignPolygonsToCenters] *)

(** [valid.forEach((g, i) => ...)] for one orphan: an empty group takes the
    orphan ([idx = i; minDist = -1]), otherwise the nearest centroid so
    far. *)
Fixpoint nearestValid (c : @Point num) (valid : list (list (@Tile num))) (i idx : nat)
    (minDist : num) : nat :=
  match valid with
  | [] => idx
  | g :: valid' =>
    if decide (length g = 0) then nearestValid c valid' (S i) i (nofZ (-1))
    else
      let d := sqDist c (centroidOfGroup g) in
      if nlt d minDist then nearestValid c valid' (S i) i d
      else nearestValid c valid' (S i) idx minDist
  end.

Definition reassignOrphan (valid : option (list (list (@Tile num))))
    (poly : @Tile num) : option (list (list (@Tile num))) :=
  match valid with
  | None => None
  | Some vs =>
    pushAt vs (nearestValid (polygonCentroid (verts poly)) vs 0 0 nInfinity) poly
  end.

Definition assignPolygonsToCenters (polygons : list (@Tile num))
    (centers : list (@Center num)) (minTiles : nat) : option (list (list (@Tile num))) :=
  groups ← foldl (assignInitial centers) (Some (replicate (length centers) [])) polygons;
  let valid := filter (fun g => minTiles <= length g) groups in
  let orphans := concat (filter (fun g => ~ minTiles <= length g) groups) in
  (* while (valid.length < centers.length) valid.push([]) *)
  let padded := valid ++ replicate (length centers - length valid) [] in
  foldl reassignOrphan (Some padded) orphans.

(** ** [forceAssign] *)

(** [groups.forEach((gg, j) => { if (gg.length >= minTiles) ... })] for one
    tile of a small group. *)
Fixpoint nearestBig (c : @Point num) (minTiles : nat) (groups : list (list (@Tile num)))
    (j idx : nat) (minDist : num) : nat :=
  match groups with
  | [] => idx
  | gg :: groups' =>
    if decide (minTiles <= length gg) then
      let d := sqDist c (centroidOfGroup gg) in
      if nlt d minDist then nearestBig c minTiles groups' (S j) j d
      else nearestBig c minTiles groups' (S j) idx minDist
    else nearestBig c minTiles groups' (S j) idx minDist
  end.

(** The body of [g.forEach((poly) => ...)]: [groups[idx].push(poly)]. *)
Definition mergeTile (minTiles : nat) (groups : option (list (list (@Tile num))))
    (poly : @Tile num) : option (list (list (@Tile num))) :=
  match groups with
  | None => None
  | Some gs =>
    pushAt gs (nearestBig (polygonCentroid (verts poly)) minTiles gs 0 0 nInfinity) poly
  end.

(** The body of [groups.forEach((g, i) => ...)]: a group below [minTiles]
    hands out the tiles it has when it is reached ([forEach] does not visit
    the tiles pushed meanwhile) and is then replaced by [[]]. *)
Definition mergeSmall (minTiles : nat) (groups : option (list (list (@Tile num))))
    (i : nat) : option (list (list (@Tile num))) :=
  match groups with
  | None => None
  | Some gs =>
    let g := groupAt gs i in
    if decide (length g < minTiles) then
      match foldl (mergeTile minTiles) (Some gs) g with
      | None => None
      | Some gs' => Some (<[i := []]> gs')
      end
    else Some gs
  end.

(** [while (groups.length < numGroups)]: each iteration pushes one group, so
    [n] counts the iterations left, [numGroups - groups.length]. *)
Fixpoint splitLoop (n : nat) (groups : list (list (@Tile num)))
    : option (list (list (@Tile num))) :=
  match n with
  | 0 => Some groups
  | S n' =>
    match largestIdx groups with
    | None => None
    | Some i =>
      let largest := groupAt groups i in
      let half := length largest / 2 in
      splitLoop n' (<[i := drop half largest]> groups ++ [take half largest])
    end
  end.

Definition forceAssign (polygons : list (@Tile num)) (numGroups minTiles : nat) (s : nat)
    : option (list (list (@Tile num)) * nat) :=
  let centers := generateCentersInPolygons numGroups polygons s in
  groups0 ← assignPolygonsToCenters polygons centers.1 1;
  let groups1 := filter (fun g => 0 < length g) groups0 in
  groups2 ← foldl (mergeSmall minTiles) (Some groups1) (seq 0 (length groups1));
  let groups3 := filter (fun g => 0 < length g) groups2 in
  out ← splitLoop (numGroups - length groups3) groups3;
  Some (out, centers.2).

End EarlierRevision.

(* ================================================================== *)
(** * [assignCountriesWithinRegion] and the loop over the regions *)
(* ================================================================== *)

Section Countries.

Context {num : Type} `{!JSNumber num} `{!Externals num}.

(** [assignCountriesWithinRegion(regionTiles, countriesPerRegion,
    minTilesCountry)], with the draw reached by the random source. *)
Definition assignCountriesWithinRegion (regionTiles : list (@Tile num))
    (countriesPerRegion minTilesCountry : nat) (s : nat)
    : option (list (list (@Tile num)) * nat) :=
  g ← growConnectedGroups regionTiles countriesPerRegion minTilesCountry s;
  balanced ← rebalanceBoundaries (groups g.1) (pool g.1) (idxAdj g.1)
                                 minTilesCountry countriesPerRegion;
  Some (balanced, g.2).

(** The countries that [createMap] assigns in [regions.forEach(...)], region
    by region (the drawing left aside). *)
Definition regionCountries (countriesPerRegion minTilesCountry : nat)
    (st : option (list (list (list (@Tile num))) * nat)) (regionPolys : list (@Tile num))
    : option (list (list (list (@Tile num))) * nat) :=
  match st with
  | None => None
  | Some (done, s) =>
    match assignCountriesWithinRegion regionPolys countriesPerRegion minTilesCountry s with
    | None => None
    | Some (countries, s') => Some (done ++ [countries], s')
    end
  end.

(** The regions and the countries of each region computed by [createMap]
    for a mainland that is not empty. *)
Definition createMapCountries (mainland : list (@Tile num))
    (regionNum countriesPerRegion minTilesRegion minTilesCountry : nat) (s : nat)
    : option (list (list (@Tile num)) * list (list (list (@Tile num))) * nat) :=
  g ← growConnectedGroups mainland regionNum minTilesRegion s;
  regions ← rebalanceBoundaries (groups g.1) (pool g.1) (idxAdj g.1)
                                minTilesRegion regionNum;
  r ← foldl (regionCountries countriesPerRegion minTilesCountry) (Some ([], g.2)) regions;
  Some (regions, r.1, r.2).

End Countries.

(* ================================================================== *)
(** * The arithmetic of the legacy and clipping helpers *)
(* ================================================================== *)

(** What these helpers use of the numbers besides [JSNumber]. *)
Class JSMath (num : Type) := {
  (** [a / b] *)
  ndiv : num -> num -> num;
  (** [a <= b], which is [b >= a] *)
  nle : num -> num -> bool;
  (** [a === b] on numbers *)
  nstrictEq : num -> num -> bool;
  (** [Math.cos], [Math.sin] and [Math.PI] *)
  Math_cos : num -> num;
  Math_sin : num -> num;
  Math_PI : num
}.

(* ================================================================== *)
(** * The legacy helper [randomCenter] *)
(* ================================================================== *)

Module Legacy.

Section RandomCenter.

Context {num : Type} `{!JSNumber num} `{!JSMath num}.

(** [this.mapCenter], [this.height] and [this.width] *)
Variable mapCenter : num * num.
Variable height width : num.

(** [countCoordinate(t)] for the half axes [a] and [b] *)
Definition countCoordinate (a b t : num) : num * num :=
  (nadd (fst mapCenter) (nmul a (Math_cos t)), nadd (snd mapCenter) (nmul b (Math_sin t))).

(** The variable [angle] holds whole numbers of degrees: [initCenter] is a
    whole number drawn by [_.random(0, 360)], [centerDist] is a rounded
    number, and sums and differences of whole numbers of this size are exact
    in doubles.  It is modelled as an integer; [(angle * Math.PI) / 180] is
    computed in the numbers. *)
Definition toRadians (angle : Z) : num := ndiv (nmul (nofZ angle) Math_PI) (nofZ 180).

(** [Math.round(360 / n)] for a count [n >= 1]: the integer nearest to
    [360 / n], a half rounding up.  The quotient of the doubles is the exact
    quotient rounded, which lies on the same side of every half integer as
    the exact quotient, so [Math.round] of either is the same integer. *)
Definition centerDistOf (n : nat) : Z := (2 * 360 + Z.of_nat n) / (2 * Z.of_nat n).

(** [_.map(_.range(num), (i) => { ... })], the state being the variable
    [angle]. *)
Fixpoint centersFrom (a b : num) (centerDist : Z) (n : nat) (angle : Z) : list (num * num) :=
  match n with
  | O => []
  | S n' =>
    let coordinate := countCoordinate a b (toRadians angle) in
    let angle1 := (angle + centerDist)%Z in
    let angle2 := if decide (360 < angle1)%Z then (angle1 - 360)%Z else angle1 in
    coordinate :: centersFrom a b centerDist n' angle2
  end.

(** [randomCenter(num, a)] for the count [n]; [initCenter] is the value of
    [_.random(0, 360)]. *)
Definition randomCenter (initCenter : Z) (n : nat) (a : num) : list (num * num) :=
  let b := ndiv (nmul a height) width in
  let centerDist := centerDistOf n in
  centersFrom a b centerDist n initCenter.

End RandomCenter.

(** A number of degrees brought into the range from 1 to 360 by whole
    turns; 0 stays 0. *)
Definition wrapped (total : Z) : Z :=
  if decide (total = 0)%Z then 0%Z else ((total - 1) mod 360 + 1)%Z.

End Legacy.

(* ================================================================== *)
(** * The polygon clipping helpers of the clipping revision *)
(* ================================================================== *)

Module Clip.

Section Clipping.

Context {num : Type} `{!JSNumber num} `{!JSMath num}.

(** Points are arrays [[x, y]]; a polygon is a list of points, [null] and
    [undefined] are [None]. *)
Definition Pt : Type := num * num.

(** The value [cross] of [insideHalfPlane]. *)
Definition crossOf (pt edgeStart edgeEnd : Pt) : num :=
  nsub (nmul (nsub (fst edgeEnd) (fst edgeStart)) (nsub (snd pt) (snd edgeStart)))
       (nmul (nsub (snd edgeEnd) (snd edgeStart)) (nsub (fst pt) (fst edgeStart))).

(** [insideHalfPlane(pt, edgeStart, edgeEnd, useLeftSide)] *)
Definition insideHalfPlane (pt edgeStart edgeEnd : Pt) (useLeftSide : bool) : bool :=
  let cross := crossOf pt edgeStart edgeEnd in
  if useLeftSide then nle (nofZ 0) cross else nle cross (nofZ 0).

(** [segmentIntersection(p1, p2, edgeStart, edgeEnd)] *)
Definition segmentIntersection (p1 p2 edgeStart edgeEnd : Pt) : option Pt :=
  let x1 := fst p1 in let y1 := snd p1 in
  let x2 := fst p2 in let y2 := snd p2 in
  let x3 := fst edgeStart in let y3 := snd edgeStart in
  let x4 := fst edgeEnd in let y4 := snd edgeEnd in
  let denom := nsub (nmul (nsub x1 x2) (nsub y3 y4)) (nmul (nsub y1 y2) (nsub x3 x4)) in
  if nstrictEq denom (nofZ 0) then None
  else
    let px := ndiv (nsub (nmul (nsub (nmul x1 y2) (nmul y1 x2)) (nsub x3 x4))
                         (nmul (nsub x1 x2) (nsub (nmul x3 y4) (nmul y3 x4)))) denom in
    let py := ndiv (nsub (nmul (nsub (nmul x1 y2) (nmul y1 x2)) (nsub y3 y4))
                         (nmul (nsub y1 y2) (nsub (nmul x3 y4) (nmul y3 x4)))) denom in
    Some (px, py).

(** [polygonSignedArea(poly)] *)
Definition polygonSignedArea (poly : list Pt) : num :=
  ndiv (foldl (fun a (e : Pt * Pt) =>
                 nadd a (nsub (nmul (fst e.1) (snd e.2)) (nmul (fst e.2) (snd e.1))))
              (nofZ 0) (polyEdges poly))
       (nofZ 2).

(** The pairs [(prev, current)] of
    [for (j = 0; j < inputList.length; j++) { current = inputList[j];
       prev = inputList[(j - 1 + inputList.length) % inputList.length]; }]. *)
Definition prevPairs (inputList : list Pt) : list (Pt * Pt) :=
  omap (fun j => match inputList !! ((j + length inputList - 1) mod length inputList),
                       inputList !! j with
                 | Some prev, Some current => Some (prev, current)
                 | _, _ => None
                 end) (seq 0 (length inputList)).

(** What one pair pushes on [outputList]. *)
Definition clipPair (useLeftSide : bool) (edgeStart edgeEnd : Pt) (pc : Pt * Pt) : list Pt :=
  let prev := pc.1 in
  let current := pc.2 in
  let currInside := insideHalfPlane current edgeStart edgeEnd useLeftSide in
  let prevInside := insideHalfPlane prev edgeStart edgeEnd useLeftSide in
  if prevInside && currInside then [current]
  else if prevInside && negb currInside then
    match segmentIntersection prev current edgeStart edgeEnd with
    | Some inter => [inter]
    | None => []
    end
  else if negb prevInside && currInside then
    match segmentIntersection prev current edgeStart edgeEnd with
    | Some inter => [inter; current]
    | None => [current]
    end
  else [].

(** One iteration of the loop over the edges of [clipPoly]; on an empty
    [inputList] the loop breaks with the empty [outputList], which is what
    every further iteration would leave. *)
Definition clipEdge (useLeftSide : bool) (outputList : list Pt) (edge : Pt * Pt) : list Pt :=
  prevPairs outputList ≫= clipPair useLeftSide edge.1 edge.2.

(** [clipPolygonWithConvex(subjectPoly, clipPoly)] *)
Definition clipPolygonWithConvex (subjectPoly clipPoly : option (list Pt))
    : option (list Pt) :=
  match subjectPoly, clipPoly with
  | Some subject, Some clip =>
    if decide (length subject < 3) then None
    else if decide (length clip < 3) then None
    else
      let area := polygonSignedArea clip in
      let useLeftSide := nlt (nofZ 0) area in
      let outputList := foldl (clipEdge useLeftSide) subject (polyEdges clip) in
      if decide (3 <= length outputList) then Some outputList else None
  | _, _ => None
  end.


End Clipping.

End Clip.

(* ================================================================== *)
(** * The legacy and clipping helpers on the grid *)
(* ================================================================== *)

Module GridMath.

(** Whole-number division, and stand-ins for the transcendental
    functions. *)
#[global] Instance znum_math : JSMath Grid.znum := {|
  ndiv := Grid.zlift Z.div;
  nle := fun a b => negb (Grid.zlt b a);
  nstrictEq := fun a b => bool_decide (a = b);
  Math_cos := fun _ => Grid.ZFin 1;
  Math_sin := fun _ => Grid.ZFin 0;
  Math_PI := Grid.ZFin 3
|}.

(** The point [(x, y)] of the grid. *)
Definition pt (x y : Z) : Grid.znum * Grid.znum := (Grid.ZFin x, Grid.ZFin y).

End GridMath.

(* ================================================================== *)
(** * Properties of the island test *)
(* ================================================================== *)

Module IslandFacts.
Import Island.
Local Open Scope R_scope.

Lemma Rltb_true a b : Rltb a b = true <-> a < b.
Proof. unfold Rltb. destruct (Rlt_dec a b); split; auto; discriminate. Qed.

Lemma Rltb_false a b : Rltb a b = false <-> b <= a.
Proof. unfold Rltb. destruct (Rlt_dec a b); split; try discriminate; auto; lra. Qed.

Section Facts.

Context {Polygon : Type}.
Variable polygonCentroid : Polygon -> R * R.
Variable pixelScale : R.

Lemma length_nonneg c o : 0 <= length_ c o.
Proof.
  unfold length_, distToCenter.
  pose proof (Rabs_pos (fst c - cpx o)).
  pose proof (Rmax_l (Rabs (fst c - cpx o)) (Rabs (snd c - cpy o))).
  pose proof (sqrt_pos ((fst c - cpx o) ^ 2 + (snd c - cpy o) ^ 2)). lra.
Qed.

Lemma length_ge_half_dist c o : 0.5 * distToCenter c o <= length_ c o.
Proof.
  unfold length_.
  pose proof (Rabs_pos (fst c - cpx o)).
  pose proof (Rmax_l (Rabs (fst c - cpx o)) (Rabs (snd c - cpy o))). lra.
Qed.

Lemma r1_bounds c o startAngle bumps scale :
  0 <= pixelScale * scale ->
  0.1 * (pixelScale * scale) <= r1 pixelScale c o startAngle bumps scale
    <= 0.9 * (pixelScale * scale).
Proof.
  intros Hps. unfold r1.
  set (s := sin _). pose proof (SIN_bound (startAngle + bumps * angle c o
    + cos ((bumps + 3) * angle c o))) as Hs. fold s in Hs.
  rewrite Rmult_assoc. split; nra.
Qed.

Lemma r2_bounds c o startAngle bumps scale :
  0 <= pixelScale * scale ->
  0.5 * (pixelScale * scale) <= r2 pixelScale c o startAngle bumps scale
    <= 0.9 * (pixelScale * scale).
Proof.
  intros Hps. unfold r2.
  set (s := sin _). pose proof (SIN_bound (startAngle + bumps * angle c o
    - sin ((bumps + 2) * angle c o))) as Hs. fold s in Hs.
  rewrite Rmult_assoc. split; nra.
Qed.

Lemma length_at_origin o : length_ (cpx o, cpy o) o = 0.
Proof.
  unfold length_, distToCenter. cbn [fst snd].
  replace ((cpx o - cpx o) ^ 2 + (cpy o - cpy o) ^ 2) with 0 by ring.
  replace (cpx o - cpx o) with 0 by lra. replace (cpy o - cpy o) with 0 by lra.
  rewrite Rabs_R0, Rmax_left, sqrt_0 by lra. lra.
Qed.

(** With [ISLAND_FACTOR = 1] the two-disjunct formula is the test
    [length < max(r1, r2)] away from [length = r1]. *)
Lemma IsTargetPokygon_cases polygon o startAngle bumps scale :
  let c := polygonCentroid polygon in
  length_ c o <> r1 pixelScale c o startAngle bumps scale ->
  IsTargetPokygon polygonCentroid pixelScale polygon o startAngle bumps scale = true
  <-> (length_ c o < r1 pixelScale c o startAngle bumps scale
       \/ length_ c o < r2 pixelScale c o startAngle bumps scale).
Proof.
  intros c Hne. unfold IsTargetPokygon, ISLAND_FACTOR. fold c.
  rewrite orb_true_iff, andb_true_iff, !Rltb_true. rewrite Rmult_1_r.
  split; [tauto|]. intros [H|H]; [by left|].
  destruct (Rlt_dec (length_ c o) (r1 pixelScale c o startAngle bumps scale)); [by left|].
  right. split; [lra|done].
Qed.

(** C5 (amended). For every input whose [length] differs from [r1], the
    two-disjunct result agrees with the single test [length < r2] exactly
    when [length] does not lie in the interval [[r2, r1)]; in particular
    the two agree whenever [r1 <= r2]. *)
Theorem IsTargetPokygon_single_test polygon o startAngle bumps scale :
  let c := polygonCentroid polygon in
  let len := length_ c o in
  let a := r1 pixelScale c o startAngle bumps scale in
  let b := r2 pixelScale c o startAngle bumps scale in
  len <> a ->
  (IsTargetPokygon polygonCentroid pixelScale polygon o startAngle bumps scale
   = singleTest polygonCentroid pixelScale polygon o startAngle bumps scale
   <-> ~ (b <= len /\ len < a))
  /\ (a <= b ->
      IsTargetPokygon polygonCentroid pixelScale polygon o startAngle bumps scale
      = singleTest polygonCentroid pixelScale polygon o startAngle bumps scale).
Proof.
  intros c len a b Hne.
  pose proof (IsTargetPokygon_cases polygon o startAngle bumps scale Hne) as Hc.
  fold c len a b in Hc.
  assert (Hs : singleTest polygonCentroid pixelScale polygon o startAngle bumps scale = true
               <-> len < b).
  { unfold singleTest. fold c len b. apply Rltb_true. }
  assert (Hmain : IsTargetPokygon polygonCentroid pixelScale polygon o startAngle bumps scale
    = singleTest polygonCentroid pixelScale polygon o startAngle bumps scale
    <-> ~ (b <= len /\ len < a)).
  { destruct (IsTargetPokygon polygonCentroid pixelScale polygon o startAngle bumps scale);
    destruct (singleTest polygonCentroid pixelScale polygon o startAngle bumps scale).
    - split; [|done]. intros _ [H1 H2]. assert (len < b) by (by apply Hs). lra.
    - split; [done|]. intros Hn. exfalso.
      assert (len < a \/ len < b) as [H|H] by (by apply Hc).
      + apply Hn. split; [|done]. destruct (Rle_dec b len); [done|].
        assert (len < b) as ?%Hs by lra. done.
      + apply Hs in H. done.
    - split; [done|]. intros _. exfalso.
      assert (len < b) as H by (by apply Hs).
      assert (false = true) by (apply Hc; by right). done.
    - split; [|done]. intros _ [H1 H2].
      assert (false = true) by (apply Hc; by left). done. }
  split; [done|]. intros Hab. apply Hmain. lra.
Qed.

(** C6. With [bumps = 3], [startAngle = 0], [scale = 1] and a positive
    [pixelScale], a tile whose centroid is the origin point is land, and a
    tile whose centroid lies at a distance of at least twice [pixelScale]
    from the origin point is water. *)
Theorem IsTargetPokygon_origin_and_far polygon o :
  0 < pixelScale ->
  (polygonCentroid polygon = (cpx o, cpy o) ->
   IsTargetPokygon polygonCentroid pixelScale polygon o 0 3 1 = true)
  /\ (2 * pixelScale <= distToCenter (polygonCentroid polygon) o ->
      IsTargetPokygon polygonCentroid pixelScale polygon o 0 3 1 = false).
Proof.
  intros Hps. split.
  - intros Hc. unfold IsTargetPokygon. rewrite Hc, length_at_origin.
    apply orb_true_iff. left. apply Rltb_true.
    pose proof (r1_bounds (cpx o, cpy o) o 0 3 1 ltac:(lra)). lra.
  - intros Hfar. unfold IsTargetPokygon.
    set (c := polygonCentroid polygon) in *.
    pose proof (r1_bounds c o 0 3 1 ltac:(lra)).
    pose proof (r2_bounds c o 0 3 1 ltac:(lra)).
    pose proof (length_ge_half_dist c o).
    apply orb_false_iff. split; [apply Rltb_false; lra|].
    apply andb_false_iff. right. apply Rltb_false. lra.
Qed.

End Facts.

Lemma sin_1_lower : 2 / 3 < sin 1.
Proof.
  pose proof PI2_1. pose proof PI_RGT_0. pose proof PI_4.
  assert (Hs : sin (PI / 4) <= sin 1) by (apply sin_incr_1; lra).
  rewrite sin_PI4 in Hs.
  assert (Hsq : sqrt 2 < 3 / 2).
  { replace (3 / 2) with (sqrt ((3 / 2) * (3 / 2))) by (apply sqrt_square; lra).
    apply sqrt_lt_1; lra. }
  assert (0 < sqrt 2) by (apply sqrt_lt_R0; lra).
  assert (2 / 3 < 1 / sqrt 2); [|lra].
  apply (Rmult_lt_reg_r (sqrt 2)); [done|]. field_simplify; lra.
Qed.

Lemma cx_angle : angle (cxCentroid tt) cxCenter = 0.
Proof.
  unfold angle, atan2, cxCentroid, cxCenter. cbn [fst snd cpx cpy].
  destruct (Rlt_dec 0 (400 - 300)); [|lra].
  replace ((400 - 400) / (400 - 300)) with 0 by lra. apply atan_0.
Qed.

Lemma cx_length : length_ (cxCentroid tt) cxCenter = 100.
Proof.
  unfold length_, distToCenter, cxCentroid, cxCenter. cbn [fst snd cpx cpy].
  replace (400 - 400) with 0 by lra. replace (400 - 300) with 100 by lra.
  replace (0 ^ 2 + 100 ^ 2) with (100 * 100) by ring.
  rewrite sqrt_square, Rabs_R0, (Rabs_right 100), Rmax_right by lra. lra.
Qed.

Lemma cx_r1 : r1 140 (cxCentroid tt) cxCenter 0 3 1 = 70 + 56 * sin 1.
Proof.
  unfold r1. rewrite cx_angle.
  replace ((3 + 3) * 0) with 0 by lra. rewrite cos_0.
  replace (0 + 3 * 0 + 1) with 1 by lra. lra.
Qed.

Lemma cx_r2 : r2 140 (cxCentroid tt) cxCenter 0 3 1 = 98.
Proof.
  unfold r2. rewrite cx_angle.
  replace ((3 + 2) * 0) with 0 by lra. rewrite sin_0.
  replace (0 + 3 * 0 - 0) with 0 by lra. rewrite sin_0. lra.
Qed.

(** C5, as stated, fails: with [bumps = 3], [startAngle = 0], [scale = 1]
    the centroid [(400, 400)] has [length = 100], which differs from
    [r1 = 70 + 56 sin 1] and lies in [[r2, r1)] with [r2 = 98]; the
    two-disjunct formula answers land, the single test answers water. *)
Lemma IsTargetPokygon_single_test_counterexample :
  length_ (cxCentroid tt) cxCenter <> r1 140 (cxCentroid tt) cxCenter 0 3 1
  /\ IsTargetPokygon cxCentroid 140 tt cxCenter 0 3 1 = true
  /\ singleTest cxCentroid 140 tt cxCenter 0 3 1 = false.
Proof.
  pose proof sin_1_lower as Hsin.
  unfold IsTargetPokygon, singleTest.
  rewrite cx_length, cx_r1, cx_r2.
  assert (H1 : Rltb 100 (70 + 56 * sin 1) = true) by (apply Rltb_true; lra).
  assert (H2 : Rltb 100 98 = false) by (apply Rltb_false; lra).
  rewrite H1, H2. split; [lra|]. split; reflexivity.
Qed.

Lemma IsTargetPokygon_single_test_witness :
  length_ (cxCentroid tt) cxCenter <> r1 140 (cxCentroid tt) cxCenter 0 3 1
  /\ (IsTargetPokygon cxCentroid 140 tt cxCenter 0 3 1
      = singleTest cxCentroid 140 tt cxCenter 0 3 1
      <-> ~ (r2 140 (cxCentroid tt) cxCenter 0 3 1 <= length_ (cxCentroid tt) cxCenter
             /\ length_ (cxCentroid tt) cxCenter < r1 140 (cxCentroid tt) cxCenter 0 3 1)).
Proof.
  assert (Hne : length_ (cxCentroid tt) cxCenter <> r1 140 (cxCentroid tt) cxCenter 0 3 1).
  { rewrite cx_length, cx_r1. pose proof sin_1_lower. lra. }
  split; [exact Hne|].
  exact (proj1 (IsTargetPokygon_single_test cxCentroid 140 tt cxCenter 0 3 1 Hne)).
Defined.

Lemma IsTargetPokygon_origin_and_far_witness :
  0 < 140
  /\ IsTargetPokygon (fun _ : unit => (400, 300)) 140 tt cxCenter 0 3 1 = true
  /\ IsTargetPokygon (fun _ : unit => (400, 1000)) 140 tt cxCenter 0 3 1 = false.
Proof.
  assert (Hps : 0 < 140) by lra.
  split; [exact Hps|]. split.
  - exact (proj1 (IsTargetPokygon_origin_and_far (fun _ : unit => (400, 300)) 140 tt
                    cxCenter Hps) eq_refl).
  - refine (proj2 (IsTargetPokygon_origin_and_far (fun _ : unit => (400, 1000)) 140 tt
                     cxCenter Hps) _).
    unfold distToCenter, cxCenter. cbn [fst snd cpx cpy].
    replace ((400 - 400) ^ 2 + (1000 - 300) ^ 2) with (700 * 700) by ring.
    rewrite sqrt_square; lra.
Defined.

End IslandFacts.

(* ================================================================== *)
(** * Properties of the partitioning engine *)
(* ================================================================== *)

Section BFSFacts.

Lemma elem_of_sadd (x y : nat) (s : list nat) : x ∈ sadd y s <-> x = y \/ x ∈ s.
Proof.
  unfold sadd. case_decide.
  - split; [auto | intros [-> | ?]; auto].
  - rewrite elem_of_app, list_elem_of_singleton. tauto.
Qed.

Lemma elem_of_concat {A} (x : A) (ls : list (list A)) :
  x ∈ concat ls <-> exists l, x ∈ l /\ l ∈ ls.
Proof.
  induction ls as [|l ls IH]; simpl.
  - split; [by intros ?%elem_of_nil|]. by intros (l & _ & ?%elem_of_nil).
  - rewrite elem_of_app, IH. split.
    + intros [H | (l' & H1 & H2)]; [exists l; split; [done|by left]|].
      exists l'. split; [done|by right].
    + intros (l' & H1 & [->|H2]%elem_of_cons); [by left|]. right. by exists l'.
Qed.

Lemma groupAt_lookup {A} (gs : list (list A)) i l : gs !! i = Some l -> groupAt gs i = l.
Proof. unfold groupAt. intros ->. done. Qed.

Lemma groupAt_alter (f : list nat -> list nat) adj i u :
  i < length adj ->
  groupAt (alter f i adj) u = if decide (i = u) then f (groupAt adj u) else groupAt adj u.
Proof.
  intros Hi. unfold groupAt. rewrite list_lookup_alter.
  case_decide; subst; [|done].
  destruct (lookup_lt_is_Some_2 adj u Hi) as [l ->]. done.
Qed.

Lemma adjacent_linkAdj adj i j u v :
  i < length adj -> j < length adj ->
  adjacent (linkAdj adj i j) u v <->
  adjacent adj u v \/ (u = i /\ v = j) \/ (u = j /\ v = i).
Proof.
  intros Hi Hj. unfold adjacent, linkAdj.
  rewrite groupAt_alter by (rewrite length_alter; done).
  rewrite groupAt_alter by done.
  repeat case_decide; subst; rewrite ?elem_of_sadd; naive_solver.
Qed.

Lemma linkAdj_length adj i j : length (linkAdj adj i j) = length adj.
Proof. unfold linkAdj. by rewrite !length_alter. Qed.

Lemma adjBounded_link n adj i j :
  i < n -> j < n -> adjBounded n adj -> adjBounded n (linkAdj adj i j).
Proof.
  intros Hi Hj [Hlen Hb]. split; [by rewrite linkAdj_length|].
  intros u v. rewrite adjacent_linkAdj by lia.
  intros [H | [[-> ->] | [-> ->]]]; auto.
Qed.

Lemma adjSymmetric_link adj i j :
  i < length adj -> j < length adj -> adjSymmetric adj -> adjSymmetric (linkAdj adj i j).
Proof.
  intros Hi Hj Hs u v. rewrite !adjacent_linkAdj by done.
  intros [H | [[-> ->] | [-> ->]]]; auto.
Qed.

Lemma adjBounded_empty n : adjBounded n (replicate n []).
Proof.
  split; [apply length_replicate|].
  intros u v. unfold adjacent, groupAt.
  destruct (replicate n [] !! u) as [l|] eqn:E; simpl.
  - apply lookup_replicate in E as [-> _]. by intros ?%elem_of_nil.
  - by intros ?%elem_of_nil.
Qed.

Lemma adjSymmetric_empty n : adjSymmetric (replicate n []).
Proof.
  intros u v. unfold adjacent, groupAt.
  destruct (replicate n [] !! u) as [l|] eqn:E; simpl.
  - apply lookup_replicate in E as [-> _]. by intros ?%elem_of_nil.
  - by intros ?%elem_of_nil.
Qed.

(** ** Counting the unvisited tiles *)

Lemma countFalse_mark vis v :
  vis !! v = Some false -> S (countFalse (<[v := true]> vis)) = countFalse vis.
Proof.
  unfold countFalse. revert v. induction vis as [|b vis IH]; intros [|v] H; simplify_eq/=.
  - rewrite !filter_cons. repeat case_decide; simplify_eq/=; done.
  - specialize (IH v H). rewrite !filter_cons. repeat case_decide; simplify_eq/=; lia.
Qed.

Lemma countFalse_le vis : countFalse vis <= length vis.
Proof. unfold countFalse. apply length_filter. Qed.

Lemma countFalse_replicate n : countFalse (replicate n false) = n.
Proof.
  unfold countFalse. induction n as [|n IH]; [done|].
  change (replicate (S n) false) with (false :: replicate n false).
  rewrite filter_cons. case_decide; simpl; [by f_equal|done].
Qed.

(** ** The neighbour loop *)

Lemma visitNeighbours_spec ns : forall vis q,
  exists new,
    foldl visitNeighbour (vis, q) ns = ((foldl visitNeighbour (vis, q) ns).1, q ++ new)
    /\ length (foldl visitNeighbour (vis, q) ns).1 = length vis
    /\ NoDup new
    /\ (forall v, v ∈ new -> vis !! v = Some false /\ v ∈ ns)
    /\ (forall v, (foldl visitNeighbour (vis, q) ns).1 !! v = Some true <->
                  vis !! v = Some true \/ v ∈ new)
    /\ (forall v, v ∈ ns -> v < length vis ->
                  (foldl visitNeighbour (vis, q) ns).1 !! v = Some true)
    /\ countFalse (foldl visitNeighbour (vis, q) ns).1 + length new = countFalse vis.
Proof.
  induction ns as [|w ns IH]; intros vis q; simpl.
  - exists []. rewrite app_nil_r. split_and!; try done.
    all: try (by intros ? ?%elem_of_nil).
    all: try (simpl; lia).
    all: try apply NoDup_nil_2.
    intros v. split; [by left|]. by intros [?|?%elem_of_nil].
  - unfold visitNeighbour at 2 4 6 8 10 12. simpl.
    destruct (vis !! w) as [[|]|] eqn:Ew.
    + destruct (IH vis q) as (new & E & Hlen & Hnd & Hnew & Htrue & Hall & Hcnt).
      exists new. split_and!; try done.
      * intros v Hv. destruct (Hnew v Hv). split; [done|]. by right.
      * intros v [->|Hv]%elem_of_cons ?; [|by apply Hall].
        apply Htrue. by left.
    + destruct (IH (<[w := true]> vis) (q ++ [w])) as (new & E & Hlen & Hnd & Hnew & Htrue & Hall & Hcnt).
      rewrite length_insert in Hlen.
      assert (Hw : w < length vis) by (by eapply lookup_lt_Some).
      assert (Hwn : w ∉ new).
      { intros Hin. destruct (Hnew w Hin) as [Hf _].
        rewrite list_lookup_insert_eq in Hf by done. done. }
      exists (w :: new). split_and!.
      * rewrite E at 1. by rewrite <- app_assoc.
      * done.
      * by apply NoDup_cons.
      * intros v [->|Hv]%elem_of_cons; [split; [done|by left]|].
        destruct (Hnew v Hv) as [Hf Hin]. split; [|by right].
        destruct (decide (v = w)) as [->|Hne]; [done|].
        by rewrite list_lookup_insert_ne in Hf.
      * intros v. split.
        -- intros Hv. apply Htrue in Hv as [Hv|Hv]; [|right; by right].
           destruct (decide (v = w)) as [->|Hne]; [right; by left|].
           rewrite list_lookup_insert_ne in Hv by done. by left.
        -- intros [Hv|[->|Hv]%elem_of_cons]; apply Htrue.
           ++ left. destruct (decide (v = w)) as [->|Hne]; [congruence|].
              by rewrite list_lookup_insert_ne.
           ++ left. by rewrite list_lookup_insert_eq.
           ++ by right.
      * intros v [->|Hv]%elem_of_cons Hlt.
        -- apply Htrue. left. by rewrite list_lookup_insert_eq.
        -- apply Hall; [done|]. by rewrite length_insert.
      * simpl. rewrite <- (countFalse_mark vis w Ew). lia.
    + destruct (IH vis q) as (new & E & Hlen & Hnd & Hnew & Htrue & Hall & Hcnt).
      exists new. split_and!; try done.
      * intros v Hv. destruct (Hnew v Hv). split; [done|]. by right.
      * intros v [->|Hv]%elem_of_cons ?; [|by apply Hall].
        apply lookup_ge_None in Ew. lia.
Qed.

End BFSFacts.

Section BFSMain.

Lemma bfs_fuel_enough adj extra : forall fuel visited queue comp,
  length queue + countFalse visited <= fuel ->
  bfs adj (fuel + extra) visited queue comp = bfs adj fuel visited queue comp.
Proof.
  induction fuel as [|fuel IH]; intros visited queue comp Hm.
  - destruct queue; [|simpl in Hm; lia]. by destruct extra.
  - simpl. destruct queue as [|u rest]; [done|].
    destruct (visitNeighbours_spec (groupAt adj u) visited rest)
      as (new & E & _ & _ & _ & _ & _ & Hcnt).
    apply IH. rewrite E. simpl in *. rewrite length_app. lia.
Qed.

Lemma bfs_prefix adj : forall fuel visited queue comp,
  exists rest, (bfs adj fuel visited queue comp).2 = comp ++ rest.
Proof.
  induction fuel as [|fuel IH]; intros visited queue comp; simpl.
  - exists []. by rewrite app_nil_r.
  - destruct queue as [|u rest].
    + exists []. by rewrite app_nil_r.
    + destruct (IH (foldl visitNeighbour (visited, rest) (groupAt adj u)).1
                   (foldl visitNeighbour (visited, rest) (groupAt adj u)).2
                   (comp ++ [u])) as [r ->].
      exists (u :: r). by rewrite <- app_assoc.
Qed.

Lemma bfs_spec adj n old s : adjBounded n adj ->
  forall fuel visited queue comp,
  bfsInv adj n old s visited queue comp ->
  length queue + countFalse visited <= fuel ->
  bfsInv adj n old s (bfs adj fuel visited queue comp).1 []
         (bfs adj fuel visited queue comp).2.
Proof.
  intros [Hadj Hb]. induction fuel as [|fuel IH]; intros visited queue comp Hinv Hm.
  - destruct queue; [|simpl in Hm; lia]. done.
  - simpl. destruct queue as [|u rest]; [done|].
    destruct (visitNeighbours_spec (groupAt adj u) visited rest)
      as (new & E & Hlen & Hnd & Hnew & Htrue & Hall & Hcnt).
    destruct Hinv as (Hl & Hlo & Hnd0 & Hc & Hd & He & Hf).
    apply IH; [|rewrite E; simpl in *; rewrite length_app; lia].
    rewrite E. simpl.
    assert (Hdisj : forall v, v ∈ new -> v ∉ comp ++ u :: rest).
    { intros v Hv Hin. destruct (Hnew v Hv) as [Hfalse _].
      assert (visited !! v = Some true) by (apply Hc; by right). congruence. }
    unfold bfsInv.
    replace ((comp ++ [u]) ++ rest ++ new) with ((comp ++ u :: rest) ++ new)
      by (by rewrite <- !app_assoc).
    split_and!.
    + congruence.
    + done.
    + apply NoDup_app. split_and!; [done|intros v ? ?; by eapply Hdisj|done].
    + intros v. rewrite Htrue, Hc. rewrite (elem_of_app _ new). tauto.
    + intros v. rewrite elem_of_app. intros [Hv | Hv]; [by apply Hd|].
      destruct (Hnew v Hv) as [Hfalse _].
      assert (Hlt : v < length old) by (apply lookup_lt_Some in Hfalse; lia).
      destruct (lookup_lt_is_Some_2 old v Hlt) as [[|] Hb'].
      * assert (visited !! v = Some true) by (apply Hc; by left). congruence.
      * done.
    + intros u' v [Hu | ->%list_elem_of_singleton]%elem_of_app Hv.
      * apply Htrue. left. by eapply He.
      * apply Hall; [done|]. destruct (Hb _ _ Hv). lia.
    + intros v. rewrite elem_of_app. intros [Hv | Hv]; [by apply Hf|].
      destruct (Hnew v Hv) as [_ Hin].
      eapply rtc_r; [apply Hf; rewrite elem_of_app, elem_of_cons; auto|done].
Qed.

(** The traversal started by the outer loop at an unvisited tile [i]. *)
Lemma componentFrom_spec adj n visited i vis' comp :
  adjBounded n adj -> length visited = n ->
  componentFrom adj n visited i = Some (vis', comp) ->
  visited !! i = Some false
  /\ bfsInv adj n visited i vis' [] comp
  /\ (exists rest, comp = i :: rest).
Proof.
  intros Hadj Hlen. unfold componentFrom.
  destruct (visited !! i) as [[|]|] eqn:Ei; try done.
  intros [= E]. split; [done|].
  assert (E1 : vis' = (bfs adj n (<[i:=true]> visited) [i] []).1) by (by rewrite E).
  assert (E2 : comp = (bfs adj n (<[i:=true]> visited) [i] []).2) by (by rewrite E).
  clear E. subst vis' comp.
  assert (Hi : i < length visited) by (by eapply lookup_lt_Some).
  split.
  - apply bfs_spec; [done| |].
    + split_and!.
      * by rewrite length_insert.
      * done.
      * simpl. apply NoDup_singleton.
      * intros v. simpl. rewrite list_elem_of_singleton.
        destruct (decide (v = i)) as [->|Hne].
        -- rewrite list_lookup_insert_eq by done. naive_solver.
        -- rewrite list_lookup_insert_ne by done. naive_solver.
      * intros v. simpl. by intros ->%list_elem_of_singleton.
      * by intros u v ?%elem_of_nil.
      * intros v. simpl. intros ->%list_elem_of_singleton. apply rtc_refl.
    + simpl. pose proof (countFalse_mark visited i Ei).
      pose proof (countFalse_le visited). lia.
  - destruct n as [|n]; [lia|]. cbn [bfs].
    match goal with |- context [bfs adj n ?a ?b ?c] =>
      destruct (bfs_prefix adj n a b c) as [r ->] end.
    by exists r.
Qed.

Lemma componentFrom_None adj n visited i :
  length visited = n -> i < n ->
  componentFrom adj n visited i = None -> visited !! i = Some true.
Proof.
  intros Hlen Hi. unfold componentFrom.
  destruct (lookup_lt_is_Some_2 visited i) as [[|] ->]; [lia|done..].
Qed.

End BFSMain.

Section OuterLoop.

Lemma connected_sym adj u v : adjSymmetric adj -> connected adj u v -> connected adj v u.
Proof.
  intros Hs. induction 1 as [|x y z Hxy _ IH]; [apply rtc_refl|].
  eapply rtc_r; [exact IH|]. by apply Hs.
Qed.

Lemma discover_outer adj n i visited comps :
  adjBounded n adj -> i < n ->
  outerInv n i visited comps ->
  outerInv n (S i) (discover adj n (visited, comps) i).1 (discover adj n (visited, comps) i).2.
Proof.
  intros Hadj Hi (Hlen & Hnd & Hvis & Hlow). unfold discover. simpl.
  destruct (componentFrom adj n visited i) as [[vis' comp]|] eqn:E; simpl.
  - apply componentFrom_spec in E as (Hfalse & Hinv & r & Hr); [|done..].
    destruct Hinv as (Hl & _ & Hnd' & Hc & Hd & He & Hf).
    rewrite app_nil_r in *.
    split_and!.
    + done.
    + rewrite concat_app. simpl. rewrite app_nil_r.
      apply NoDup_app. split_and!; [done| |done].
      intros v Hv Hv'. apply Hvis in Hv. apply Hd in Hv'. congruence.
    + intros v. rewrite concat_app. simpl. rewrite app_nil_r, elem_of_app.
      rewrite Hc, Hvis. done.
    + intros v Hv Hvn. destruct (decide (v = i)) as [->|Hne].
      * apply Hc. right. rewrite Hr. by left.
      * apply Hc. left. apply Hlow; lia.
  - apply componentFrom_None in E; [|done..].
    split_and!; try done.
    intros v Hv Hvn. destruct (decide (v = i)) as [->|Hne]; [done|].
    apply Hlow; lia.
Qed.

Lemma outerInv_init n : outerInv n 0 (replicate n false) [].
Proof.
  split_and!.
  - apply length_replicate.
  - simpl. apply NoDup_nil_2.
  - intros v. simpl. split; [|by intros ?%elem_of_nil].
    intros [? _]%lookup_replicate. done.
  - intros; lia.
Qed.

Lemma discover_fold_outer adj n : adjBounded n adj ->
  forall m i visited comps, i + m <= n ->
  outerInv n i visited comps ->
  outerInv n (i + m) (foldl (discover adj n) (visited, comps) (seq i m)).1
                     (foldl (discover adj n) (visited, comps) (seq i m)).2.
Proof.
  intros Hadj. induction m as [|m IH]; intros i visited comps Him Hinv; simpl.
  - by rewrite Nat.add_0_r.
  - replace (i + S m) with (S i + m) by lia.
    destruct (discover adj n (visited, comps) i) as [v' c'] eqn:E.
    apply IH; [lia|].
    pose proof (discover_outer adj n i visited comps Hadj ltac:(lia) Hinv) as H.
    by rewrite E in H.
Qed.

(** The components found by the outer loop hold every tile index once. *)
Lemma components_partition adj n :
  adjBounded n adj -> concat (components adj n) ≡ₚ seq 0 n.
Proof.
  intros Hadj. unfold components.
  pose proof (discover_fold_outer adj n Hadj n 0 _ _ ltac:(lia) (outerInv_init n))
    as (Hlen & Hnd & Hvis & Hlow).
  simpl in Hlow.
  apply NoDup_Permutation; [done|apply NoDup_seq|].
  intros v. rewrite <- Hvis, elem_of_seq. split.
  - intros Hv%lookup_lt_Some. lia.
  - intros [_ Hv]. apply Hlow; lia.
Qed.

Lemma discover_class adj n i visited comps :
  adjBounded n adj -> adjSymmetric adj -> i < n ->
  outerInv n i visited comps -> classInv adj i comps ->
  classInv adj (S i) (discover adj n (visited, comps) i).2.
Proof.
  intros Hadj Hsym Hi (Hlen & Hnd & Hvis & Hlow) (Hcls & Hord). unfold discover. simpl.
  assert (Hmono : Forall (fun c => exists s rest, c = s :: rest /\ s < S i
                   /\ (forall v, v ∈ c <-> connected adj s v)
                   /\ (forall v, v ∈ c -> s <= v)) comps).
  { eapply Forall_impl; [exact Hcls|]. intros c (s & r & -> & Hs & H1 & H2).
    exists s, r. split_and!; auto. }
  destruct (componentFrom adj n visited i) as [[vis' comp]|] eqn:E; simpl.
  2:{ split; done. }
  apply componentFrom_spec in E as (Hfalse & Hinv & r & Hr); [|done..].
  destruct Hinv as (Hl & _ & Hnd' & Hc & Hd & He & Hf).
  rewrite app_nil_r in *.
  (* the visited tiles are closed under adjacency *)
  assert (Hclosed : forall u v, visited !! u = Some true -> adjacent adj u v ->
                                visited !! v = Some true).
  { intros u v Hu Huv. apply Hvis in Hu. apply elem_of_concat in Hu as (c & Huc & Hc').
    rewrite Forall_forall in Hcls. destruct (Hcls c Hc') as (s & r' & -> & _ & Hcl & _).
    apply Hvis. apply elem_of_concat. exists (s :: r'). split; [|done].
    apply Hcl. eapply rtc_r; [by apply Hcl|done]. }
  assert (Hcomp_closed : forall u v, u ∈ comp -> adjacent adj u v -> v ∈ comp).
  { intros u v Hu Huv. pose proof (He u v Hu Huv) as Hv. apply Hc in Hv as [Hv|Hv]; [|done].
    exfalso. apply Hsym in Huv. pose proof (Hclosed v u Hv Huv) as Hu'.
    apply Hd in Hu. congruence. }
  assert (Hge : forall v, v ∈ comp -> i <= v).
  { intros v Hv. destruct (decide (i <= v)); [done|]. exfalso.
    assert (v < n). { apply Hd in Hv. apply lookup_lt_Some in Hv. lia. }
    pose proof (Hlow v ltac:(lia) ltac:(lia)). apply Hd in Hv. congruence. }
  split.
  - apply Forall_app. split; [done|]. apply Forall_singleton.
    exists i, r. split_and!; [done|lia| |done].
    intros v. split; [apply Hf|].
    revert v. apply rtc_ind_r.
    + rewrite Hr. by left.
    + intros y z _ Hyz Hy. by eapply Hcomp_closed.
  - intros j1 j2 c1 c2 Hj H1 H2.
    destruct (decide (j2 < length comps)) as [Hlt|Hge'].
    + rewrite lookup_app_l in H1, H2 by lia. exact (Hord j1 j2 c1 c2 Hj H1 H2).
    + assert (j2 = length comps) as ->.
      { apply lookup_lt_Some in H2. rewrite length_app in H2. simpl in H2. lia. }
      rewrite lookup_app_l in H1 by lia.
      rewrite lookup_app_r, Nat.sub_diag in H2 by lia. simpl in H2. simplify_eq.
      rewrite Forall_forall in Hcls.
      destruct (Hcls c1) as (s & r' & -> & Hs & _ & _); [by eapply list_elem_of_lookup_2|].
      exists s. split; [by left|]. intros v Hv. apply Hge in Hv. lia.
Qed.

Lemma classInv_init adj : classInv adj 0 [].
Proof. split; [apply Forall_nil_2|]. intros ? ? ? ? _ ?. done. Qed.

Lemma discover_fold_class adj n : adjBounded n adj -> adjSymmetric adj ->
  forall m i visited comps, i + m <= n ->
  outerInv n i visited comps -> classInv adj i comps ->
  classInv adj (i + m) (foldl (discover adj n) (visited, comps) (seq i m)).2.
Proof.
  intros Hadj Hsym. induction m as [|m IH]; intros i visited comps Him Hinv Hcls; simpl.
  - by rewrite Nat.add_0_r.
  - replace (i + S m) with (S i + m) by lia.
    pose proof (discover_outer adj n i visited comps Hadj ltac:(lia) Hinv) as H.
    pose proof (discover_class adj n i visited comps Hadj Hsym ltac:(lia) Hinv Hcls) as H'.
    destruct (discover adj n (visited, comps) i) as [v' c'] eqn:E.
    apply IH; [lia|done..].
Qed.

Lemma components_class adj n :
  adjBounded n adj -> adjSymmetric adj -> classInv adj n (components adj n).
Proof.
  intros Hadj Hsym.
  apply (discover_fold_class adj n Hadj Hsym n 0 _ _ ltac:(lia) (outerInv_init n)
           (classInv_init adj)).
Qed.

End OuterLoop.

Section Adjacency.

Context {num : Type} `{!JSNumber num}.

Lemma foldl_invariant {A B} (P : A -> Prop) (f : A -> B -> A) (l : list B) (a : A) :
  P a -> (forall a b, b ∈ l -> P a -> P (f a b)) -> P (foldl f a l).
Proof.
  revert a. induction l as [|b l IH]; intros a Ha Hstep; simpl; [done|].
  apply IH.
  - apply Hstep; [by left|done].
  - intros a' b' Hb'. apply Hstep. by right.
Qed.

Lemma aget_elem_of {K V} `{!EqDecision K} (k : K) (m : list (K * V)) v :
  aget k m = Some v -> (k, v) ∈ m.
Proof.
  induction m as [|[k' v'] m IH]; simpl; [done|].
  case_decide; [intros [= ->]; subst; by left|]. intros H'. right. by apply IH.
Qed.

Lemma aset_elem_of {K V} `{!EqDecision K} (k : K) (v : V) (m : list (K * V)) kv :
  kv ∈ aset k v m -> kv = (k, v) \/ kv ∈ m.
Proof.
  induction m as [|[k' v'] m IH]; simpl.
  - intros ->%list_elem_of_singleton. by left.
  - case_decide.
    + intros [->|H']%elem_of_cons; [by left|]. right. by right.
    + intros [->|H']%elem_of_cons; [right; by left|].
      destruct (IH H') as [->|?]; [by left|]. right. by right.
Qed.

Lemma elem_of_imap_pair {A} (l : list A) (it : nat * A) :
  it ∈ imap pair l <-> l !! it.1 = Some it.2.
Proof.
  rewrite elem_of_lookup_imap. split.
  - intros (i & y & -> & H'). done.
  - intros H'. exists it.1, it.2. split; [by destruct it|done].
Qed.

Lemma adjOk_link n adj i j : i < n -> j < n -> adjOk n adj -> adjOk n (linkAdj adj i j).
Proof.
  intros Hi Hj [Hb Hs]. split; [by apply adjBounded_link|].
  destruct Hb as [Hlen _]. apply adjSymmetric_link; [lia..|done].
Qed.

Lemma adjOk_empty n : adjOk n (replicate n []).
Proof. split; [apply adjBounded_empty|apply adjSymmetric_empty]. Qed.

Lemma splitEdgeStep_ok n idx (st : list (Edge * nat) * list (list nat)) (e : Edge) :
  idx < n ->
  Forall (fun kv => kv.2 < n) st.1 /\ adjOk n st.2 ->
  Forall (fun kv => kv.2 < n) (splitEdgeStep idx st e).1 /\ adjOk n (splitEdgeStep idx st e).2.
Proof.
  intros Hidx [Hm Hadj]. unfold splitEdgeStep.
  destruct (aget (revEdge e) st.1) as [other|] eqn:E; simpl.
  - split; [done|]. apply adjOk_link; [done| |done].
    apply aget_elem_of in E. rewrite Forall_forall in Hm. by apply (Hm _ E).
  - split; [|done]. rewrite Forall_forall in *. intros kv [->|H']%aset_elem_of; [done|].
    by apply Hm.
Qed.

Lemma splitAdjacency_ok (polys : list Tile) : adjOk (length polys) (splitAdjacency polys).
Proof.
  unfold splitAdjacency.
  apply (foldl_invariant
    (fun st : list (Edge * nat) * list (list nat) =>
       Forall (fun kv => kv.2 < length polys) st.1 /\ adjOk (length polys) st.2)).
  - split; [apply Forall_nil_2|apply adjOk_empty].
  - intros st it Hit Hst. unfold splitTileStep.
    apply elem_of_imap_pair in Hit. apply lookup_lt_Some in Hit.
    apply foldl_invariant; [done|].
    intros st' e _ Hst'. by apply splitEdgeStep_ok.
Qed.

(** [largestConnectedComponent]: every list of the edge map holds tile
    indices. *)
Lemma addEdge_ok n idx (edges : list (Edge * list nat)) (e : Edge) :
  idx < n ->
  Forall (fun kv => Forall (fun i => i < n) kv.2) edges ->
  Forall (fun kv => Forall (fun i => i < n) kv.2) (addEdge idx edges e).
Proof.
  intros Hidx Hm. unfold addEdge. rewrite Forall_forall in Hm.
  destruct (aget (revEdge e) edges) as [l|] eqn:E1;
    [|destruct (aget e edges) as [l|] eqn:E2].
  all: rewrite Forall_forall; intros kv [->|H']%aset_elem_of; simpl; try by apply Hm.
  - apply aget_elem_of in E1. apply Forall_app. split; [apply (Hm _ E1)|by apply Forall_singleton].
  - apply aget_elem_of in E2. apply Forall_app. split; [apply (Hm _ E2)|by apply Forall_singleton].
  - by apply Forall_singleton.
Qed.

Lemma largestEdges_ok (polys : list Tile) :
  Forall (fun kv => Forall (fun i => i < length polys) kv.2) (largestEdges polys).
Proof.
  unfold largestEdges. apply foldl_invariant; [apply Forall_nil_2|].
  intros edges it Hit Hm.
  apply elem_of_imap_pair in Hit. apply lookup_lt_Some in Hit.
  apply foldl_invariant; [done|]. intros edges' e _ Hm'. by apply addEdge_ok.
Qed.

Lemma elem_of_indexPairs l p : p ∈ indexPairs l -> p.1 ∈ l /\ p.2 ∈ l.
Proof.
  induction l as [|x r IH]; simpl; [by intros ?%elem_of_nil|].
  rewrite elem_of_app. intros [H'|H'].
  - apply list_elem_of_fmap in H' as (y & -> & Hy). simpl. split; [by left|by right].
  - destruct (IH H'). split; by right.
Qed.

Lemma linkShared_ok n adj l :
  Forall (fun i => i < n) l -> adjOk n adj -> adjOk n (linkShared adj l).
Proof.
  intros Hl Hadj. unfold linkShared. case_decide; [|done].
  apply foldl_invariant; [done|].
  intros a p Hp Ha. apply elem_of_indexPairs in Hp as [H1 H2].
  rewrite Forall_forall in Hl. apply adjOk_link; auto.
Qed.

Lemma largestAdjacency_ok (polys : list Tile) : adjOk (length polys) (largestAdjacency polys).
Proof.
  unfold largestAdjacency. apply foldl_invariant; [apply adjOk_empty|].
  intros adj l Hl Hadj. apply linkShared_ok; [|done].
  apply list_elem_of_fmap in Hl as (kv & -> & Hkv).
  pose proof (largestEdges_ok polys) as H'. rewrite Forall_forall in H'. by apply H'.
Qed.

End Adjacency.

Section Analysers.

Context {num : Type} `{!JSNumber num}.
Local Abbreviation Tile := (@Tile num).

Lemma tilesAt_seq (pre ps : list Tile) :
  omap (fun u => (pre ++ ps) !! u) (seq (length pre) (length ps)) = ps.
Proof.
  revert pre. induction ps as [|x ps IH]; intros pre; simpl; [done|].
  rewrite list_lookup_middle by done. f_equal.
  specialize (IH (pre ++ [x])). rewrite <- app_assoc, length_app in IH. simpl in IH.
  by rewrite Nat.add_1_r in IH.
Qed.

Lemma tilesAt_all (ps : list Tile) : tilesAt ps (seq 0 (length ps)) = ps.
Proof. apply (tilesAt_seq [] ps). Qed.

Lemma tilesAt_concat (ps : list Tile) (comps : list (list nat)) :
  concat (tilesAt ps <$> comps) = tilesAt ps (concat comps).
Proof.
  induction comps as [|c comps IH]; [done|].
  rewrite fmap_cons, !concat_cons, IH. unfold tilesAt. by rewrite omap_app.
Qed.

Lemma tilesAt_length (ps : list Tile) (c : list nat) :
  (forall v, v ∈ c -> v < length ps) -> length (tilesAt ps c) = length c.
Proof.
  induction c as [|u c IH]; intros Hc; simpl; [done|].
  destruct (lookup_lt_is_Some_2 ps u) as [t Ht]; [apply Hc; by left|].
  unfold tilesAt. simpl. rewrite Ht. simpl. f_equal. apply IH.
  intros v Hv. apply Hc. by right.
Qed.

(** Both outer loops follow [discover]. *)
Lemma splitVisit_discover (ps : list Tile) adj l :
  forall (st : list bool * list (list Tile)) (st' : list bool * list (list nat)),
  st.1 = st'.1 -> st.2 = tilesAt ps <$> st'.2 ->
  (foldl (splitVisit ps adj) st l).2
  = tilesAt ps <$> (foldl (discover adj (length ps)) st' l).2.
Proof.
  induction l as [|i l IH]; intros st st' H1 H2; simpl; [done|].
  apply IH.
  - unfold splitVisit, discover. rewrite H1.
    by destruct (componentFrom adj (length ps) st'.1 i) as [[??]|].
  - unfold splitVisit, discover. rewrite H1.
    destruct (componentFrom adj (length ps) st'.1 i) as [[??]|]; simpl; [|done].
    rewrite fmap_app. simpl. by rewrite H2.
Qed.

Lemma splitConnectedComponents_components (ps : list Tile) :
  splitConnectedComponents (Some ps)
  = tilesAt ps <$> components (splitAdjacency ps) (length ps).
Proof.
  destruct ps as [|p ps]; [done|].
  unfold splitConnectedComponents, components.
  by apply splitVisit_discover.
Qed.

Lemma pickBest_snoc comps c :
  pickBest (comps ++ [c])
  = if decide (length (pickBest comps) < length c) then c else pickBest comps.
Proof. unfold pickBest. by rewrite foldl_snoc. Qed.

Lemma largestVisit_discover n adj l :
  forall (st : list bool * list nat) (st' : list bool * list (list nat)),
  st.1 = st'.1 -> st.2 = pickBest st'.2 ->
  (foldl (largestVisit n adj) st l).2 = pickBest (foldl (discover adj n) st' l).2.
Proof.
  induction l as [|i l IH]; intros st st' H1 H2; simpl; [done|].
  apply IH.
  - unfold largestVisit, discover. rewrite H1.
    by destruct (componentFrom adj n st'.1 i) as [[??]|].
  - unfold largestVisit, discover. rewrite H1.
    destruct (componentFrom adj n st'.1 i) as [[??]|]; simpl; [|done].
    by rewrite pickBest_snoc, H2.
Qed.

Lemma largestIndices_components (ps : list Tile) :
  largestIndices ps = pickBest (components (largestAdjacency ps) (length ps)).
Proof. unfold largestIndices, components. by apply largestVisit_discover. Qed.

Lemma pickBest_spec comps :
  (forall c, c ∈ comps -> length c <= length (pickBest comps))
  /\ (pickBest comps ≠ [] ->
      exists j, comps !! j = Some (pickBest comps)
        /\ forall j' c, j' < j -> comps !! j' = Some c -> length c < length (pickBest comps)).
Proof.
  induction comps as [|c comps IH] using rev_ind.
  - split; [by intros ? ?%elem_of_nil|done].
  - destruct IH as [IH1 IH2]. rewrite pickBest_snoc. case_decide as Hlt.
    + split.
      * intros c' [Hc' | ->%list_elem_of_singleton]%elem_of_app; [|done].
        specialize (IH1 c' Hc'). lia.
      * intros _. exists (length comps). split.
        -- rewrite lookup_app_r, Nat.sub_diag by lia. done.
        -- intros j' c' Hj' Hc'. rewrite lookup_app_l in Hc' by done.
           apply list_elem_of_lookup_2 in Hc'. specialize (IH1 c' Hc'). lia.
    + split.
      * intros c' [Hc' | ->%list_elem_of_singleton]%elem_of_app; [by apply IH1|lia].
      * intros Hne. destruct (IH2 Hne) as (j & Hj & Hbefore).
        exists j. split; [by apply lookup_app_l_Some|].
        intros j' c' Hj' Hc'. apply (Hbefore j' c' Hj').
        apply lookup_lt_Some in Hj. by rewrite lookup_app_l in Hc' by lia.
Qed.

End Analysers.

Section Components.

Lemma NoDup_concat_elem {A} (ls : list (list A)) l :
  NoDup (concat ls) -> l ∈ ls -> NoDup l.
Proof.
  induction ls as [|l' ls IH]; simpl; [by intros _ ?%elem_of_nil|].
  intros [H1 [_ H2]]%NoDup_app [->|Hl]%elem_of_cons; auto.
Qed.

Lemma components_isComponent adj n c :
  adjOk n adj -> c ∈ components adj n -> isComponent adj n c.
Proof.
  intros [Hb Hs] Hc.
  pose proof (components_partition adj n Hb) as Hperm.
  pose proof (components_class adj n Hb Hs) as [Hcls _].
  rewrite Forall_forall in Hcls. destruct (Hcls c Hc) as (s & r & -> & _ & Hclass & _).
  split_and!; [done| |].
  - eapply NoDup_concat_elem; [|done]. rewrite Hperm. apply NoDup_seq.
  - intros s' Hs'. split.
    + assert (s' ∈ seq 0 n) as ?%elem_of_seq; [|lia].
      rewrite <- Hperm. apply elem_of_concat. eauto.
    + intros v. rewrite Hclass. apply Hclass in Hs'. split; intros Hv.
      * etrans; [by apply connected_sym|done].
      * etrans; done.
Qed.

Lemma isComponent_same adj n c c' s :
  isComponent adj n c -> isComponent adj n c' -> s ∈ c -> s ∈ c' -> c ≡ₚ c'.
Proof.
  intros (_ & Hnd & Hc) (_ & Hnd' & Hc') Hs Hs'.
  apply NoDup_Permutation; [done..|].
  intros v. destruct (Hc s Hs) as [_ ->]. destruct (Hc' s Hs') as [_ ->]. done.
Qed.

Lemma isComponent_found adj n c :
  adjOk n adj -> isComponent adj n c ->
  exists c', c' ∈ components adj n /\ c ≡ₚ c'.
Proof.
  intros Hok Hc. destruct c as [|s r] eqn:Ec; [by destruct Hc|]. rewrite <- Ec in *.
  assert (Hs : s ∈ c) by (rewrite Ec; by left).
  destruct Hc as (Hne & Hnd & Hcl). destruct (Hcl s Hs) as [Hsn _].
  assert (s ∈ concat (components adj n)) as (c' & Hsc' & Hc')%elem_of_concat.
  { rewrite (components_partition adj n (proj1 Hok)). apply elem_of_seq. lia. }
  exists c'. split; [done|].
  eapply isComponent_same; [done|by apply components_isComponent|done..].
Qed.

Lemma isComponent_connectedWithin adj n c :
  isComponent adj n c -> connectedWithin adj c.
Proof.
  intros (_ & _ & Hcl) u v Hu Hv.
  destruct (Hcl u Hu) as [_ Hclass]. apply Hclass in Hv.
  revert v Hv. apply rtc_ind_r; [apply rtc_refl|].
  intros y z Hy Hyz IH. eapply rtc_r; [done|].
  split_and!; [done|by apply Hclass|].
  apply Hclass. by eapply rtc_r.
Qed.

End Components.

Section Theorems.

Context {num : Type} `{!JSNumber num}.
Local Abbreviation Tile := (@Tile num).

Lemma splitConnectedComponents_perm (polys : list Tile) :
  concat (splitConnectedComponents (Some polys)) ≡ₚ polys.
Proof.
  rewrite splitConnectedComponents_components, tilesAt_concat.
  unfold tilesAt.
  rewrite (components_partition _ _ (proj1 (splitAdjacency_ok polys))).
  change (tilesAt polys (seq 0 (length polys)) ≡ₚ polys). by rewrite tilesAt_all.
Qed.

(** C10. [splitConnectedComponents] returns the empty list, without error,
    on [null] and on the empty tile list, and on every tile list the
    components it returns hold each input tile exactly once. *)
Theorem splitConnectedComponents_partition :
  splitConnectedComponents (num := num) None = []
  /\ splitConnectedComponents (num := num) (Some []) = []
  /\ forall polys : list Tile, concat (splitConnectedComponents (Some polys)) ≡ₚ polys.
Proof. split_and!; [done..|]. apply splitConnectedComponents_perm. Qed.

End Theorems.

Section Borders.

Context {num : Type} `{!JSNumber num}.
Local Abbreviation Tile := (@Tile num).
Local Abbreviation Edge := (@Edge num).
Local Abbreviation Point := (@Point num).

Lemma aget_None {K V} `{!EqDecision K} (k : K) (m : list (K * V)) :
  k ∉ m.*1 -> aget k m = None.
Proof.
  induction m as [|[k' v'] m IH]; simpl; [done|].
  intros Hk. case_decide; [subst; exfalso; apply Hk; by left|].
  apply IH. intros ?. apply Hk. by right.
Qed.

Lemma aset_fresh {K V} `{!EqDecision K} (k : K) (v : V) (m : list (K * V)) :
  k ∉ m.*1 -> aset k v m = m ++ [(k, v)].
Proof.
  induction m as [|[k' v'] m IH]; simpl; [done|].
  intros Hk. case_decide; [subst; exfalso; apply Hk; by left|].
  f_equal. apply IH. intros ?. apply Hk. by right.
Qed.

Lemma omap_lookup_total {A B} (f : A -> option B) (l : list A) i :
  (forall x, x ∈ l -> is_Some (f x)) -> omap f l !! i = l !! i ≫= f.
Proof.
  revert i. induction l as [|x l IH]; intros i Hf; [done|].
  destruct (Hf x) as [y Hy]; [by left|]. simpl. rewrite Hy.
  destruct i as [|i]; simpl; [done|]. apply IH. intros z Hz. apply Hf. by right.
Qed.

Lemma edgeAt_is_Some (poly : list Point) i : i < length poly -> is_Some (edgeAt poly i).
Proof.
  intros Hi. unfold edgeAt.
  destruct (lookup_lt_is_Some_2 poly i Hi) as [a ->].
  destruct (lookup_lt_is_Some_2 poly ((i + 1) mod length poly)) as [b ->]; [|done].
  apply Nat.mod_upper_bound. lia.
Qed.

Lemma polyEdges_lookup (poly : list Point) i :
  polyEdges poly !! i = if decide (i < length poly) then edgeAt poly i else None.
Proof.
  unfold polyEdges. rewrite omap_lookup_total.
  - case_decide.
    + rewrite lookup_seq_lt by done. done.
    + rewrite lookup_seq_ge by lia. done.
  - intros x [_ Hx]%elem_of_seq. apply edgeAt_is_Some. lia.
Qed.

Lemma polyEdges_fst (poly : list Point) : (polyEdges poly).*1 = poly.
Proof.
  apply list_eq. intros i. rewrite list_lookup_fmap, polyEdges_lookup.
  case_decide as Hi.
  - unfold edgeAt. destruct (lookup_lt_is_Some_2 poly i Hi) as [a Ha]. rewrite Ha.
    destruct (lookup_lt_is_Some_2 poly ((i + 1) mod length poly)) as [b ->]; [|done].
    apply Nat.mod_upper_bound. lia.
  - simpl. symmetry. apply lookup_ge_None. lia.
Qed.

Lemma polyEdges_length (poly : list Point) : length (polyEdges poly) = length poly.
Proof. by rewrite <- (polyEdges_fst poly) at 2; rewrite length_fmap. Qed.

Lemma revEdge_involutive (e : Edge) : revEdge (revEdge e) = e.
Proof. by destruct e. Qed.

(** Recording edges none of which is the reverse of another: nothing is
    cancelled and nothing is overwritten. *)
Lemma borderEdgeStep_record (es : list Edge) : forall pre : list Edge,
  NoDup (pre ++ es) ->
  (forall i j e e', i ≠ j -> (pre ++ es) !! i = Some e -> (pre ++ es) !! j = Some e' ->
                    e ≠ revEdge e') ->
  foldl borderEdgeStep ((fun e => (e, e)) <$> pre) es = (fun e => (e, e)) <$> (pre ++ es).
Proof.
  induction es as [|e es IH]; intros pre Hnd Hrev; simpl.
  - by rewrite app_nil_r.
  - assert (Hkeys : ((fun e : Edge => (e, e)) <$> pre).*1 = pre).
    { rewrite <- list_fmap_compose. apply list_fmap_id. }
    unfold borderEdgeStep at 2.
    rewrite aget_None.
    2:{ rewrite Hkeys. intros Hin. apply list_elem_of_lookup_1 in Hin as [i Hi].
        pose proof (lookup_lt_Some _ _ _ Hi) as Hlt.
        apply (Hrev (length pre) i e (revEdge e)).
        - lia.
        - by rewrite list_lookup_middle.
        - by rewrite lookup_app_l.
        - by rewrite revEdge_involutive. }
    rewrite aset_fresh.
    2:{ rewrite Hkeys. apply NoDup_app in Hnd as (_ & Hd & _). intros Hin.
        apply (Hd e Hin). by left. }
    specialize (IH (pre ++ [e])). rewrite fmap_app, <- !app_assoc in IH. simpl in IH.
    apply IH; done.
Qed.

(** C9. For a group of one tile whose polygon has no repeated vertex and no
    edge equal to the reverse of another of its edges, the edge cancellation
    of [drawBorders] leaves the full edge list of the tile: one directed
    segment per polygon edge, in order, and at least one when the polygon
    has a vertex. *)
Theorem drawBorders_single_tile (t : Tile) :
  NoDup (verts t) ->
  (forall i j e e', i ≠ j ->
     polyEdges (verts t) !! i = Some e -> polyEdges (verts t) !! j = Some e' ->
     e ≠ revEdge e') ->
  drawBorders [t] = polyEdges (verts t)
  /\ length (drawBorders [t]) = length (verts t)
  /\ (verts t ≠ [] -> drawBorders [t] ≠ []).
Proof.
  intros Hnd Hrev.
  assert (E : drawBorders [t] = polyEdges (verts t)).
  { unfold drawBorders. cbn [foldl].
    pose proof (borderEdgeStep_record (polyEdges (verts t)) []) as Hrec.
    simpl in Hrec. rewrite Hrec.
    - rewrite <- list_fmap_compose. apply list_fmap_id.
    - eapply NoDup_fmap_1. by rewrite polyEdges_fst.
    - done. }
  assert (Hlen : length (drawBorders [t]) = length (verts t)).
  { by rewrite E, polyEdges_length. }
  split_and!; [done..|].
  intros Hne Hnil. rewrite Hnil in Hlen. by destruct (verts t).
Qed.

End Borders.

Section AssocLists.

Context {K V : Type} `{!EqDecision K}.

Lemma aget_Some_elem (k : K) (m : list (K * V)) v :
  NoDup m.*1 -> (aget k m = Some v <-> (k, v) ∈ m).
Proof.
  induction m as [|[k' v'] m IH]; simpl; intros Hnd.
  - split; [done|by intros ?%elem_of_nil].
  - apply NoDup_cons in Hnd as [Hk' Hnd]. case_decide as Hk.
    + subst k'. split; [intros [= ->]; by left|].
      intros [[= ->]|Hin]%elem_of_cons; [done|].
      exfalso. apply Hk'. apply list_elem_of_fmap. by exists (k, v).
    + rewrite IH by done. split; [by right|].
      intros [[= -> ->]|Hin]%elem_of_cons; done.
Qed.

Lemma aget_is_Some (k : K) (m : list (K * V)) : is_Some (aget k m) <-> k ∈ m.*1.
Proof.
  induction m as [|[k' v'] m IH]; simpl.
  - split; [by intros [? ?]|by intros ?%elem_of_nil].
  - case_decide as Hk.
    + subst. split; [intros _; by left|eauto].
    + rewrite IH. split; [by right|]. by intros [->|?]%elem_of_cons.
Qed.

Lemma aget_None_iff (k : K) (m : list (K * V)) : aget k m = None <-> k ∉ m.*1.
Proof.
  split; [|apply aget_None].
  intros Hn [v Hv]%aget_is_Some. congruence.
Qed.

Lemma aset_keys (k : K) (v : V) (m : list (K * V)) :
  (aset k v m).*1 = if decide (k ∈ m.*1) then m.*1 else m.*1 ++ [k].
Proof.
  induction m as [|[k' v'] m IH].
  - rewrite decide_False; [done|]. apply not_elem_of_nil.
  - cbn [aset]. rewrite fmap_cons. cbn [fst].
    destruct (decide (k = k')) as [->|Hk]; rewrite ?fmap_cons; cbn [fst].
    + rewrite decide_True by apply list_elem_of_here. done.
    + rewrite IH. destruct (decide (k ∈ m.*1)) as [Hin|Hin].
      * rewrite decide_True by (by apply list_elem_of_further). done.
      * rewrite decide_False; [done|]. by intros [->|?]%elem_of_cons.
Qed.

Lemma aset_NoDup (k : K) (v : V) (m : list (K * V)) :
  NoDup m.*1 -> NoDup (aset k v m).*1.
Proof.
  intros Hnd. rewrite aset_keys. case_decide; [done|].
  apply NoDup_app. split_and!; [done| |apply NoDup_singleton].
  intros x Hx ->%list_elem_of_singleton. done.
Qed.

Lemma aset_elem_of_iff (k : K) (v : V) (m : list (K * V)) k' v' :
  NoDup m.*1 ->
  (k', v') ∈ aset k v m <-> (k' = k /\ v' = v) \/ (k' ≠ k /\ (k', v') ∈ m).
Proof.
  intros Hnd. rewrite <- (aget_Some_elem k' (aset k v m) v') by (by apply aset_NoDup).
  rewrite <- (aget_Some_elem k' m v') by done. clear Hnd.
  induction m as [|[k0 v0] m IH]; simpl.
  - case_decide; [subst|]; naive_solver.
  - destruct (decide (k = k0)) as [->|Hne]; simpl.
    + destruct (decide (k' = k0)) as [->|Hne']; naive_solver.
    + destruct (decide (k' = k0)) as [->|Hne']; [naive_solver|]. apply IH.
Qed.

End AssocLists.

Section Geometry.

Context {num : Type} `{!JSNumber num}.
Local Abbreviation Tile := (@Tile num).
Local Abbreviation Edge := (@Edge num).
Local Abbreviation Point := (@Point num).

Lemma sameLine_refl (e : Edge) : sameLine e e.
Proof. by left. Qed.

Lemma sameLine_sym (e k : Edge) : sameLine e k -> sameLine k e.
Proof. intros [->| ->]; [by left|right]. by rewrite revEdge_involutive. Qed.

Lemma sameLine_trans (e k f : Edge) : sameLine e k -> sameLine k f -> sameLine e f.
Proof.
  intros [->| ->] [->| ->]; rewrite ?revEdge_involutive; [by left|by right|by right|by left].
Qed.

Lemma sameLine_rev (e : Edge) : sameLine (revEdge e) e.
Proof. by right. Qed.

Lemma equalPoint_true (u v : Point) : equalPoint u v = true <-> u = v.
Proof.
  unfold equalPoint. rewrite andb_true_iff, !bool_decide_eq_true.
  destruct u, v; simpl; naive_solver.
Qed.

Lemma shareEdge_touching (t1 t2 : Tile) : shareEdge t1 t2 = true <-> touching t1 t2.
Proof.
  unfold shareEdge, touching. rewrite existsb_exists. split.
  - intros (e1 & H1 & H'). apply existsb_exists in H' as (e2 & H2 & H').
    exists e1, e2. rewrite <- !list_elem_of_In in *. split_and!; [done..|].
    apply orb_true_iff in H' as [H'|H']; apply andb_true_iff in H' as [Ha Hb];
      apply equalPoint_true in Ha, Hb; destruct e1, e2; simpl in *; subst;
      [by left|by right].
  - intros (e1 & e2 & H1 & H2 & Hl). exists e1. rewrite <- list_elem_of_In. split; [done|].
    apply existsb_exists. exists e2. rewrite <- list_elem_of_In. split; [done|].
    apply orb_true_iff. destruct e1 as [a1 b1], e2 as [a2 b2].
    destruct Hl as [[= -> ->]|[= -> ->]]; simpl; [left|right];
      apply andb_true_iff; split; by apply equalPoint_true.
Qed.

Lemma touching_sym (t1 t2 : Tile) : touching t1 t2 -> touching t2 t1.
Proof.
  intros (e1 & e2 & H1 & H2 & Hl). exists e2, e1. split_and!; [done..|].
  by apply sameLine_sym.
Qed.

Lemma elem_of_occurrences (polys : list Tile) u (e : Edge) :
  (u, e) ∈ occurrences polys <-> exists t, polys !! u = Some t /\ e ∈ polyEdges (verts t).
Proof.
  unfold occurrences. rewrite list_elem_of_bind. split.
  - intros (it & Hin & Hit). apply elem_of_imap_pair in Hit.
    apply list_elem_of_fmap in Hin as (e' & [= -> ->] & He). eauto.
  - intros (t & Ht & He). exists (u, t). split.
    + apply list_elem_of_fmap. by exists e.
    + by apply elem_of_imap_pair.
Qed.

(** The nested loops over tiles and edges visit the occurrences in order. *)
Lemma foldl_occurrences {S} (f : nat -> S -> Edge -> S) (items : list (nat * Tile)) : forall s0,
  foldl (fun s (it : nat * Tile) => foldl (f it.1) s (polyEdges (verts it.2))) s0 items
  = foldl (fun s (o : nat * Edge) => f o.1 s o.2) s0
          (items ≫= fun it => pair it.1 <$> polyEdges (verts it.2)).
Proof.
  induction items as [|it items IH]; intros s0; [done|].
  simpl. rewrite foldl_app, IH. f_equal.
  generalize (polyEdges (verts it.2)). intros es. revert s0.
  induction es as [|e es IHes]; intros s0; simpl; [done|]. by rewrite IHes.
Qed.

End Geometry.

Section LargestGraph.

Context {num : Type} `{!JSNumber num}.
Local Abbreviation Tile := (@Tile num).
Local Abbreviation Edge := (@Edge num).
Local Abbreviation Point := (@Point num).

Lemma sameLine_key (e k : Edge) : sameLine e k -> k = e \/ k = revEdge e.
Proof. intros [->| ->]; [by left|right]. by rewrite revEdge_involutive. Qed.

(** Adding an occurrence to the list of a key that is on its segment. *)
Lemma edgesInv_extend P (m : list (Edge * list nat)) idx (e k0 : Edge) l :
  edgesInv P m -> aget k0 m = Some l -> sameLine e k0 ->
  edgesInv (P ++ [(idx, e)]) (aset k0 (l ++ [idx]) m).
Proof.
  intros (Hnd & Hrev & Hmem & Hcov) Hget Hl.
  assert (Hk0 : k0 ∈ m.*1) by (apply aget_is_Some; eauto).
  assert (Hkeys : (aset k0 (l ++ [idx]) m).*1 = m.*1) by (by rewrite aset_keys, decide_True).
  split_and!.
  - by apply aset_NoDup.
  - rewrite Hkeys. done.
  - intros k l' Hin u. apply (aset_elem_of_iff _ _ _ _ _ Hnd) in Hin as [[-> ->]|[Hne Hin]].
    + rewrite elem_of_app, list_elem_of_singleton.
      rewrite (Hmem k0 l) by (by apply aget_Some_elem). split.
      * intros [(e' & He' & Hl')| ->].
        -- exists e'. split; [apply elem_of_app; by left|done].
        -- exists e. split; [apply elem_of_app; right; by left|done].
      * intros (e' & [He'|[= -> ->]%list_elem_of_singleton]%elem_of_app & Hl'); eauto.
    + rewrite (Hmem k l' Hin). split.
      * intros (e' & He' & Hl'). exists e'. split; [apply elem_of_app; by left|done].
      * intros (e' & [He'|[= -> ->]%list_elem_of_singleton]%elem_of_app & Hl'); [eauto|].
        exfalso. assert (Hk : k ∈ m.*1) by (apply list_elem_of_fmap; by exists (k, l')).
        assert (sameLine k k0) as [-> | ->] by (eapply sameLine_trans; [by apply sameLine_sym|done]);
          [done|].
        apply Hne. by apply Hrev.
  - intros u e' [He'|[= -> ->]%list_elem_of_singleton]%elem_of_app; rewrite Hkeys; eauto.
Qed.

(** Adding an occurrence whose segment has no key yet. *)
Lemma edgesInv_fresh P (m : list (Edge * list nat)) idx (e : Edge) :
  edgesInv P m -> aget (revEdge e) m = None -> aget e m = None ->
  edgesInv (P ++ [(idx, e)]) (aset e [idx] m).
Proof.
  intros (Hnd & Hrev & Hmem & Hcov) Hr He.
  apply aget_None_iff in Hr, He.
  assert (Hnew : forall k, k ∈ m.*1 -> ~ sameLine e k).
  { intros k Hk [->| ->]%sameLine_key; done. }
  assert (Hkeys : (aset e [idx] m).*1 = m.*1 ++ [e]) by (by rewrite aset_keys, decide_False).
  split_and!.
  - by apply aset_NoDup.
  - rewrite Hkeys. intros k [Hk| ->%list_elem_of_singleton]%elem_of_app
      [Hk'|Hk'%list_elem_of_singleton]%elem_of_app.
    + by apply Hrev.
    + exfalso. apply Hr. rewrite <- Hk', revEdge_involutive. done.
    + done.
    + done.
  - intros k l' Hin u. apply (aset_elem_of_iff _ _ _ _ _ Hnd) in Hin as [[-> ->]|[Hne Hin]].
    + rewrite list_elem_of_singleton. split.
      * intros ->. exists e. split; [apply elem_of_app; right; by left|by left].
      * intros (e' & [He'|[= -> ->]%list_elem_of_singleton]%elem_of_app & Hl'); [|done].
        exfalso. destruct (Hcov u e' He') as (k & Hk & Hlk).
        apply (Hnew k Hk). eapply sameLine_trans; [by apply sameLine_sym|done].
    + rewrite (Hmem k l' Hin). split.
      * intros (e' & He' & Hl'). exists e'. split; [apply elem_of_app; by left|done].
      * intros (e' & [He'|[= -> ->]%list_elem_of_singleton]%elem_of_app & Hl'); [eauto|].
        exfalso. apply (Hnew k); [|done]. apply list_elem_of_fmap. by exists (k, l').
  - intros u e' [He'|[= -> ->]%list_elem_of_singleton]%elem_of_app; rewrite Hkeys.
    + destruct (Hcov u e' He') as (k & Hk & Hlk). exists k. split; [|done].
      apply elem_of_app. by left.
    + exists e. split; [apply elem_of_app; right; by left|by left].
Qed.

Lemma addEdge_inv P (m : list (Edge * list nat)) idx (e : Edge) :
  edgesInv P m -> edgesInv (P ++ [(idx, e)]) (addEdge idx m e).
Proof.
  intros Hinv. unfold addEdge.
  destruct (aget (revEdge e) m) as [l|] eqn:Hr.
  { apply edgesInv_extend; [done..|]. right. by rewrite revEdge_involutive. }
  destruct (aget e m) as [l|] eqn:He.
  { apply edgesInv_extend; [done..|]. by left. }
  by apply edgesInv_fresh.
Qed.

Lemma edgesInv_nil : edgesInv [] (@nil (Edge * list nat)).
Proof.
  split_and!.
  - apply NoDup_nil_2.
  - by intros k ?%elem_of_nil.
  - by intros k l ?%elem_of_nil.
  - by intros u e ?%elem_of_nil.
Qed.

Lemma largestEdges_inv (polys : list Tile) :
  edgesInv (occurrences polys) (largestEdges polys).
Proof.
  unfold largestEdges, occurrences.
  rewrite (foldl_occurrences (fun idx m e => addEdge idx m e)).
  generalize (imap pair polys ≫= fun it => pair it.1 <$> polyEdges (verts it.2)).
  intros O.
  assert (Hgen : forall todo P (m : list (Edge * list nat)),
    edgesInv P m ->
    edgesInv (P ++ todo) (foldl (fun m (o : nat * Edge) => addEdge o.1 m o.2) m todo)).
  { induction todo as [|[idx e] todo IH]; intros P m Hinv; simpl.
    - by rewrite app_nil_r.
    - replace (P ++ (idx, e) :: todo) with ((P ++ [(idx, e)]) ++ todo)
        by (by rewrite <- app_assoc).
      apply IH. by apply addEdge_inv. }
  apply (Hgen O [] []). apply edgesInv_nil.
Qed.

(** ** From the edge map to the adjacency map *)

Lemma adjacent_link_fold (pairs : list (nat * nat)) : forall adj u v,
  (forall p, p ∈ pairs -> p.1 < length adj /\ p.2 < length adj) ->
  adjacent (foldl (fun a (p : nat * nat) => linkAdj a p.1 p.2) adj pairs) u v <->
  adjacent adj u v \/ exists p, p ∈ pairs /\ ((u, v) = p \/ (v, u) = p).
Proof.
  induction pairs as [|[x y] pairs IH]; intros adj u v Hb; simpl.
  - split; [by left|]. intros [?|(p & ?%elem_of_nil & _)]; done.
  - rewrite IH.
    2:{ intros p Hp. rewrite linkAdj_length. apply Hb. by right. }
    destruct (Hb (x, y)) as [Hx Hy]; [by left|]. simpl in *.
    rewrite adjacent_linkAdj by done. split.
    + intros [[?|[[-> ->]|[-> ->]]]|(p & Hp & Hpp)].
      * by left.
      * right. exists (x, y). split; [by left|by left].
      * right. exists (x, y). split; [by left|by right].
      * right. exists p. split; [by right|done].
    + intros [?|(p & [->|Hp]%elem_of_cons & Hpp)].
      * left. by left.
      * left. right. destruct Hpp as [[= -> ->]|[= -> ->]]; [by left|by right].
      * right. eauto.
Qed.

Lemma indexPairs_distinct (l : list nat) u v :
  u ≠ v -> u ∈ l -> v ∈ l ->
  exists p, p ∈ indexPairs l /\ ((u, v) = p \/ (v, u) = p).
Proof.
  intros Hne. induction l as [|x r IH]; [by intros ?%elem_of_nil|].
  simpl. intros [->|Hu]%elem_of_cons [->|Hv]%elem_of_cons.
  - done.
  - exists (x, v). split; [|by left]. apply elem_of_app. left.
    apply list_elem_of_fmap. by exists v.
  - exists (x, u). split; [|by right]. apply elem_of_app. left.
    apply list_elem_of_fmap. by exists u.
  - destruct (IH Hu Hv) as (p & Hp & Hpp). exists p. split; [|done].
    apply elem_of_app. by right.
Qed.

Lemma adjacent_linkShared adj (l : list nat) u v :
  u ≠ v -> Forall (fun i => i < length adj) l ->
  adjacent (linkShared adj l) u v <-> adjacent adj u v \/ (u ∈ l /\ v ∈ l).
Proof.
  intros Hne Hl. rewrite Forall_forall in Hl. unfold linkShared. case_decide as Hlen.
  - rewrite adjacent_link_fold.
    2:{ intros p [? ?]%elem_of_indexPairs. auto. }
    split; (intros [?|H']; [by left|right]).
    + destruct H' as (p & [H1 H2]%elem_of_indexPairs & [<-|<-]); done.
    + destruct H' as [Hu Hv]. by apply indexPairs_distinct.
  - split; [by left|]. intros [?|[Hu Hv]]; [done|]. exfalso.
    destruct l as [|a [|b l]]; simpl in Hlen; [by apply elem_of_nil in Hu| |lia].
    apply list_elem_of_singleton in Hu, Hv. congruence.
Qed.

Lemma adjacent_linkShared_fold (ls : list (list nat)) : forall adj u v,
  u ≠ v -> Forall (Forall (fun i => i < length adj)) ls ->
  adjacent (foldl linkShared adj ls) u v <->
  adjacent adj u v \/ exists l, l ∈ ls /\ u ∈ l /\ v ∈ l.
Proof.
  induction ls as [|l ls IH]; intros adj u v Hne Hb; simpl.
  - split; [by left|]. intros [?|(l & ?%elem_of_nil & _)]; done.
  - apply Forall_cons in Hb as [Hl Hb].
    assert (Hlen : length (linkShared adj l) = length adj).
    { unfold linkShared. case_decide; [|done].
      apply (foldl_invariant (fun a => length a = length adj)); [done|].
      intros a p _ Ha. by rewrite linkAdj_length. }
    rewrite IH; [|done|by rewrite Hlen].
    rewrite adjacent_linkShared by done. split.
    + intros [[?|[? ?]]|(l' & ? & ?)]; [by left|right..].
      * exists l. split; [by left|done].
      * exists l'. split; [by right|done].
    + intros [?|(l' & [->|?]%elem_of_cons & ?)]; [left; by left|left; by right|right; eauto].
Qed.

(** The adjacency graph built by [largestConnectedComponent]: two different
    tiles are neighbours exactly when they share an edge. *)
Lemma largestAdjacency_touching (polys : list Tile) u v :
  u ≠ v ->
  adjacent (largestAdjacency polys) u v <->
  exists t1 t2, polys !! u = Some t1 /\ polys !! v = Some t2 /\ shareEdge t1 t2 = true.
Proof.
  intros Hne. unfold largestAdjacency.
  destruct (largestEdges_inv polys) as (Hnd & Hrev & Hmem & Hcov).
  rewrite adjacent_linkShared_fold; [|done|].
  2:{ rewrite length_replicate. pose proof (largestEdges_ok polys) as Hok.
      rewrite Forall_fmap. eapply Forall_impl; [exact Hok|]. done. }
  split.
  - intros [Hadj|(l & Hl & Hu & Hv)].
    { destruct (adjBounded_empty (length polys)) as [_ Hb].
      exfalso. unfold adjacent, groupAt in Hadj.
      destruct (replicate (length polys) [] !! u) as [l|] eqn:E; simpl in Hadj.
      - apply lookup_replicate in E as [-> _]. by apply elem_of_nil in Hadj.
      - by apply elem_of_nil in Hadj. }
    apply list_elem_of_fmap in Hl as ([k l'] & -> & Hkl). simpl in *.
    apply (Hmem k l' Hkl) in Hu as (e1 & H1 & Hl1).
    apply (Hmem k l' Hkl) in Hv as (e2 & H2 & Hl2).
    apply elem_of_occurrences in H1 as (t1 & Ht1 & He1).
    apply elem_of_occurrences in H2 as (t2 & Ht2 & He2).
    exists t1, t2. split_and!; [done..|]. apply shareEdge_touching.
    exists e1, e2. split_and!; [done..|].
    eapply sameLine_trans; [done|by apply sameLine_sym].
  - intros (t1 & t2 & Ht1 & Ht2 & (e1 & e2 & He1 & He2 & Hl)%shareEdge_touching).
    right.
    assert (H1 : (u, e1) ∈ occurrences polys) by (apply elem_of_occurrences; eauto).
    assert (H2 : (v, e2) ∈ occurrences polys) by (apply elem_of_occurrences; eauto).
    destruct (Hcov u e1 H1) as (k & Hk & Hlk).
    apply list_elem_of_fmap in Hk as ([k' l] & -> & Hkl). simpl in *.
    exists l. split; [apply list_elem_of_fmap; by exists (k', l)|].
    split; apply (Hmem k' l Hkl); [by exists e1|].
    exists e2. split; [done|].
    eapply sameLine_trans; [by apply sameLine_sym|done].
Qed.

End LargestGraph.

Section SplitGraph.

Context {num : Type} `{!JSNumber num}.
Local Abbreviation Tile := (@Tile num).
Local Abbreviation Edge := (@Edge num).
Local Abbreviation Point := (@Point num).

(** The invariant of [splitConnectedComponents] after the occurrences [P]:
    an index recorded for a key has that edge, and neighbours have edges on
    a common segment. *)
Lemma splitEdgeStep_sound n P (st : list (Edge * nat) * list (list nat)) idx (e : Edge) :
  idx < n ->
  (Forall (fun kv => kv.2 < n) st.1 /\ adjOk n st.2)
  /\ (forall k i, (k, i) ∈ st.1 -> (i, k) ∈ P)
  /\ (forall u v, adjacent st.2 u v ->
        exists e1 e2, (u, e1) ∈ P /\ (v, e2) ∈ P /\ sameLine e1 e2) ->
  (Forall (fun kv => kv.2 < n) (splitEdgeStep idx st e).1 /\ adjOk n (splitEdgeStep idx st e).2)
  /\ (forall k i, (k, i) ∈ (splitEdgeStep idx st e).1 -> (i, k) ∈ P ++ [(idx, e)])
  /\ (forall u v, adjacent (splitEdgeStep idx st e).2 u v ->
        exists e1 e2, (u, e1) ∈ P ++ [(idx, e)] /\ (v, e2) ∈ P ++ [(idx, e)]
                      /\ sameLine e1 e2).
Proof.
  intros Hidx (Hok & Hrec & Hadj).
  split; [by apply splitEdgeStep_ok|].
  destruct Hok as [Hvals [[Hlen _] _]].
  unfold splitEdgeStep. destruct (aget (revEdge e) st.1) as [other|] eqn:E; simpl.
  - pose proof (aget_elem_of _ _ _ E) as Hin.
    assert (Hother : other < n).
    { rewrite Forall_forall in Hvals. apply (Hvals _ Hin). }
    split.
    + intros k i Hki. apply elem_of_app. left. by apply Hrec.
    + intros u v. rewrite adjacent_linkAdj by lia.
      intros [Huv|[[-> ->]|[-> ->]]].
      * destruct (Hadj u v Huv) as (e1 & e2 & H1 & H2 & Hl).
        exists e1, e2. split_and!; [apply elem_of_app; by left..|done].
      * exists e, (revEdge e). split_and!.
        -- apply elem_of_app. right. by left.
        -- apply elem_of_app. left. by apply Hrec.
        -- right. by rewrite revEdge_involutive.
      * exists (revEdge e), e. split_and!.
        -- apply elem_of_app. left. by apply Hrec.
        -- apply elem_of_app. right. by left.
        -- by right.
  - split.
    + intros k i [[= -> ->]|Hki]%aset_elem_of.
      * apply elem_of_app. right. by left.
      * apply elem_of_app. left. by apply Hrec.
    + intros u v Huv. destruct (Hadj u v Huv) as (e1 & e2 & H1 & H2 & Hl).
      exists e1, e2. split_and!; [apply elem_of_app; by left..|done].
Qed.

(** Neighbours in the graph of [splitConnectedComponents] share an edge. *)
Lemma splitAdjacency_touching (ps : list Tile) u v :
  adjacent (splitAdjacency ps) u v ->
  exists t1 t2, ps !! u = Some t1 /\ ps !! v = Some t2 /\ shareEdge t1 t2 = true.
Proof.
  unfold splitAdjacency, splitTileStep.
  rewrite (foldl_occurrences (fun idx st e => splitEdgeStep idx st e)).
  fold (occurrences ps).
  assert (Hgen : forall todo P (st : list (Edge * nat) * list (list nat)),
    (forall o, o ∈ todo -> o.1 < length ps) ->
    (Forall (fun kv => kv.2 < length ps) st.1 /\ adjOk (length ps) st.2)
    /\ (forall k i, (k, i) ∈ st.1 -> (i, k) ∈ P)
    /\ (forall u v, adjacent st.2 u v ->
          exists e1 e2, (u, e1) ∈ P /\ (v, e2) ∈ P /\ sameLine e1 e2) ->
    forall u v,
      adjacent (foldl (fun st (o : nat * Edge) => splitEdgeStep o.1 st o.2) st todo).2 u v ->
      exists e1 e2, (u, e1) ∈ P ++ todo /\ (v, e2) ∈ P ++ todo /\ sameLine e1 e2).
  { induction todo as [|[idx e] todo IH]; intros P st Hb Hinv; simpl.
    - rewrite app_nil_r. apply Hinv.
    - intros u' v' Huv.
      replace (P ++ (idx, e) :: todo) with ((P ++ [(idx, e)]) ++ todo)
        by (by rewrite <- app_assoc).
      apply (IH (P ++ [(idx, e)]) (splitEdgeStep idx st e)); [| |done].
      + intros o Ho. apply Hb. by right.
      + apply splitEdgeStep_sound; [|done]. apply (Hb (idx, e)). by left. }
  intros Huv.
  destruct (Hgen (occurrences ps) [] ([], replicate (length ps) [])) with (u := u) (v := v)
    as (e1 & e2 & H1 & H2 & Hl).
  - intros [i e] (t & Ht & _)%elem_of_occurrences. by apply lookup_lt_Some in Ht.
  - split_and!.
    + apply Forall_nil_2.
    + apply adjOk_empty.
    + by intros k i ?%elem_of_nil.
    + intros u' v' Hadj. exfalso. unfold adjacent, groupAt in Hadj. simpl in Hadj.
      destruct (replicate (length ps) (@nil nat) !! u') as [l|] eqn:E; simpl in Hadj.
      * apply lookup_replicate in E as [-> _]. by apply elem_of_nil in Hadj.
      * by apply elem_of_nil in Hadj.
  - done.
  - simpl in H1, H2.
    apply elem_of_occurrences in H1 as (t1 & Ht1 & He1).
    apply elem_of_occurrences in H2 as (t2 & Ht2 & He2).
    exists t1, t2. split_and!; [done..|]. apply shareEdge_touching.
    by exists e1, e2.
Qed.

(** A path of tile indices whose steps are between tiles sharing an edge is
    a chain of tiles. *)
Lemma index_path_tiles (ps group : list Tile) (R : nat -> nat -> Prop) u v :
  (forall a b, R a b ->
     a = b \/ exists ta tb, ps !! a = Some ta /\ ps !! b = Some tb
                            /\ ta ∈ group /\ tb ∈ group /\ shareEdge ta tb = true) ->
  rtc R u v ->
  forall tu tv, ps !! u = Some tu -> ps !! v = Some tv ->
  rtc (fun a b => a ∈ group /\ b ∈ group /\ shareEdge a b = true) tu tv.
Proof.
  intros Hstep Huv. induction Huv as [x|x y z Hxy _ IH]; intros tu tv Hu Hv.
  - assert (tu = tv) as -> by congruence. apply rtc_refl.
  - destruct (Hstep x y Hxy) as [->|(ta & tb & Ha & Hb & Hga & Hgb & Hs)]; [by apply IH|].
    assert (ta = tu) as -> by congruence.
    eapply rtc_l; [|by apply IH]. done.
Qed.

Lemma allConnected_edgeConnected (ps : list Tile) :
  allConnected (splitAdjacency ps) (length ps) -> edgeConnected ps.
Proof.
  intros Hall t1 t2 [u Hu]%list_elem_of_lookup_1 [v Hv]%list_elem_of_lookup_1.
  eapply (index_path_tiles ps ps (adjacent (splitAdjacency ps)) u v); [| |done..].
  - intros a b (ta & tb & Ha & Hb & Hs)%splitAdjacency_touching. right.
    exists ta, tb. split_and!; [done..|by eapply list_elem_of_lookup_2
                                     |by eapply list_elem_of_lookup_2|done].
  - apply Hall; by eapply lookup_lt_Some.
Qed.

Lemma elem_of_tilesAt (polys : list Tile) (c : list nat) t :
  t ∈ tilesAt polys c <-> exists u, u ∈ c /\ polys !! u = Some t.
Proof. unfold tilesAt. by rewrite list_elem_of_omap. Qed.

(** The tiles of a set of indices that is connected within the graph of
    [largestConnectedComponent] are joined by chains of tiles sharing edges. *)
Lemma connectedWithin_edgeConnected (polys : list Tile) (c : list nat) :
  connectedWithin (largestAdjacency polys) c ->
  edgeConnected (tilesAt polys c).
Proof.
  intros Hc t1 t2 (u & Hu & Htu)%elem_of_tilesAt (v & Hv & Htv)%elem_of_tilesAt.
  eapply (index_path_tiles polys (tilesAt polys c) _ u v); [|by apply Hc|done..].
  intros a b (Hab & Ha & Hb). destruct (decide (a = b)) as [->|Hne]; [by left|right].
  apply largestAdjacency_touching in Hab as (ta & tb & Hta & Htb & Hs); [|done].
  exists ta, tb. split_and!; [done..| | |done]; apply elem_of_tilesAt; eauto.
Qed.

End SplitGraph.

Section LargestTheorem.

Context {num : Type} `{!JSNumber num}.
Local Abbreviation Tile := (@Tile num).

(** C7. On a tile list that is not empty, [largestConnectedComponent]
    returns the tiles of a connected component of the adjacency graph it
    builds; no component has more tiles; among the components with as many
    tiles it is the one discovered first, the one that holds the least tile
    index; the graph restricted to the returned tiles is connected; two
    different tiles are neighbours in that graph exactly when they share an
    edge; and every two returned tiles are joined by a chain of returned
    tiles sharing edges. *)
Theorem largestConnectedComponent_largest (polys : list Tile) :
  polys ≠ [] ->
  let adj := largestAdjacency polys in
  let n := length polys in
  let best := largestIndices polys in
  largestConnectedComponent polys = tilesAt polys best
  /\ length (largestConnectedComponent polys) = length best
  /\ isComponent adj n best
  /\ (forall c, isComponent adj n c -> length c <= length best)
  /\ (forall c, isComponent adj n c -> length c = length best ->
        exists s, s ∈ best /\ forall v, v ∈ c -> s <= v)
  /\ connectedWithin adj best
  /\ (forall u v, u ≠ v ->
        adjacent adj u v <->
        exists t1 t2, polys !! u = Some t1 /\ polys !! v = Some t2
                      /\ shareEdge t1 t2 = true)
  /\ edgeConnected (largestConnectedComponent polys).
Proof.
  intros Hne adj n best.
  pose proof (largestAdjacency_ok polys) as Hok. fold adj n in Hok.
  pose proof (components_partition adj n (proj1 Hok)) as Hperm.
  pose proof (components_class adj n (proj1 Hok) (proj2 Hok)) as [Hcls Hord].
  pose proof (pickBest_spec (components adj n)) as [Hmax Hfirst].
  assert (Ebest : best = pickBest (components adj n)) by apply largestIndices_components.
  rewrite <- Ebest in Hmax, Hfirst.
  assert (Hbne : best ≠ []).
  { assert (0 ∈ concat (components adj n)) as (c & H0 & Hc)%elem_of_concat.
    { rewrite Hperm. apply elem_of_seq. destruct polys; [done|]. subst n. simpl. lia. }
    specialize (Hmax c Hc). destruct c; [by apply elem_of_nil in H0|].
    intros E. rewrite E in Hmax. simpl in Hmax. lia. }
  destruct (Hfirst Hbne) as (j & Hj & Hbefore).
  assert (Hin : best ∈ components adj n) by (by eapply list_elem_of_lookup_2).
  assert (Hcomp : isComponent adj n best) by (by apply components_isComponent).
  split_and!.
  - done.
  - apply tilesAt_length. intros v Hv. destruct Hcomp as (_ & _ & Hcl).
    by destruct (Hcl v Hv).
  - done.
  - intros c Hc. destruct (isComponent_found adj n c Hok Hc) as (c' & Hc' & ->).
    by apply Hmax.
  - intros c Hc Hlen. destruct (isComponent_found adj n c Hok Hc) as (c' & Hc' & Hp).
    apply list_elem_of_lookup_1 in Hc' as [j' Hj'].
    rewrite Hp in Hlen.
    destruct (decide (j' < j)) as [Hlt|Hge].
    { specialize (Hbefore j' c' Hlt Hj'). lia. }
    destruct (decide (j' = j)) as [->|Hneq].
    + assert (c' = best) as -> by congruence.
      rewrite Forall_forall in Hcls.
      destruct (Hcls best Hin) as (s & r & E & _ & _ & Hleast).
      exists s. split; [rewrite E; by left|].
      intros v Hv. apply Hleast. by rewrite <- Hp.
    + destruct (Hord j j' best c' ltac:(lia) Hj Hj') as (s & Hs & Hlow).
      exists s. split; [done|]. intros v Hv. rewrite Hp in Hv.
      specialize (Hlow v Hv). lia.
  - by eapply isComponent_connectedWithin.
  - intros u v Huv. by apply largestAdjacency_touching.
  - change (largestConnectedComponent polys) with (tilesAt polys best).
    apply connectedWithin_edgeConnected. by eapply isComponent_connectedWithin.
Qed.

End LargestTheorem.

Section Exchange.

Context {num : Type} `{!JSNumber num}.
Local Abbreviation Tile := (@Tile num).

Lemma groupAt_insert_eq {A} (gs : list (list A)) i l :
  i < length gs -> groupAt (<[i := l]> gs) i = l.
Proof. intros Hi. unfold groupAt. by rewrite list_lookup_insert_eq. Qed.

Lemma groupAt_insert_ne {A} (gs : list (list A)) i j l :
  i ≠ j -> groupAt (<[i := l]> gs) j = groupAt gs j.
Proof. intros Hi. unfold groupAt. by rewrite list_lookup_insert_ne. Qed.

Lemma groupAt_ge {A} (gs : list (list A)) i : length gs <= i -> groupAt gs i = [].
Proof. intros Hi. unfold groupAt. by rewrite lookup_ge_None_2. Qed.

Lemma elem_of_donorsOf (groups : list (list Tile)) minTiles gi gj :
  gj ∈ donorsOf groups minTiles gi <->
  gj < length groups /\ gj ≠ gi /\ minTiles < length (groupAt groups gj).
Proof.
  unfold donorsOf. rewrite list_elem_of_filter, elem_of_seq. split; [|intros (?&?&?)]; naive_solver lia.
Qed.

Lemma pickTile_Some (donorTiles receiver : list Tile) t :
  pickTile donorTiles receiver = Some t ->
  t ∈ donorTiles
  /\ (exists r, r ∈ receiver /\ shareEdge t r = true)
  /\ staysConnectedAfterRemoval donorTiles t = true.
Proof.
  unfold pickTile. intros [Hin Hf]%find_some.
  apply andb_prop in Hf as [Ht Hs].
  split_and!; [by apply list_elem_of_In| |done].
  apply existsb_exists in Ht as (r & Hr & Hsr). exists r. split; [by apply list_elem_of_In|done].
Qed.

Lemma staysConnected_components (groupTiles : list Tile) t :
  staysConnectedAfterRemoval groupTiles t = true ->
  length (splitConnectedComponents (Some (removeTile groupTiles t))) = 1.
Proof.
  unfold staysConnectedAfterRemoval. case_decide; [done|].
  by intros ?%bool_decide_eq_true.
Qed.

Lemma seekDonor_Some (groups : list (list Tile)) gi donors gj t :
  seekDonor groups gi donors = Some (gj, t) ->
  gj ∈ donors /\ pickTile (groupAt groups gj) (groupAt groups gi) = Some t.
Proof.
  induction donors as [|d donors IH]; simpl; [done|].
  destruct (pickTile (groupAt groups d) (groupAt groups gi)) as [t'|] eqn:E.
  - intros [= -> ->]. split; [by left|done].
  - intros [? ?]%IH. split; [by right|done].
Qed.

Lemma moveTile_length (groups : list (list Tile)) gj gi t :
  length (moveTile groups gj gi t) = length groups.
Proof. unfold moveTile. by rewrite !length_insert. Qed.

Lemma moveTile_donor (groups : list (list Tile)) gj gi t :
  gj ≠ gi -> gj < length groups ->
  groupAt (moveTile groups gj gi t) gj = removeTile (groupAt groups gj) t.
Proof.
  intros Hne Hlt. unfold moveTile.
  rewrite groupAt_insert_ne by done. by rewrite groupAt_insert_eq.
Qed.

Lemma moveTile_receiver (groups : list (list Tile)) gj gi t :
  gj ≠ gi -> gi < length groups ->
  groupAt (moveTile groups gj gi t) gi = groupAt groups gi ++ [t].
Proof.
  intros Hne Hlt. unfold moveTile.
  rewrite groupAt_insert_eq by (by rewrite length_insert).
  by rewrite groupAt_insert_ne.
Qed.

Lemma split_one_allConnected (ps : list Tile) :
  length (splitConnectedComponents (Some ps)) = 1 ->
  allConnected (splitAdjacency ps) (length ps).
Proof.
  rewrite splitConnectedComponents_components, length_fmap. intros Hlen.
  pose proof (splitAdjacency_ok ps) as [Hb Hs].
  pose proof (components_partition _ _ Hb) as Hperm.
  pose proof (components_class _ _ Hb Hs) as [Hcls _].
  destruct (components (splitAdjacency ps) (length ps)) as [|c [|??]]; simplify_eq/=.
  rewrite app_nil_r in Hperm.
  apply Forall_singleton in Hcls as (s & r & E & _ & Hclass & _).
  intros u v Hu Hv.
  assert (Hcu : connected (splitAdjacency ps) s u).
  { apply Hclass. rewrite Hperm. apply elem_of_seq. lia. }
  assert (Hcv : connected (splitAdjacency ps) s v).
  { apply Hclass. rewrite Hperm. apply elem_of_seq. lia. }
  etrans; [by apply connected_sym|done].
Qed.

(** A transfer found by the donor search is a safe transfer. *)
Lemma seekDonor_safe (groups : list (list Tile)) minTiles gi gj t :
  seekDonor groups gi (donorsOf groups minTiles gi) = Some (gj, t) ->
  safeTransfer minTiles groups (moveTile groups gj gi t).
Proof.
  intros [Hd Hp]%seekDonor_Some.
  apply elem_of_donorsOf in Hd as (Hlt & Hne & Hsize).
  apply pickTile_Some in Hp as (Hin & (r & Hr & Hsr) & Hst).
  assert (gi < length groups).
  { destruct (decide (gi < length groups)); [done|].
    rewrite groupAt_ge in Hr by lia. by apply elem_of_nil in Hr. }
  exists gi, gj, t. split_and!; try done.
  - by exists r.
  - by apply staysConnected_components.
  - by apply moveTile_donor.
  - by apply moveTile_receiver.
  - rewrite moveTile_donor by done.
    by apply split_one_allConnected, staysConnected_components.  - rewrite moveTile_donor by done.
    by apply allConnected_edgeConnected, split_one_allConnected,
             staysConnected_components.
Qed.

(** The body of the loop over [need] changes the groups by a safe transfer
    or not at all. *)
Lemma exchangeFor_safe minTiles gi need (groups : list (list Tile)) :
  (exchangeFor minTiles gi need groups).2 = groups
  \/ safeTransfer minTiles groups (exchangeFor minTiles gi need groups).2.
Proof.
  unfold exchangeFor.
  destruct (donorsOf groups minTiles gi) as [|d ds] eqn:Ed; [by left|].
  rewrite <- Ed. simpl.
  destruct (seekDonor groups gi (donorsOf groups minTiles gi)) as [[gj t]|] eqn:E; [|by left].
  right. by apply seekDonor_safe.
Qed.

Lemma exchangeRound_safe minTiles : forall fuel pos need (groups : list (list Tile)),
  rtc (safeTransfer minTiles) groups (exchangeRound minTiles fuel pos need groups).2.
Proof.
  induction fuel as [|fuel IH]; intros pos need groups; simpl; [apply rtc_refl|].
  destruct (need !! pos) as [gi|]; [|apply rtc_refl].
  destruct (exchangeFor_safe minTiles gi need groups) as [E|Hs].
  - rewrite E. apply IH.
  - eapply rtc_l; [exact Hs|apply IH].
Qed.

Lemma exchangeRounds_safe minTiles : forall rounds need (groups : list (list Tile)),
  rtc (safeTransfer minTiles) groups (exchangeRounds minTiles rounds need groups).
Proof.
  induction rounds as [|rounds IH]; intros need groups; simpl; [apply rtc_refl|].
  destruct need as [|gi need']; [apply rtc_refl|].
  etrans; [apply (exchangeRound_safe minTiles (length (gi :: need')) 0 (gi :: need') groups)|].
  apply IH.
Qed.

(** The fuel of the loop over [need] is enough: the loop has ended by itself
    when the fuel runs out. *)
Lemma spliceOut_length gi need : length (spliceOut gi need) <= length need.
Proof.
  induction need as [|x need IH]; simpl; [done|]. case_decide; simpl; lia.
Qed.

Lemma exchangeFor_need_length minTiles gi need (groups : list (list Tile)) :
  length (exchangeFor minTiles gi need groups).1 <= length need.
Proof.
  unfold exchangeFor. destruct (donorsOf groups minTiles gi); [done|]. simpl.
  case_decide; [apply spliceOut_length|done].
Qed.

Lemma exchangeRound_fuel_enough minTiles extra : forall fuel pos need (groups : list (list Tile)),
  length need <= pos + fuel ->
  exchangeRound minTiles (fuel + extra) pos need groups
  = exchangeRound minTiles fuel pos need groups.
Proof.
  induction fuel as [|fuel IH]; intros pos need groups Hf; simpl.
  - destruct extra; [done|]. simpl. rewrite lookup_ge_None_2 by lia. done.
  - destruct (need !! pos) as [gi|]; [|done].
    apply IH. pose proof (exchangeFor_need_length minTiles gi need groups). lia.
Qed.

End Exchange.

Section GroupLists.

Context {A : Type}.

Lemma concat_lookup_split (gs : list (list A)) i l :
  gs !! i = Some l ->
  concat gs = concat (take i gs) ++ l ++ concat (drop (S i) gs).
Proof.
  intros Hl. rewrite <- (take_drop_middle gs i l Hl) at 1.
  by rewrite concat_app, concat_cons.
Qed.

Lemma concat_insert_split (gs : list (list A)) i l' :
  i < length gs ->
  concat (<[i := l']> gs) = concat (take i gs) ++ l' ++ concat (drop (S i) gs).
Proof.
  intros Hi. rewrite insert_take_drop by done. by rewrite concat_app, concat_cons.
Qed.

Lemma concat_insert_perm (gs : list (list A)) i l l' :
  gs !! i = Some l -> concat (<[i := l']> gs) ++ l ≡ₚ concat gs ++ l'.
Proof.
  intros Hl. rewrite (concat_lookup_split gs i l Hl).
  rewrite concat_insert_split by (by eapply lookup_lt_Some).
  solve_Permutation.
Qed.

Lemma pushAt_length (gs gs' : list (list A)) g x :
  pushAt gs g x = Some gs' -> length gs' = length gs.
Proof.
  unfold pushAt. destruct (gs !! g); [|done]. intros [= <-]. by rewrite length_insert.
Qed.

Lemma pushAt_perm (gs gs' : list (list A)) g x :
  pushAt gs g x = Some gs' -> concat gs' ≡ₚ concat gs ++ [x].
Proof.
  unfold pushAt. destruct (gs !! g) as [l|] eqn:E; [|done]. intros [= <-].
  pose proof (concat_insert_perm gs g l (l ++ [x]) E) as Hp.
  apply (Permutation_app_inv_r l). rewrite Hp. solve_Permutation.
Qed.

Lemma pushAt_is_Some (gs : list (list A)) g x : g < length gs -> is_Some (pushAt gs g x).
Proof.
  intros Hg. unfold pushAt. destruct (lookup_lt_is_Some_2 gs g Hg) as [l ->]. eauto.
Qed.

End GroupLists.

Section Pipeline.

Context {num : Type} `{!JSNumber num} `{!Externals num}.
Local Abbreviation Tile := (@Tile num).
Local Abbreviation Point := (@Point num).

(** ** The nearest-center search *)

Lemma nearestFrom_bound (c : Point) centerPos js : forall best bd b,
  nearestFrom c centerPos js best bd = Some b -> b = best \/ b ∈ js.
Proof.
  induction js as [|j js IH]; intros best bd b; simpl.
  - intros [= ->]. by left.
  - destruct (centerPos !! j) as [p|]; [|done].
    destruct (nlt (sqDist c p) bd); intros [->|Hb]%IH; auto;
      right; by (left || right).
Qed.

Lemma nearestFrom_is_Some (c : Point) centerPos js : forall best bd,
  (forall j, j ∈ js -> j < length centerPos) ->
  is_Some (nearestFrom c centerPos js best bd).
Proof.
  induction js as [|j js IH]; intros best bd Hjs; simpl; [eauto|].
  destruct (lookup_lt_is_Some_2 centerPos j) as [p ->]; [apply Hjs; by left|].
  destruct (nlt (sqDist c p) bd); apply IH; intros j' Hj'; apply Hjs; by right.
Qed.

Lemma nearestIndex_bound (c : Point) centerPos k b :
  0 < k -> nearestIndex c centerPos k = Some b -> b < k.
Proof.
  intros Hk [->|Hb%elem_of_seq]%nearestFrom_bound; lia.
Qed.

Lemma nearestIndex_is_Some (c : Point) centerPos k :
  k <= length centerPos -> is_Some (nearestIndex c centerPos k).
Proof.
  intros Hk. apply nearestFrom_is_Some. intros j Hj%elem_of_seq. lia.
Qed.

(** ** Folds that push tiles into groups *)

Lemma foldl_option_None {B C} (f : option B -> C -> option B) (l : list C) :
  (forall x, f None x = None) -> foldl f None l = None.
Proof. intros Hf. induction l as [|x l IH]; simpl; [done|]. by rewrite Hf. Qed.

Lemma collect_fold assign (items : list (nat * Tile)) : forall gs0 gs,
  foldl (collectTile assign) (Some gs0) items = Some gs ->
  length gs = length gs0 /\ concat gs ≡ₚ concat gs0 ++ items.*2.
Proof.
  induction items as [|it items IH]; intros gs0 gs; simpl.
  - intros [= <-]. by rewrite app_nil_r.
  - destruct (pushAt gs0 (default 0 (mjoin (assign !! it.1))) it.2) as [gs1|] eqn:E.
    + intros [Hl Hp]%IH. split.
      * rewrite Hl. by eapply pushAt_length.
      * rewrite Hp. rewrite (pushAt_perm _ _ _ _ E). by rewrite <- app_assoc.
    + by rewrite foldl_option_None.
Qed.

Lemma assign_fold gc k (pl : list Tile) : forall gs0 gs,
  foldl (assignToNearest gc k) (Some gs0) pl = Some gs ->
  length gs = length gs0 /\ concat gs ≡ₚ concat gs0 ++ pl.
Proof.
  induction pl as [|p pl IH]; intros gs0 gs; simpl.
  - intros [= <-]. by rewrite app_nil_r.
  - destruct (nearestIndex (polygonCentroid (verts p)) gc k) as [b|];
      [|by rewrite foldl_option_None].
    destruct (pushAt gs0 b p) as [gs1|] eqn:E; [|by rewrite foldl_option_None].
    intros [Hl Hp]%IH. split.
    + rewrite Hl. by eapply pushAt_length.
    + rewrite Hp. rewrite (pushAt_perm _ _ _ _ E). by rewrite <- app_assoc.
Qed.

Lemma assign_fold_is_Some gc k (pl : list Tile) : forall gs0,
  length gs0 = k -> k <= length gc -> 0 < k ->
  is_Some (foldl (assignToNearest gc k) (Some gs0) pl).
Proof.
  induction pl as [|p pl IH]; intros gs0 Hl Hgc Hk; simpl; [eauto|].
  destruct (nearestIndex_is_Some (polygonCentroid (verts p)) gc k Hgc) as [b Hb].
  rewrite Hb. pose proof (nearestIndex_bound _ _ _ _ Hk Hb).
  destruct (pushAt_is_Some gs0 b p) as [gs1 E]; [lia|]. rewrite E.
  apply IH; [|done..]. apply pushAt_length in E. lia.
Qed.

(** ** The connectivity prune *)

Lemma insertByLength_perm {B} (c : list B) sorted :
  insertByLength c sorted ≡ₚ c :: sorted.
Proof.
  induction sorted as [|c' rest IH]; simpl; [done|].
  case_decide; [done|]. rewrite IH. apply perm_swap.
Qed.

Lemma sortByLength_perm {B} (comps : list (list B)) : sortByLength comps ≡ₚ comps.
Proof.
  induction comps as [|c comps IH]; simpl; [done|].
  rewrite insertByLength_perm. by rewrite IH.
Qed.

Lemma concat_perm {B} (l1 l2 : list (list B)) : l1 ≡ₚ l2 -> concat l1 ≡ₚ concat l2.
Proof.
  induction 1 as [|x l l' _ IH|x y l|l l' l'' _ IH1 _ IH2]; simpl.
  - done.
  - by rewrite IH.
  - solve_Permutation.
  - by rewrite IH1.
Qed.

Lemma pruneGroup_spec (st : list Tile * list (list Tile)) (g : list Tile) :
  length (pruneGroup st g).2 = S (length st.2)
  /\ (pruneGroup st g).1 ++ concat (pruneGroup st g).2 ≡ₚ (st.1 ++ concat st.2) ++ g.
Proof.
  unfold pruneGroup.
  pose proof (splitConnectedComponents_perm g) as Hpart.
  set (comps := splitConnectedComponents (Some g)) in *.
  pose proof (sortByLength_perm comps) as Hs.
  case_decide as Hc; cbn [fst snd].
  - split; [rewrite length_app; simpl; lia|].
    rewrite concat_app. simpl. rewrite app_nil_r. solve_Permutation.
  - split; [rewrite length_app; simpl; lia|].
    destruct (sortByLength comps) as [|c0 rest].
    { apply Permutation_length in Hs. cbn [length] in Hs. lia. }
    change (groupAt (c0 :: rest) 0) with c0. change (drop 1 (c0 :: rest)) with rest.
    rewrite concat_app. simpl. rewrite app_nil_r.
    rewrite <- Hpart, <- (concat_perm _ _ Hs). simpl. solve_Permutation.
Qed.

Lemma prune_fold (gs : list (list Tile)) : forall st,
  length (foldl pruneGroup st gs).2 = length st.2 + length gs
  /\ (foldl pruneGroup st gs).1 ++ concat (foldl pruneGroup st gs).2
     ≡ₚ (st.1 ++ concat st.2) ++ concat gs.
Proof.
  induction gs as [|g gs IH]; intros st; simpl.
  - by rewrite Nat.add_0_r, app_nil_r.
  - destruct (IH (pruneGroup st g)) as [Hl Hp].
    destruct (pruneGroup_spec st g) as [Hl' Hp'].
    split; [lia|]. rewrite Hp, Hp'. by rewrite <- !app_assoc.
Qed.

(** ** What a successful run of the grower returns *)

Lemma grow_Some polys k minTiles s g s' :
  growConnectedGroups polys k minTiles s = Some (g, s') ->
  length (groups g) = k
  /\ pool g ++ concat (groups g) ≡ₚ polys
  /\ (k = 0 -> pool g = []).
Proof.
  unfold growConnectedGroups. cbn zeta.
  intros Hg. apply bind_Some in Hg as (qs & Hqs & Hg).
  apply bind_Some in Hg as (gs & Hgs & Hg).
  injection Hg as <- <-. simpl.
  apply collect_fold in Hgs as [Hl Hp]. rewrite length_replicate in Hl.
  destruct (prune_fold gs ([], [])) as [Hl' Hp']. simpl in *.
  split_and!.
  - lia.
  - rewrite Hp', Hp. clear. induction k as [|k IH]; simpl.
    + induction polys as [|p polys IH] using rev_ind; [done|].
      rewrite imap_app, fmap_app. simpl. by rewrite IH.
    + done.
  - intros ->. destruct gs; [done|simpl in Hl; lia].
Qed.

End Pipeline.

Section Rebalance.

Context {num : Type} `{!JSNumber num} `{!Externals num}.
Local Abbreviation Tile := (@Tile num).
Local Abbreviation Point := (@Point num).

Lemma removeTile_notin (l : list Tile) t : tid t ∉ tid <$> l -> removeTile l t = l.
Proof.
  unfold removeTile. induction l as [|x l IH]; intros Hn; [done|].
  rewrite filter_cons. rewrite fmap_cons, not_elem_of_cons in Hn. destruct Hn as [Hx Hl].
  case_decide as Hs.
  - f_equal. by apply IH.
  - exfalso. apply Hs. unfold sameRef. apply bool_decide_eq_false. congruence.
Qed.

Lemma removeTile_perm (l : list Tile) t :
  NoDup (tid <$> l) -> t ∈ l -> l ≡ₚ t :: removeTile l t.
Proof.
  induction l as [|x l IH]; intros Hnd Ht; [by apply elem_of_nil in Ht|].
  rewrite fmap_cons in Hnd. apply NoDup_cons in Hnd as [Hx Hnd].
  unfold removeTile. rewrite filter_cons. fold (removeTile l t).
  destruct (decide (tid x = tid t)) as [Heq|Hne].
  - assert (t = x) as ->.
    { apply elem_of_cons in Ht as [->|Ht]; [done|]. exfalso. apply Hx. rewrite Heq.
      by apply list_elem_of_fmap_2. }
    rewrite removeTile_notin by done.
    case_decide as Hs; [|done]. unfold sameRef in Hs. by apply bool_decide_eq_false in Hs.
  - apply elem_of_cons in Ht as [->|Ht]; [done|].
    case_decide as Hs.
    + rewrite (IH Hnd Ht) at 1. apply perm_swap.
    + exfalso. apply Hs. unfold sameRef. by apply bool_decide_eq_false.
Qed.

Lemma groupAt_elem_lookup {A} (gs : list (list A)) i x :
  x ∈ groupAt gs i -> gs !! i = Some (groupAt gs i).
Proof.
  unfold groupAt. destruct (gs !! i); [done|]. by intros ?%elem_of_nil.
Qed.

Lemma NoDup_concat_lookup (gs : list (list Tile)) i l :
  NoDup (tid <$> concat gs) -> gs !! i = Some l -> NoDup (tid <$> l).
Proof.
  intros Hnd Hl. rewrite (concat_lookup_split gs i l Hl), !fmap_app in Hnd.
  apply NoDup_app in Hnd as (_ & _ & Hnd). by apply NoDup_app in Hnd as (Hnd & _ & _).
Qed.

Lemma safeTransfer_length minTiles (groups groups' : list (list Tile)) :
  safeTransfer minTiles groups groups' -> length groups' = length groups.
Proof. intros (gi & gj & t & _ & _ & _ & _ & _ & -> & _). apply moveTile_length. Qed.

Lemma safeTransfer_perm minTiles (groups groups' : list (list Tile)) :
  NoDup (tid <$> concat groups) -> safeTransfer minTiles groups groups' ->
  concat groups' ≡ₚ concat groups.
Proof.
  intros Hnd (gi & gj & t & Hne & _ & Ht & (r & Hr & _) & _ & -> & _).
  pose proof (groupAt_elem_lookup _ _ _ Ht) as Hj.
  pose proof (groupAt_elem_lookup _ _ _ Hr) as Hi.
  set (lj := groupAt groups gj) in *. set (li := groupAt groups gi) in *.
  unfold moveTile. fold lj.
  set (groups1 := <[gj := removeTile lj t]> groups).
  assert (Hi1 : groups1 !! gi = Some li).
  { unfold groups1. by rewrite list_lookup_insert_ne. }
  rewrite (groupAt_lookup _ _ _ Hi1).
  pose proof (concat_insert_perm groups gj lj (removeTile lj t) Hj) as H1.
  fold groups1 in H1.
  pose proof (concat_insert_perm groups1 gi li (li ++ [t]) Hi1) as H2.
  pose proof (removeTile_perm lj t (NoDup_concat_lookup _ _ _ Hnd Hj) Ht) as H3.
  apply (Permutation_app_inv_r li). rewrite H2.
  apply (Permutation_app_inv_r (removeTile lj t)).
  transitivity ((concat groups1 ++ lj) ++ li).
  - rewrite H3 at 2. solve_Permutation.
  - rewrite H1. solve_Permutation.
Qed.

Lemma exchangeRounds_length minTiles rounds need (groups : list (list Tile)) :
  length (exchangeRounds minTiles rounds need groups) = length groups.
Proof.
  pose proof (exchangeRounds_safe minTiles rounds need groups) as Hr.
  induction Hr as [|x y z Hxy _ IH]; [done|].
  rewrite IH. by eapply safeTransfer_length.
Qed.

Lemma exchangeRounds_perm minTiles rounds need (groups : list (list Tile)) :
  NoDup (tid <$> concat groups) ->
  concat (exchangeRounds minTiles rounds need groups) ≡ₚ concat groups.
Proof.
  pose proof (exchangeRounds_safe minTiles rounds need groups) as Hr.
  induction Hr as [|x y z Hxy _ IH]; intros Hnd; [done|].
  pose proof (safeTransfer_perm _ _ _ Hnd Hxy) as Hp.
  rewrite IH; [done|]. by rewrite Hp.
Qed.

(** The rebalancer returns as many groups as it was given, holding the tiles
    of the groups and of the pool. *)
Lemma rebalance_Some (groups : list (list Tile)) pool idxAdj minTiles targetCounts out :
  rebalanceBoundaries groups pool idxAdj minTiles targetCounts = Some out ->
  length out = length groups
  /\ (NoDup (tid <$> (concat groups ++ pool)) -> concat out ≡ₚ concat groups ++ pool).
Proof.
  unfold rebalanceBoundaries. cbn zeta. intros Hr.
  apply bind_Some in Hr as (groups1 & H1 & Hr).
  apply (inj Some) in Hr. subst out.
  apply assign_fold in H1 as [Hl Hp]. split.
  - by rewrite exchangeRounds_length.
  - intros Hnd. rewrite exchangeRounds_perm; [done|]. by rewrite Hp.
Qed.

Lemma rebalance_is_Some (groups : list (list Tile)) pool idxAdj minTiles targetCounts :
  0 < length groups \/ pool = [] ->
  is_Some (rebalanceBoundaries groups pool idxAdj minTiles targetCounts).
Proof.
  intros Hk. unfold rebalanceBoundaries. cbn zeta.
  assert (is_Some (foldl (assignToNearest (centroidOfGroup <$> groups) (length groups))
                         (Some groups) pool)) as [groups1 ->]; [|by eexists].
  destruct Hk as [Hk| ->]; [|by eexists].
  apply assign_fold_is_Some; [done| |done]. by rewrite length_fmap.
Qed.

(** C2. Whenever the grower hands its groups to the rebalancer, with the
    same group count [k] as target, the rebalancer returns, without error,
    exactly [k] groups. *)
Theorem rebalance_group_count (polys : list Tile) k minTiles s g s' :
  growConnectedGroups polys k minTiles s = Some (g, s') ->
  exists out,
    rebalanceBoundaries (groups g) (pool g) (idxAdj g) minTiles k = Some out
    /\ length out = k.
Proof.
  intros (Hl & _ & Hp)%grow_Some.
  destruct (rebalance_is_Some (groups g) (pool g) (idxAdj g) minTiles k) as [out Hout].
  { destruct k; [right; by apply Hp|left; lia]. }
  exists out. split; [done|]. apply rebalance_Some in Hout as [-> _]. done.
Qed.

End Rebalance.

Section CountRepair.

Context {num : Type} `{!JSNumber num} `{!Externals num}.
Local Abbreviation Tile := (@Tile num).
Local Abbreviation Point := (@Point num).

Lemma maxByLength_spec {A} (groups : list (list A)) idxs : forall best b,
  maxByLength groups idxs best = Some b ->
  (Some b = best \/ b ∈ idxs)
  /\ (forall j, Some j = best \/ j ∈ idxs ->
        length (groupAt groups j) <= length (groupAt groups b)).
Proof.
  induction idxs as [|i idxs IH]; intros best b; simpl.
  - intros ->. split; [by left|]. intros j [[= ->]|?%elem_of_nil]; done.
  - destruct best as [b0|].
    + case_decide as Hlt; intros [Hin Hmax]%IH.
      * split.
        -- destruct Hin as [[= ->]|?]; right; [by left|by right].
        -- intros j [[= ->]|[->|Hj]%elem_of_cons].
           ++ specialize (Hmax i (or_introl eq_refl)). lia.
           ++ apply Hmax. by left.
           ++ apply Hmax. by right.
      * split.
        -- destruct Hin as [?|?]; [by left|right; by right].
        -- intros j [[= ->]|[->|Hj]%elem_of_cons].
           ++ apply Hmax. by left.
           ++ specialize (Hmax b0 (or_introl eq_refl)). lia.
           ++ apply Hmax. by right.
    + intros [Hin Hmax]%IH. split.
      * destruct Hin as [[= ->]|?]; right; [by left|by right].
      * intros j [?|[->|Hj]%elem_of_cons]; [done| |].
        -- apply Hmax. by left.
        -- apply Hmax. by right.
Qed.

Lemma maxByLength_is_Some {A} (groups : list (list A)) idxs best :
  is_Some best \/ idxs ≠ [] -> is_Some (maxByLength groups idxs best).
Proof.
  revert best. induction idxs as [|i idxs IH]; intros best; simpl.
  - intros [?|?]; done.
  - intros _. destruct best as [b0|]; [case_decide|]; apply IH; left; eauto.
Qed.

Lemma largestIdx_spec {A} (groups : list (list A)) b :
  largestIdx groups = Some b ->
  b < length groups
  /\ forall g, g ∈ groups -> length g <= length (groupAt groups b).
Proof.
  unfold largestIdx. intros [Hin Hmax]%maxByLength_spec. split.
  - destruct Hin as [?|Hb%elem_of_seq]; [done|lia].
  - intros g [j Hj]%list_elem_of_lookup_1.
    rewrite <- (groupAt_lookup _ _ _ Hj). apply Hmax. right.
    apply elem_of_seq. apply lookup_lt_Some in Hj. lia.
Qed.

Lemma largestIdx_is_Some {A} (groups : list (list A)) :
  groups ≠ [] -> is_Some (largestIdx groups).
Proof.
  intros Hne. apply maxByLength_is_Some. right. destruct groups; [done|]. done.
Qed.

Lemma repairLoop_spec minTiles : forall n (validGroups : list (list Tile)),
  validGroups ≠ [] ->
  exists out,
    repairLoop n minTiles validGroups = Some out
    /\ rtc (bisectLargest minTiles) validGroups out
    /\ (length validGroups + n <= length out
        \/ forall g, g ∈ out -> length g <= minTiles * 2).
Proof.
  induction n as [|n IH]; intros validGroups Hne; simpl.
  - exists validGroups. split_and!; [done|apply rtc_refl|left; lia].
  - destruct (largestIdx_is_Some validGroups Hne) as [i Hi]. rewrite Hi.
    destruct (largestIdx_spec validGroups i Hi) as [Hlt Hmax].
    case_decide as Hsmall.
    + exists validGroups. split_and!; [done|apply rtc_refl|].
      right. intros g Hg. specialize (Hmax g Hg). lia.
    + set (largest := groupAt validGroups i) in *.
      set (next := <[i := drop (length largest / 2) largest]> validGroups
                   ++ [take (length largest / 2) largest]).
      destruct (IH next) as (out & Hout & Hsteps & Hend).
      { unfold next. by destruct (<[i:=_]> validGroups). }
      exists out. split_and!; [done| |].
      * eapply rtc_l; [|done]. exists i. split_and!; [done|fold largest; lia|done].
      * destruct Hend as [Hlen|Hall]; [left|by right].
        unfold next in Hlen. rewrite length_app, length_insert in Hlen. simpl in Hlen. lia.
Qed.

Lemma bisectLargest_perm minTiles (gs gs' : list (list Tile)) :
  bisectLargest minTiles gs gs' -> concat gs' ≡ₚ concat gs /\ length gs' = S (length gs).
Proof.
  intros (i & Hi & _ & ->). apply largestIdx_spec in Hi as [Hlt _].
  destruct (lookup_lt_is_Some_2 gs i Hlt) as [l Hl].
  rewrite (groupAt_lookup _ _ _ Hl). split.
  - rewrite concat_app. simpl. rewrite app_nil_r.
    apply (Permutation_app_inv_r l).
    pose proof (concat_insert_perm gs i l (drop (length l / 2) l) Hl) as Hp.
    transitivity ((concat (<[i:=drop (length l / 2) l]> gs) ++ l) ++ take (length l / 2) l);
      [solve_Permutation|].
    rewrite Hp. rewrite <- (take_drop (length l / 2) l) at 5. solve_Permutation.
  - rewrite length_app, length_insert. simpl. lia.
Qed.

Lemma firstLargest_unique {A} (gs : list (list A)) i j :
  firstLargest gs i -> firstLargest gs j -> i = j.
Proof.
  intros (Hi & Hmi & Hfi) (Hj & Hmj & Hfj).
  destruct (lt_eq_lt_dec i j) as [[Hlt| ->]|Hlt]; [|done|].
  - specialize (Hfj i Hlt). specialize (Hmi j Hj). lia.
  - specialize (Hfi j Hlt). specialize (Hmj i Hi). lia.
Qed.

Lemma maxByLength_first {A} (gs : list (list A)) : forall n a b,
  b < a ->
  (forall j, j < a -> length (groupAt gs j) <= length (groupAt gs b)) ->
  (forall j, j < b -> length (groupAt gs j) < length (groupAt gs b)) ->
  exists i,
    maxByLength gs (seq a n) (Some b) = Some i
    /\ i < a + n
    /\ (forall j, j < a + n -> length (groupAt gs j) <= length (groupAt gs i))
    /\ (forall j, j < i -> length (groupAt gs j) < length (groupAt gs i)).
Proof.
  induction n as [|n IH]; intros a b Hb Hmax Hfirst; simpl.
  - exists b. split_and!; [done|lia| |done]. intros j Hj. apply Hmax. lia.
  - case_decide as Hlt.
    + destruct (IH (S a) a) as (i & Hi & Hia & Hm & Hf); [lia| | |].
      * intros j Hj. destruct (decide (j = a)) as [->|Hne]; [done|].
        specialize (Hmax j ltac:(lia)). lia.
      * intros j Hj. specialize (Hmax j Hj). lia.
      * exists i. split_and!; [done|lia| |done]. intros j Hj. apply Hm. lia.
    + destruct (IH (S a) b) as (i & Hi & Hia & Hm & Hf); [lia| |done|].
      * intros j Hj. destruct (decide (j = a)) as [->|Hne]; [lia|].
        apply Hmax. lia.
      * exists i. split_and!; [done|lia| |done]. intros j Hj. apply Hm. lia.
Qed.

(** [_.maxBy] over the indices picks the first group of maximal length. *)
Lemma largestIdx_first {A} (gs : list (list A)) i :
  largestIdx gs = Some i <-> firstLargest gs i.
Proof.
  assert (Hex : gs ≠ [] -> exists i0, largestIdx gs = Some i0 /\ firstLargest gs i0).
  { intros Hne. unfold largestIdx. destruct gs as [|g gs]; [done|].
    change (seq 0 (length (g :: gs))) with (0 :: seq 1 (length gs)).
    cbn [maxByLength].
    destruct (maxByLength_first (g :: gs) (length gs) 1 0) as (i0 & Hi0 & Hlt & Hm & Hf).
    - lia.
    - intros j Hj. assert (j = 0) as -> by lia. done.
    - intros j Hj. lia.
    - exists i0. split; [done|]. split_and!; [simpl; lia| |done].
      intros j Hj. apply Hm. simpl in Hj. lia. }
  split.
  - intros Hi. destruct Hex as (i0 & Hi0 & Hf).
    { intros ->. discriminate Hi. }
    congruence.
  - intros Hf. destruct Hex as (i0 & Hi0 & Hf0).
    { intros ->. destruct Hf as [Hlt _]. simpl in Hlt. lia. }
    by rewrite (firstLargest_unique gs i i0 Hf Hf0).
Qed.

Lemma repairLoop_exact minTiles numGroups : forall n (validGroups : list (list Tile)),
  validGroups ≠ [] ->
  n = numGroups - length validGroups ->
  exists out,
    repairLoop n minTiles validGroups = Some out
    /\ rtc (bisectFirstLargest numGroups minTiles) validGroups out
    /\ repairDone numGroups minTiles out.
Proof.
  induction n as [|n IH]; intros validGroups Hne Hn; simpl.
  - exists validGroups. split_and!; [done|apply rtc_refl|left; lia].
  - destruct (largestIdx_is_Some validGroups Hne) as [i Hi]. rewrite Hi.
    destruct (largestIdx_spec validGroups i Hi) as [Hlt Hmax].
    case_decide as Hsmall.
    + exists validGroups. split_and!; [done|apply rtc_refl|].
      right. intros g Hg. specialize (Hmax g Hg). lia.
    + set (largest := groupAt validGroups i) in *.
      set (next := <[i := drop (length largest / 2) largest]> validGroups
                   ++ [take (length largest / 2) largest]).
      assert (Hln : length next = S (length validGroups)).
      { unfold next. rewrite length_app, length_insert. simpl. lia. }
      destruct (IH next) as (out & Hout & Hsteps & Hend).
      { unfold next. by destruct (<[i:=_]> validGroups). }
      { lia. }
      exists out. split_and!; [done| |done].
      eapply rtc_l; [|done]. split; [lia|]. exists i.
      split_and!; [by apply largestIdx_first|fold largest; lia|done].
Qed.

(** A run of the described procedure that has nothing left to do ends in
    what the loop returns. *)
Lemma repairLoop_complete minTiles numGroups (validGroups out : list (list Tile)) :
  rtc (bisectFirstLargest numGroups minTiles) validGroups out ->
  validGroups ≠ [] ->
  repairDone numGroups minTiles out ->
  repairLoop (numGroups - length validGroups) minTiles validGroups = Some out.
Proof.
  induction 1 as [gs|gs gs1 out Hstep Hrest IH]; intros Hne Hdone.
  - destruct Hdone as [Hlen|Hall].
    + by replace (numGroups - length gs) with 0 by lia.
    + destruct (numGroups - length gs) as [|n]; [done|]. simpl.
      destruct (largestIdx_is_Some gs Hne) as [i Hi]. rewrite Hi.
      apply largestIdx_spec in Hi as [Hlt _].
      destruct (lookup_lt_is_Some_2 gs i Hlt) as [l Hl].
      rewrite (groupAt_lookup _ _ _ Hl).
      rewrite decide_True; [done|]. apply Hall. by eapply list_elem_of_lookup_2.
  - destruct Hstep as (Hlen & i & Hi & Hbig & ->).
    apply largestIdx_first in Hi.
    destruct (numGroups - length gs) as [|n] eqn:En; [lia|]. simpl. rewrite Hi.
    rewrite decide_False by lia.
    rewrite <- IH; [|by destruct (<[i:=_]> gs)|done].
    f_equal. rewrite length_app, length_insert. simpl. lia.
Qed.

(** C4 (amended). The count repair belongs to [forceAssignWithConnectivity]:
    started on a list of valid groups that is not empty, its loop ends
    without error; it is a run of bisections, each made while there are
    fewer than [numGroups] groups, of the first largest group, which has
    more than [2 * minTiles] tiles and whose first [floor(length / 2)] tiles
    become a new last group; at the end the count is met or the largest
    group has at most [2 * minTiles] tiles; and every such run ends in what
    the loop returns, so the loop makes no bisection more and none less.
    The rebalancer does no count repair: it returns as many groups as it was
    given. *)
Theorem countRepair_bisects (validGroups : list (list Tile)) numGroups minTiles :
  validGroups ≠ [] ->
  (exists out,
     countRepair validGroups numGroups minTiles = Some out
     /\ rtc (bisectFirstLargest numGroups minTiles) validGroups out
     /\ (numGroups <= length out \/ forall g, g ∈ out -> length g <= minTiles * 2))
  /\ (forall out',
        rtc (bisectFirstLargest numGroups minTiles) validGroups out' ->
        (numGroups <= length out' \/ forall g, g ∈ out' -> length g <= minTiles * 2) ->
        countRepair validGroups numGroups minTiles = Some out')
  /\ (forall (groups : list (list Tile)) pool idxAdj targetCounts out,
        rebalanceBoundaries groups pool idxAdj minTiles targetCounts = Some out ->
        length out = length groups).
Proof.
  intros Hne. split_and!.
  - destruct (repairLoop_exact minTiles numGroups (numGroups - length validGroups)
                validGroups Hne eq_refl) as (out & Hout & Hsteps & Hend).
    exists out. by split_and!.
  - intros out' Hsteps Hend. by apply repairLoop_complete.
  - intros groups pool idxAdj targetCounts out Hr. by apply rebalance_Some in Hr as [? _].
Qed.

End CountRepair.

Section Seeder.

Context {num : Type} `{!JSNumber num} `{!Externals num}.
Local Abbreviation Tile := (@Tile num).
Local Abbreviation Point := (@Point num).

Lemma jitterCenters_length n : forall s, length (jitterCenters n s).1 = n.
Proof. induction n as [|n IH]; intros s; simpl; [done|]. by rewrite IH. Qed.

Lemma jitterCenters_draws n : forall s, (jitterCenters n s).2 = s + 2 * n.
Proof. induction n as [|n IH]; intros s; simpl; [lia|]. rewrite IH. lia. Qed.

Lemma acceptRaw_length (hull : list Point) minX minY n raw : forall centers,
  length centers <= n -> length (acceptRaw hull minX minY n raw centers) <= n.
Proof.
  induction raw as [|p raw IH]; intros centers Hc; simpl; [done|].
  case_decide; [|done]. apply IH.
  destruct (polygonContains _ _); [rewrite length_app; simpl; lia|lia].
Qed.

(** The top-up never exceeds [n] centers, draws two numbers per attempt, and
    stops short of [n] only when the whole budget is spent. *)
Lemma topUp_spec (hull : list Point) minX maxX minY maxY n : forall budget centers s,
  length centers <= n ->
  let r := topUp hull minX maxX minY maxY n budget centers s in
  length centers <= length r.1 <= n
  /\ r.2 <= s + 2 * budget
  /\ (length r.1 < n -> r.2 = s + 2 * budget).
Proof.
  induction budget as [|budget IH]; intros centers s Hc; simpl.
  - split_and!; [lia..|]. intros _. lia.
  - case_decide as Hlt; simpl; [|split_and!; lia].
    set (centers' := if polygonContains _ _ then _ else _).
    assert (Hc' : length centers <= length centers' <= n).
    { unfold centers'. destruct (polygonContains _ _); [rewrite length_app; simpl|]; lia. }
    destruct (IH centers' (S (S s)) ltac:(lia)) as (H1 & H2 & H3).
    split_and!; [lia..|]. intros Hn. rewrite H3 by done. lia.
Qed.

(** C8 (amended). The seeder returns at most [n] centers.  When the hull is
    missing or has fewer than three points it returns exactly [n] jittered
    centers.  Otherwise it returns the centers accepted from the Poisson
    sample topped up by rejection sampling with a budget of 5000 attempts,
    without any jitter fallback: the result can be shorter than [n], and is
    so only after all 5000 attempts have been made. *)
Theorem generateCenters_count (n : nat) (polygons : list Tile) (s : nat) :
  length (generateCentersInPolygons n polygons s).1 <= n
  /\ (hullDegenerate polygons ->
      generateCentersInPolygons n polygons s = jitterCenters n s
      /\ length (generateCentersInPolygons n polygons s).1 = n)
  /\ (~ hullDegenerate polygons ->
      exists hull raw,
        polygonHull (concat (verts <$> polygons)) = Some hull
        /\ raw = poissonFill s (d3min hull.*1) (d3max hull.*1) (d3min hull.*2) (d3max hull.*2)
        /\ generateCentersInPolygons n polygons s
           = topUp hull (d3min hull.*1) (d3max hull.*1) (d3min hull.*2) (d3max hull.*2) n 5000
                   (acceptRaw hull (d3min hull.*1) (d3min hull.*2) n raw.1 []) raw.2
        /\ (generateCentersInPolygons n polygons s).2 <= raw.2 + 2 * 5000
        /\ (length (generateCentersInPolygons n polygons s).1 < n ->
            (generateCentersInPolygons n polygons s).2 = raw.2 + 2 * 5000)).
Proof.
  unfold hullDegenerate, generateCentersInPolygons.
  destruct (polygonHull (concat (verts <$> polygons))) as [hull|].
  2:{ split_and!; [by rewrite jitterCenters_length| |by intros []].
      intros _. by rewrite jitterCenters_length. }
  case_decide as Hdeg.
  { split_and!; [by rewrite jitterCenters_length| |by intros []].
    intros _. by rewrite jitterCenters_length. }
  cbn zeta.
  set (minX := d3min hull.*1). set (maxX := d3max hull.*1).
  set (minY := d3min hull.*2). set (maxY := d3max hull.*2).
  set (raw := poissonFill s minX maxX minY maxY).
  pose proof (acceptRaw_length hull minX minY n raw.1 [] ltac:(simpl; lia)) as Ha.
  destruct (topUp_spec hull minX maxX minY maxY n 5000 _ raw.2 Ha) as (H1 & H2 & H3).
  split_and!; [lia|by intros ?|].
  intros _. exists hull, raw. split_and!; done.
Qed.

End Seeder.

Section Growth.

Context {num : Type} `{!JSNumber num} `{!Externals num}.
Local Abbreviation Tile := (@Tile num).
Local Abbreviation Point := (@Point num).

Lemma countNone_mark assign idx g :
  assign !! idx = Some None -> S (countNone (<[idx := Some g]> assign)) = countNone assign.
Proof.
  unfold countNone. revert idx.
  induction assign as [|a assign IH]; intros [|idx] Ha; simplify_eq/=.
  - rewrite !filter_cons. repeat case_decide; simplify_eq/=; done.
  - specialize (IH idx Ha). rewrite !filter_cons. repeat case_decide; simplify_eq/=; lia.
Qed.

Lemma countNone_replicate n : countNone (replicate n None) = n.
Proof.
  unfold countNone. induction n as [|n IH]; [done|].
  change (replicate (S n) None) with (@None nat :: replicate n None).
  rewrite filter_cons. case_decide; simpl; [by f_equal|done].
Qed.

Lemma assignBelow_insert k assign idx g :
  g < k -> assignBelow k assign -> assignBelow k (<[idx := Some g]> assign).
Proof.
  intros Hg Ha. unfold assignBelow in *. rewrite Forall_lookup in *.
  intros i a Hi. destruct (decide (idx = i)) as [->|Hne].
  - destruct (decide (i < length assign)).
    + rewrite list_lookup_insert_eq in Hi by done. simplify_eq.
      by intros g' [= <-].
    + rewrite list_insert_ge in Hi by lia. by eapply Ha.
  - rewrite list_lookup_insert_ne in Hi by done. by eapply Ha.
Qed.

Lemma growKeeps_refl k a p : growKeeps k a p a p.
Proof. split_and!; auto. Qed.

Lemma growKeeps_trans k a0 p0 a1 p1 a2 p2 :
  growKeeps k a0 p0 a1 p1 -> growKeeps k a1 p1 a2 p2 -> growKeeps k a0 p0 a2 p2.
Proof.
  intros (H1 & H2 & H3 & H4) (H1' & H2' & H3' & H4'). split_and!; [congruence|auto|lia|].
  intros Hp. destruct (H4' Hp) as [Hp1|?]; [|right; lia].
  destruct (H4 Hp1); [by left|right; lia].
Qed.

Lemma growTile_keeps idxAdj k g (st : list (option nat) * list nat * bool) idx :
  g < k ->
  growKeeps k st.1.1 st.2 (growTile idxAdj g st idx).1.1 (growTile idxAdj g st idx).2.
Proof.
  intros Hg. destruct st as [[assign front] progress]. unfold growTile. simpl.
  destruct (isUnassigned assign idx) eqn:E.
  - apply bool_decide_eq_true in E. pose proof (countNone_mark assign idx g E).
    split_and!; [by rewrite length_insert|by apply assignBelow_insert|lia|].
    intros _. right. lia.
  - apply growKeeps_refl.
Qed.

Lemma growGroup_keeps idxAdj k (st : list (option nat) * list (list nat) * bool) g :
  g < k ->
  growKeeps k st.1.1 st.2 (growGroup idxAdj st g).1.1 (growGroup idxAdj st g).2.
Proof.
  intros Hg. destruct st as [[assign fronts] progress]. unfold growGroup. simpl.
  generalize (groupAt fronts g). intros frontier.
  change (growKeeps k (assign, @nil nat, progress).1.1 (assign, @nil nat, progress).2
    (foldl (growTile idxAdj g) (assign, [], progress) frontier).1.1
    (foldl (growTile idxAdj g) (assign, [], progress) frontier).2).
  generalize (assign, @nil nat, progress) at 1 2 3 4 as st.
  induction frontier as [|idx frontier IH]; intros st; simpl; [apply growKeeps_refl|].
  eapply growKeeps_trans; [by apply growTile_keeps|apply IH].
Qed.

Lemma growRound_keeps idxAdj k assign fronts :
  growKeeps k assign false (growRound idxAdj k assign fronts).1.1
            (growRound idxAdj k assign fronts).2.
Proof.
  unfold growRound.
  assert (Hgen : forall l (st : list (option nat) * list (list nat) * bool),
    (forall g, g ∈ l -> g < k) ->
    growKeeps k st.1.1 st.2 (foldl (growGroup idxAdj) st l).1.1
              (foldl (growGroup idxAdj) st l).2).
  { induction l as [|g l IH]; intros st Hl; simpl; [apply growKeeps_refl|].
    eapply growKeeps_trans; [apply growGroup_keeps, Hl; by left|].
    apply IH. intros g' Hg'. apply Hl. by right. }
  apply (Hgen (seq 0 k) (assign, fronts, false)).
  intros g Hg%elem_of_seq. lia.
Qed.

(** The fuel of the growth loop is enough: with more rounds than there are
    unassigned tiles the loop has ended by itself. *)
Lemma grow_fuel_enough idxAdj k extra : forall fuel assign fronts,
  countNone assign < fuel ->
  growLoop idxAdj k (fuel + extra) assign fronts = growLoop idxAdj k fuel assign fronts.
Proof.
  induction fuel as [|fuel IH]; intros assign fronts Hc; [lia|]. simpl.
  destruct (growRound_keeps idxAdj k assign fronts) as (_ & _ & Hle & Hp).
  destruct (growRound idxAdj k assign fronts) as [[a' fr'] p']. simpl in *.
  destruct p'; [|done]. apply IH.
  destruct (Hp eq_refl) as [?|?]; [done|lia].
Qed.

Lemma growLoop_below idxAdj k : forall fuel assign fronts,
  assignBelow k assign -> assignBelow k (growLoop idxAdj k fuel assign fronts).
Proof.
  induction fuel as [|fuel IH]; intros assign fronts Ha; simpl; [done|].
  destruct (growRound_keeps idxAdj k assign fronts) as (_ & Hb & _ & _).
  destruct (growRound idxAdj k assign fronts) as [[a' fr'] p']. simpl in *.
  destruct p'; [apply IH|]; auto.
Qed.

Lemma assignBelow_replicate k n : assignBelow k (replicate n None).
Proof. apply Forall_replicate. done. Qed.

(** ** When the grower returns *)

Lemma enqueue_fold_is_Some centerPos k (items : list (nat * Tile)) : forall qs,
  0 < k -> k <= length centerPos -> length qs = k ->
  exists qs', foldl (enqueueTile centerPos k) (Some qs) items = Some qs' /\ length qs' = k.
Proof.
  induction items as [|it items IH]; intros qs Hk Hc Hl; simpl; [eauto|].
  destruct (nearestIndex_is_Some (polygonCentroid (verts it.2)) centerPos k Hc) as [b Hb].
  rewrite Hb. pose proof (nearestIndex_bound _ _ _ _ Hk Hb).
  destruct (pushAt_is_Some qs b it.1) as [qs1 E]; [lia|]. rewrite E.
  apply IH; [done..|]. apply pushAt_length in E. lia.
Qed.

Lemma collect_fold_is_Some assign k (items : list (nat * Tile)) : forall gs,
  0 < k -> assignBelow k assign -> length gs = k ->
  is_Some (foldl (collectTile assign) (Some gs) items).
Proof.
  induction items as [|it items IH]; intros gs Hk Ha Hl; simpl; [eauto|].
  assert (Hg : default 0 (mjoin (assign !! it.1)) < k).
  { destruct (assign !! it.1) as [[g|]|] eqn:E; simpl; [|done..].
    unfold assignBelow in Ha. rewrite Forall_lookup in Ha. by eapply Ha. }
  destruct (pushAt_is_Some gs _ it.2 ltac:(rewrite Hl; exact Hg)) as [gs1 E]. rewrite E.
  apply IH; [done..|]. apply pushAt_length in E. lia.
Qed.

(** The grower returns when it has a center for each of the [k >= 1]
    groups, and on the empty tile list. *)
Lemma grow_is_Some (polys : list Tile) k minTiles s :
  polys = [] \/ (0 < k /\ length (generateCentersInPolygons k polys s).1 = k) ->
  is_Some (growConnectedGroups polys k minTiles s).
Proof.
  intros Hc. unfold growConnectedGroups. cbn zeta.
  destruct Hc as [->|[Hk Hlen]]; [simpl; eauto|].
  destruct (enqueue_fold_is_Some
    ((fun c => (cx c, cy c)) <$> (generateCentersInPolygons k polys s).1) k
    (imap pair polys) (replicate k []) Hk) as (qs & -> & Hqs).
  { rewrite length_fmap. lia. }
  { apply length_replicate. }
  cbn [mbind option_bind].
  destruct (collect_fold_is_Some
    (growLoop (buildAdjacency polys) k (S (length polys))
       (replicate (length polys) None) (setOf <$> qs)) k (imap pair polys)
    (replicate k []) Hk) as (gs & ->).
  { apply growLoop_below, assignBelow_replicate. }
  { apply length_replicate. }
  cbn [mbind option_bind]. eauto.
Qed.

(** Without a center for each group, or with [k = 0], the grower raises a
    [TypeError] on the first tile. *)
Lemma nearestFrom_None (c : Point) centerPos js : forall best bd,
  (exists j, j ∈ js /\ length centerPos <= j) ->
  nearestFrom c centerPos js best bd = None.
Proof.
  induction js as [|j js IH]; intros best bd (j' & Hj' & Hlen); [by apply elem_of_nil in Hj'|].
  simpl. destruct (centerPos !! j) as [p|] eqn:E; [|done].
  apply elem_of_cons in Hj' as [->|Hj'].
  { apply lookup_lt_Some in E. lia. }
  destruct (nlt _ _); apply IH; eauto.
Qed.

Lemma grow_None (polys : list Tile) k minTiles s :
  polys ≠ [] ->
  k = 0 \/ length (generateCentersInPolygons k polys s).1 < k ->
  growConnectedGroups polys k minTiles s = None.
Proof.
  intros Hne Hc. unfold growConnectedGroups. cbn zeta.
  destruct polys as [|p polys]; [done|].
  assert (E : foldl (enqueueTile
      ((fun c => (cx c, cy c)) <$> (generateCentersInPolygons k (p :: polys) s).1) k)
      (Some (replicate k [])) (imap pair (p :: polys)) = None); [|by rewrite E].
  simpl.
  assert (E : match nearestIndex (polygonCentroid (verts p))
      ((fun c => (cx c, cy c)) <$> (generateCentersInPolygons k (p :: polys) s).1) k with
    | Some best => pushAt (replicate k []) best 0
    | None => None end = None).
  { destruct Hc as [->|Hlt].
    - done.
    - unfold nearestIndex. rewrite nearestFrom_None; [done|].
      exists (length (generateCentersInPolygons k (p :: polys) s).1).
      split; [apply elem_of_seq; lia|by rewrite length_fmap]. }
  rewrite E. by apply foldl_option_None.
Qed.

End Growth.

Section Pipeline.

Context {num : Type} `{!JSNumber num} `{!Externals num}.
Local Abbreviation Tile := (@Tile num).

(** The pipeline returns when the grower does: on the empty tile list, and
    when the seeder has a center for each of the [k >= 1] groups. *)
Lemma pipeline_is_Some (polys : list Tile) k minTiles s :
  polys = [] \/ (0 < k /\ length (generateCentersInPolygons k polys s).1 = k) ->
  is_Some (partitionIntoGroups polys k minTiles s).
Proof.
  intros Hc. unfold partitionIntoGroups.
  destruct (grow_is_Some polys k minTiles s Hc) as [[g s'] Hg]. rewrite Hg.
  cbn [mbind option_bind fst].
  apply grow_Some in Hg as (Hl & _ & Hp).
  apply rebalance_is_Some. destruct k; [right; by apply Hp|left; lia].
Qed.

(** C1. When the tiles of the input list are distinct objects, the groups
    returned by the grower followed by the rebalancer hold every input tile
    exactly once: their concatenation is a permutation of the input.  The
    pipeline does return groups on the empty tile list and whenever the
    seeder has a center for each of the [k >= 1] groups. *)
Theorem pipeline_partition (polys : list Tile) k minTiles s :
  NoDup (tid <$> polys) ->
  (forall out, partitionIntoGroups polys k minTiles s = Some out -> concat out ≡ₚ polys)
  /\ (polys = [] \/ (0 < k /\ length (generateCentersInPolygons k polys s).1 = k) ->
      exists out, partitionIntoGroups polys k minTiles s = Some out
                  /\ length out = k /\ concat out ≡ₚ polys).
Proof.
  intros Hnd.
  assert (Hperm : forall out,
    partitionIntoGroups polys k minTiles s = Some out -> concat out ≡ₚ polys).
  { intros out Hp. unfold partitionIntoGroups in Hp.
    apply bind_Some in Hp as ([g s'] & Hg & Hr). simpl in Hr.
    apply grow_Some in Hg as (_ & Hperm & _).
    apply rebalance_Some in Hr as [_ Hr].
    rewrite Hr.
    - rewrite <- Hperm. solve_Permutation.
    - rewrite (Permutation_app_comm _ (pool g)), Hperm. done. }
  split; [done|].
  intros Hc. destruct (pipeline_is_Some polys k minTiles s Hc) as [out Hout].
  exists out. split_and!; [done| |by apply Hperm].
  unfold partitionIntoGroups in Hout.
  apply bind_Some in Hout as ([g s'] & Hg & Hr). simpl in Hr.
  apply grow_Some in Hg as (Hl & _ & _).
  apply rebalance_Some in Hr as [-> _]. done.
Qed.

(** C3. Every change that the boundary exchange of the rebalancer makes to
    the groups is a transfer of one tile [t] from a donor to a receiver in
    which the donor had more than [minTiles] tiles, [t] shared an edge with
    a tile of the receiver, and the donor without [t] is exactly one
    connected component according to [splitConnectedComponents]; the donor
    after the transfer is that remainder, and every two of its tiles are
    joined by a chain of its tiles sharing edges.  This holds of the loop
    from any state, and so of [rebalanceBoundaries] after the pool has been
    handed out. *)
Theorem exchange_only_safe_transfers minTiles :
  (forall rounds need (groups : list (list Tile)),
     rtc (safeTransfer minTiles) groups (exchangeRounds minTiles rounds need groups))
  /\ (forall (groups : list (list Tile)) pool idxAdj targetCounts out,
        rebalanceBoundaries groups pool idxAdj minTiles targetCounts = Some out ->
        exists groups1,
          foldl (assignToNearest (centroidOfGroup <$> groups) (length groups))
                (Some groups) pool = Some groups1
          /\ rtc (safeTransfer minTiles) groups1 out).
Proof.
  split; [apply exchangeRounds_safe|].
  intros groups pool idxAdj targetCounts out Hr.
  unfold rebalanceBoundaries in Hr. cbn zeta in Hr.
  apply bind_Some in Hr as (groups1 & H1 & Hr).
  apply (inj Some) in Hr. subst out.
  exists groups1. split; [done|]. apply exchangeRounds_safe.
Qed.

End Pipeline.

Section SharedEdges.

Context {num : Type} `{!JSNumber num}.
Local Abbreviation Tile := (@Tile num).
Local Abbreviation Edge := (@Edge num).
Local Abbreviation Point := (@Point num).

Lemma polyEdges_nil_iff (poly : list Point) : polyEdges poly = [] <-> poly = [].
Proof.
  split; [|by intros ->].
  intros E. apply (f_equal length) in E. rewrite polyEdges_length in E.
  by destruct poly.
Qed.

(** X1. [shareEdge] does not depend on the order of its arguments; a
    polygon shares an edge with itself exactly when it has a vertex; a
    polygon without vertices shares no edge with any polygon. *)
Theorem shareEdge_symmetric (p1 p2 : Tile) :
  shareEdge p1 p2 = shareEdge p2 p1
  /\ (shareEdge p1 p1 = true <-> verts p1 ≠ [])
  /\ (verts p1 = [] -> shareEdge p1 p2 = false).
Proof.
  split_and!.
  - destruct (shareEdge p1 p2) eqn:E1, (shareEdge p2 p1) eqn:E2; try done.
    + apply shareEdge_touching, touching_sym, shareEdge_touching in E1. congruence.
    + apply shareEdge_touching, touching_sym, shareEdge_touching in E2. congruence.
  - rewrite shareEdge_touching. split.
    + intros (e1 & e2 & H1 & _) E. rewrite E in H1. by apply elem_of_nil in H1.
    + intros Hne. destruct (polyEdges (verts p1)) as [|e es] eqn:E.
      { by apply polyEdges_nil_iff in E. }
      exists e, e. rewrite E. split_and!; [by left..|apply sameLine_refl].
  - intros E. destruct (shareEdge p1 p2) eqn:E1; [|done].
    apply shareEdge_touching in E1 as (e1 & e2 & H1 & _).
    rewrite E in H1. by apply elem_of_nil in H1.
Qed.

End SharedEdges.

Section BuildAdjacency.

Context {num : Type} `{!JSNumber num}.
Local Abbreviation Tile := (@Tile num).
Local Abbreviation Edge := (@Edge num).
Local Abbreviation Point := (@Point num).

Lemma linkAdj_app (adj pad : list (list nat)) i j :
  i < length adj -> j < length adj ->
  linkAdj (adj ++ pad) i j = linkAdj adj i j ++ pad.
Proof.
  intros Hi Hj. unfold linkAdj.
  rewrite (alter_app_l _ adj pad i) by done.
  rewrite alter_app_l; [done|]. by rewrite length_alter.
Qed.

(** The edge step on the growing adjacency map of [buildAdjacency] and on
    the full-size map of [splitConnectedComponents] go together. *)
Lemma splitEdgeStep_pad n idx (pad : list (list nat)) (e : Edge)
    (st : list (Edge * nat) * list (list nat)) :
  idx < n -> length st.2 = n ->
  Forall (fun kv => kv.2 < n) st.1 ->
  splitEdgeStep idx (st.1, st.2 ++ pad) e
  = ((splitEdgeStep idx st e).1, (splitEdgeStep idx st e).2 ++ pad).
Proof.
  intros Hidx Hlen Hv. unfold splitEdgeStep. cbn [fst snd].
  destruct (aget (revEdge e) st.1) as [other|] eqn:E; cbn [fst snd]; [|done].
  apply aget_elem_of in E. rewrite Forall_forall in Hv. specialize (Hv _ E).
  simpl in Hv. rewrite linkAdj_app by lia. done.
Qed.

Lemma splitEdgeStep_fold_pad n idx (pad : list (list nat)) (es : list Edge) :
  forall st : list (Edge * nat) * list (list nat),
  idx < n -> length st.2 = n ->
  Forall (fun kv => kv.2 < n) st.1 -> adjOk n st.2 ->
  foldl (splitEdgeStep idx) (st.1, st.2 ++ pad) es
  = ((foldl (splitEdgeStep idx) st es).1, (foldl (splitEdgeStep idx) st es).2 ++ pad).
Proof.
  induction es as [|e es IH]; intros st Hidx Hlen Hv Hok; [done|].
  cbn [foldl]. rewrite (splitEdgeStep_pad n) by done.
  destruct (splitEdgeStep_ok n idx st e Hidx (conj Hv Hok)) as [Hv' Hok'].
  apply IH; [done| |done..]. by destruct Hok' as [[? _] _].
Qed.

Lemma adjOk_snoc n adj : adjOk n adj -> adjOk (S n) (adj ++ [[]]).
Proof.
  intros [[Hlen Hb] Hs].
  assert (Hadj : forall u v, adjacent (adj ++ [[]]) u v <-> adjacent adj u v).
  { intros u v. unfold adjacent, groupAt.
    destruct (decide (u < length adj)) as [Hu|Hu].
    - by rewrite lookup_app_l.
    - rewrite lookup_app_r by lia. rewrite (lookup_ge_None_2 adj) by lia.
      destruct (u - length adj) as [|[|?]]; simpl; done. }
  split; [split|].
  - rewrite length_app. simpl. lia.
  - intros u v Huv%Hadj. destruct (Hb u v Huv). lia.
  - intros u v Huv%Hadj. apply Hadj. by apply Hs.
Qed.

(** The state of [buildAdjacency] after the first tiles is the state of the
    loop of [splitConnectedComponents], without the sets still empty. *)
Lemma buildAdjacency_prefix (polys : list Tile) : forall ps rest,
  polys = ps ++ rest ->
  let sb := foldl buildTileStep ([], []) (imap pair ps) in
  let ss := foldl splitTileStep ([], replicate (length polys) []) (imap pair ps) in
  ss = (sb.1, sb.2 ++ replicate (length rest) [])
  /\ Forall (fun kv => kv.2 < length ps) sb.1
  /\ adjOk (length ps) sb.2.
Proof.
  induction ps as [|t ps IH] using rev_ind; intros rest E.
  - simpl. subst polys. simpl. split_and!; [done|apply Forall_nil_2|apply (adjOk_empty 0)].
  - rewrite <- app_assoc in E. destruct (IH _ E) as (Hs & Hv & Hok).
    cbn zeta. rewrite imap_app. cbn [imap]. rewrite !foldl_app. cbn [foldl].
    set (sb := foldl buildTileStep ([], []) (imap pair ps)) in *.
    rewrite Hs. unfold splitTileStep, buildTileStep. cbn [fst snd].
    rewrite Nat.add_0_r.
    assert (Hv1 : Forall (fun kv : Edge * nat => kv.2 < S (length ps)) sb.1).
    { eapply Forall_impl; [exact Hv|]. simpl. intros; lia. }
    pose proof (adjOk_snoc _ _ Hok) as Hok1.
    assert (Hl1 : length (sb.2 ++ [[]]) = S (length ps)) by (by destruct Hok1 as [[? _] _]).
    replace (replicate (length ([t] ++ rest)) [])
      with ([@nil nat] ++ replicate (length rest) []) by done.
    rewrite app_assoc.
    rewrite (splitEdgeStep_fold_pad (S (length ps)) (length ps) _ _ (sb.1, sb.2 ++ [[]]))
      by (done || simpl; lia).
    split_and!; [done| |].
    + rewrite length_app. simpl. replace (length ps + 1) with (S (length ps)) by lia.
      apply (foldl_invariant
        (fun st : list (Edge * nat) * list (list nat) =>
           Forall (fun kv => kv.2 < S (length ps)) st.1 /\ adjOk (S (length ps)) st.2));
        [done|]. intros a b _. apply splitEdgeStep_ok. lia.
    + rewrite length_app. simpl. replace (length ps + 1) with (S (length ps)) by lia.
      apply (foldl_invariant
        (fun st : list (Edge * nat) * list (list nat) =>
           Forall (fun kv => kv.2 < S (length ps)) st.1 /\ adjOk (S (length ps)) st.2));
        [done|]. intros a b _. apply splitEdgeStep_ok. lia.
Qed.

Lemma buildAdjacency_split (polys : list Tile) :
  buildAdjacency polys = splitAdjacency polys.
Proof.
  destruct (buildAdjacency_prefix polys polys [] ltac:(by rewrite app_nil_r)) as (Hs & _).
  unfold buildAdjacency, splitAdjacency. rewrite Hs. simpl. by rewrite app_nil_r.
Qed.

(** X2. The map returned by [buildAdjacency] has one neighbour set per tile,
    holds only tile indices, is symmetric, and only makes neighbours of
    tiles that share an edge. *)
Theorem buildAdjacency_sound (polys : list Tile) :
  length (buildAdjacency polys) = length polys
  /\ (forall u v, adjacent (buildAdjacency polys) u v ->
        u < length polys /\ v < length polys)
  /\ (forall u v, adjacent (buildAdjacency polys) u v ->
        adjacent (buildAdjacency polys) v u)
  /\ (forall u v, adjacent (buildAdjacency polys) u v ->
        exists t1 t2, polys !! u = Some t1 /\ polys !! v = Some t2
                      /\ shareEdge t1 t2 = true).
Proof.
  rewrite buildAdjacency_split.
  destruct (splitAdjacency_ok polys) as [[Hl Hb] Hs].
  split_and!; [done..|]. apply splitAdjacency_touching.
Qed.

(** X3. [buildAdjacency] returns the adjacency map that
    [splitConnectedComponents] builds for the same tiles: creating each
    neighbour set when its tile is reached, or all of them beforehand, makes
    no difference. *)
Theorem buildAdjacency_is_split_graph (polys : list Tile) :
  buildAdjacency polys = splitAdjacency polys
  /\ splitConnectedComponents (Some polys)
     = tilesAt polys <$> components (buildAdjacency polys) (length polys).
Proof.
  split; [apply buildAdjacency_split|].
  rewrite buildAdjacency_split. apply splitConnectedComponents_components.
Qed.

End BuildAdjacency.

Section SplitComponents.

Context {num : Type} `{!JSNumber num}.
Local Abbreviation Tile := (@Tile num).
Local Abbreviation Edge := (@Edge num).
Local Abbreviation Point := (@Point num).

(** The tiles of a set of indices connected within the graph of
    [splitConnectedComponents] are joined by chains of tiles sharing
    edges. *)
Lemma split_connectedWithin_edgeConnected (polys : list Tile) (c : list nat) :
  connectedWithin (splitAdjacency polys) c -> edgeConnected (tilesAt polys c).
Proof.
  intros Hc t1 t2 (u & Hu & Htu)%elem_of_tilesAt (v & Hv & Htv)%elem_of_tilesAt.
  eapply (index_path_tiles polys (tilesAt polys c) _ u v); [|by apply Hc|done..].
  intros a b (Hab & Ha & Hb). right.
  apply splitAdjacency_touching in Hab as (ta & tb & Hta & Htb & Hs).
  exists ta, tb. split_and!; [done..| | |done]; apply elem_of_tilesAt; eauto.
Qed.

Lemma components_length adj n :
  adjOk n adj -> length (components adj n) <= n.
Proof.
  intros Hok.
  pose proof (components_partition adj n (proj1 Hok)) as Hp.
  apply Permutation_length in Hp. rewrite length_seq in Hp.
  assert (Hall : Forall (fun c => c ≠ []) (components adj n)).
  { apply Forall_forall. intros c Hc. by destruct (components_isComponent adj n c Hok Hc). }
  revert Hall Hp. generalize (components adj n). clear.
  intros comps. revert n. induction comps as [|c comps IH]; intros n Hall Hp; simpl in *.
  - lia.
  - apply Forall_cons in Hall as [Hc Hall]. rewrite length_app in Hp.
    destruct c; [done|]. simpl in Hp.
    specialize (IH (length (concat comps)) Hall eq_refl). lia.
Qed.

Lemma split_components_connected (polys : list Tile) :
  Forall (fun c => c ≠ [] /\ edgeConnected c) (splitConnectedComponents (Some polys)).
Proof.
  rewrite splitConnectedComponents_components.
  pose proof (splitAdjacency_ok polys) as Hok.
  apply Forall_fmap, Forall_forall. intros c Hc.
  pose proof (components_isComponent _ _ c Hok Hc) as Hcomp.
  split.
  - destruct Hcomp as (Hne & _ & Hcl). intros E.
    apply (f_equal length) in E. rewrite tilesAt_length in E.
    + destruct c; done.
    + intros v Hv. by destruct (Hcl v Hv).
  - apply split_connectedWithin_edgeConnected.
    by eapply isComponent_connectedWithin.
Qed.

(** X4. Every component returned by [splitConnectedComponents] has a tile,
    and every two of its tiles are joined by a chain of tiles of the
    component in which consecutive tiles share an edge; there are at most as
    many components as tiles, and at least one when there is a tile. *)
Theorem splitConnectedComponents_connected (polys : list Tile) :
  Forall (fun c => c ≠ [] /\ edgeConnected c) (splitConnectedComponents (Some polys))
  /\ length (splitConnectedComponents (Some polys)) <= length polys
  /\ (polys ≠ [] -> splitConnectedComponents (Some polys) ≠ []).
Proof.
  split; [apply split_components_connected|].
  rewrite splitConnectedComponents_components.
  pose proof (splitAdjacency_ok polys) as Hok.
  split_and!.
  - rewrite length_fmap. by apply components_length.
  - intros Hne E. apply fmap_nil_inv in E.
    pose proof (components_partition _ _ (proj1 Hok)) as Hp.
    rewrite E in Hp. simpl in Hp. apply Permutation_length in Hp.
    rewrite length_seq in Hp. destruct polys; done.
Qed.

(** ** Tiles whose directed edges are all different

    When no directed edge occurs twice among the tiles (the tiles of a
    planar subdivision wound the same way), the loop records every edge that
    has no partner yet and links every edge to its partner. *)
Lemma NoDup_snd_inj {A B} (l : list (A * B)) a a' b :
  NoDup l.*2 -> (a, b) ∈ l -> (a', b) ∈ l -> a = a'.
Proof.
  induction l as [|[x y] l IH]; simpl; intros Hnd H1 H2.
  - by apply elem_of_nil in H1.
  - apply NoDup_cons in Hnd as [Hy Hnd].
    apply elem_of_cons in H1 as [H1|H1]; apply elem_of_cons in H2 as [H2|H2].
    + congruence.
    + exfalso. apply Hy. apply list_elem_of_fmap. exists (a', b). split; [by simplify_eq/=|done].
    + exfalso. apply Hy. apply list_elem_of_fmap. exists (a, b). split; [by simplify_eq/=|done].
    + by apply IH.
Qed.

Lemma splitEdgeStep_complete n P (st : list (Edge * nat) * list (list nat)) idx (e : Edge) :
  idx < n -> NoDup (P ++ [(idx, e)]).*2 ->
  (Forall (fun kv => kv.2 < n) st.1 /\ adjOk n st.2)
  /\ (forall k i, (k, i) ∈ st.1 -> (i, k) ∈ P)
  /\ (forall i k, (i, k) ∈ P -> k ∈ st.1.*1 \/ revEdge k ∈ st.1.*1)
  /\ (forall i j k, (i, k) ∈ P -> (j, revEdge k) ∈ P -> revEdge k ≠ k ->
        adjacent st.2 i j) ->
  let st' := splitEdgeStep idx st e in
  (Forall (fun kv => kv.2 < n) st'.1 /\ adjOk n st'.2)
  /\ (forall k i, (k, i) ∈ st'.1 -> (i, k) ∈ P ++ [(idx, e)])
  /\ (forall i k, (i, k) ∈ P ++ [(idx, e)] -> k ∈ st'.1.*1 \/ revEdge k ∈ st'.1.*1)
  /\ (forall i j k, (i, k) ∈ P ++ [(idx, e)] -> (j, revEdge k) ∈ P ++ [(idx, e)] ->
        revEdge k ≠ k -> adjacent st'.2 i j).
Proof.
  intros Hidx Hnd (Hok & Hrec & Hcov & Hadj). cbn zeta.
  split; [by apply splitEdgeStep_ok|].
  destruct Hok as [Hvals [[Hlen Hb] Hsym]].
  rewrite fmap_app in Hnd. simpl in Hnd.
  apply NoDup_app in Hnd as (HndP & Hfresh & _).
  assert (HeP : forall i, (i, e) ∉ P).
  { intros i Hi. apply (Hfresh e); [|by left].
    apply list_elem_of_fmap. by exists (i, e). }
  unfold splitEdgeStep. destruct (aget (revEdge e) st.1) as [other|] eqn:E; simpl.
  - pose proof (aget_elem_of _ _ _ E) as Hin.
    assert (Hother : other < n).
    { rewrite Forall_forall in Hvals. apply (Hvals _ Hin). }
    assert (HinP : (other, revEdge e) ∈ P) by (by apply Hrec).
    split_and!.
    + intros k i Hki. apply elem_of_app. left. by apply Hrec.
    + intros i k [Hik|[= -> ->]%list_elem_of_singleton]%elem_of_app; [by eapply Hcov|].
      right. apply list_elem_of_fmap. by exists (revEdge e, other).
    + intros i j k Hik Hjk Hne. rewrite adjacent_linkAdj by lia.
      apply elem_of_app in Hik as [Hik|[= -> ->]%list_elem_of_singleton];
        apply elem_of_app in Hjk as [Hjk|[= -> Hk]%list_elem_of_singleton].
      * left. by eapply Hadj.
      * right. right. split; [|done].
        assert (k = revEdge e) as -> by (by rewrite <- Hk, revEdge_involutive).
        exact (NoDup_snd_inj P _ _ _ HndP Hik HinP).
      * right. left. split; [done|]. exact (NoDup_snd_inj P _ _ _ HndP Hjk HinP).
      * done.
  - apply aget_None_iff in E.
    split_and!.
    + intros k i [[= -> ->]|Hki]%aset_elem_of.
      * apply elem_of_app. right. by left.
      * apply elem_of_app. left. by apply Hrec.
    + assert (Hkeys : forall k, k ∈ st.1.*1 -> k ∈ (aset e idx st.1).*1).
      { intros k Hk. rewrite aset_keys. case_decide; [done|]. apply elem_of_app. by left. }
      intros i k [Hik|[= -> ->]%list_elem_of_singleton]%elem_of_app.
      * destruct (Hcov i k Hik); [left|right]; by apply Hkeys.
      * left. rewrite aset_keys. case_decide; [done|]. apply elem_of_app. right. by left.
    + assert (Hno : forall j, (j, revEdge e) ∈ P -> revEdge e ≠ e -> False).
      { intros j Hj Hne. destruct (Hcov j _ Hj) as [Hk|Hk]; [done|].
        rewrite revEdge_involutive in Hk.
        apply list_elem_of_fmap in Hk as ([k' i'] & -> & Hk). simpl in *.
        apply (HeP i'). by apply Hrec. }
      intros i j k Hik Hjk Hne.
      apply elem_of_app in Hik as [Hik|[= -> ->]%list_elem_of_singleton];
        apply elem_of_app in Hjk as [Hjk|[= -> Hk]%list_elem_of_singleton].
      * by eapply Hadj.
      * exfalso. apply (Hno i); [|by rewrite <- Hk, revEdge_involutive].
        by rewrite <- Hk, revEdge_involutive.
      * exfalso. by apply (Hno j).
      * done.
Qed.

Lemma occurrences_snd (polys : list Tile) : (occurrences polys).*2 = allEdges polys.
Proof.
  unfold occurrences, allEdges.
  assert (Hgen : forall k (l : list Tile),
    (imap (fun i => pair (k + i)) l ≫= fun it => pair it.1 <$> polyEdges (verts it.2)).*2
    = l ≫= fun poly => polyEdges (verts poly)).
  { intros k l. revert k. induction l as [|t l IH]; intros k; [done|].
    cbn [imap mbind list_bind]. simpl. rewrite fmap_app. f_equal.
    - rewrite <- list_fmap_compose. apply list_fmap_id.
    - rewrite <- (IH (S k)). f_equal. f_equal. apply imap_ext. intros i x _. simpl.
      f_equal. lia. }
  apply (Hgen 0).
Qed.

Lemma splitAdjacency_partner (polys : list Tile) u v (e : Edge) :
  NoDup (allEdges polys) ->
  (u, e) ∈ occurrences polys -> (v, revEdge e) ∈ occurrences polys -> revEdge e ≠ e ->
  adjacent (splitAdjacency polys) u v.
Proof.
  intros Hnd. rewrite <- occurrences_snd in Hnd.
  unfold splitAdjacency, splitTileStep.
  rewrite (foldl_occurrences (fun idx st e => splitEdgeStep idx st e)).
  fold (occurrences polys).
  assert (Hgen : forall todo P (st : list (Edge * nat) * list (list nat)),
    NoDup (P ++ todo).*2 ->
    (forall o, o ∈ todo -> o.1 < length polys) ->
    (Forall (fun kv => kv.2 < length polys) st.1 /\ adjOk (length polys) st.2)
    /\ (forall k i, (k, i) ∈ st.1 -> (i, k) ∈ P)
    /\ (forall i k, (i, k) ∈ P -> k ∈ st.1.*1 \/ revEdge k ∈ st.1.*1)
    /\ (forall i j k, (i, k) ∈ P -> (j, revEdge k) ∈ P -> revEdge k ≠ k ->
          adjacent st.2 i j) ->
    forall i j k, (i, k) ∈ P ++ todo -> (j, revEdge k) ∈ P ++ todo -> revEdge k ≠ k ->
      adjacent (foldl (fun st (o : nat * Edge) => splitEdgeStep o.1 st o.2) st todo).2 i j).
  { induction todo as [|[idx e'] todo IH]; intros P st Hnd' Hb Hinv; simpl.
    - rewrite app_nil_r. apply Hinv.
    - intros i j k.
      replace (P ++ (idx, e') :: todo) with ((P ++ [(idx, e')]) ++ todo)
        by (by rewrite <- app_assoc).
      apply (IH (P ++ [(idx, e')]) (splitEdgeStep idx st e')).
      + by rewrite <- app_assoc.
      + intros o Ho. apply Hb. by right.
      + apply splitEdgeStep_complete; [|  |done].
        * apply (Hb (idx, e')). by left.
        * rewrite fmap_app in Hnd'. rewrite !fmap_app. simpl in *.
          apply NoDup_app in Hnd' as (H1 & H2 & H3).
          apply NoDup_app. split_and!; [done| |apply NoDup_singleton].
          intros x Hx ->%list_elem_of_singleton. apply (H2 _ Hx). by left. }
  intros Hu Hv Hne.
  apply (Hgen (occurrences polys) [] ([], replicate (length polys) [])) with (k := e);
    [done| | |done..].
  - intros [i e'] (t & Ht & _)%elem_of_occurrences. by apply lookup_lt_Some in Ht.
  - split_and!.
    + apply Forall_nil_2.
    + apply adjOk_empty.
    + by intros k i ?%elem_of_nil.
    + by intros i k ?%elem_of_nil.
    + by intros i j k ?%elem_of_nil.
Qed.

Lemma splitAdjacency_iff (polys : list Tile) u v :
  NoDup (allEdges polys) -> u ≠ v ->
  adjacent (splitAdjacency polys) u v <->
  exists t1 t2, polys !! u = Some t1 /\ polys !! v = Some t2 /\ shareEdge t1 t2 = true.
Proof.
  intros Hnd Huv. split; [apply splitAdjacency_touching|].
  intros (t1 & t2 & Ht1 & Ht2 & (e1 & e2 & He1 & He2 & Hl)%shareEdge_touching).
  assert (H1 : (u, e1) ∈ occurrences polys) by (apply elem_of_occurrences; eauto).
  assert (H2 : (v, e2) ∈ occurrences polys) by (apply elem_of_occurrences; eauto).
  pose proof Hnd as Hnd'. rewrite <- occurrences_snd in Hnd'.
  destruct Hl as [->| ->].
  { exfalso. apply Huv. by eapply (NoDup_snd_inj (occurrences polys)). }
  destruct (decide (revEdge e2 = e2)) as [E|Hne].
  { exfalso. apply Huv. rewrite E in H1. by eapply (NoDup_snd_inj (occurrences polys)). }
  destruct (splitAdjacency_ok polys) as [_ Hsym]. apply Hsym.
  by eapply splitAdjacency_partner.
Qed.

(** X5. When no directed edge occurs twice among the tiles, two different
    tiles are neighbours in the graph of [splitConnectedComponents], and in
    the map of [buildAdjacency], exactly when they share an edge. *)
Theorem splitAdjacency_oriented (polys : list Tile) u v :
  NoDup (allEdges polys) -> u ≠ v ->
  (adjacent (splitAdjacency polys) u v <->
   exists t1 t2, polys !! u = Some t1 /\ polys !! v = Some t2 /\ shareEdge t1 t2 = true)
  /\ (adjacent (buildAdjacency polys) u v <->
      exists t1 t2, polys !! u = Some t1 /\ polys !! v = Some t2 /\ shareEdge t1 t2 = true).
Proof.
  intros Hnd Huv. rewrite buildAdjacency_split.
  split; by apply splitAdjacency_iff.
Qed.

Lemma NoDup_concat_disjoint {A} (ls : list (list A)) i j l1 l2 x :
  NoDup (concat ls) -> i ≠ j -> ls !! i = Some l1 -> ls !! j = Some l2 ->
  x ∈ l1 -> x ∈ l2 -> False.
Proof.
  revert i j. induction ls as [|l ls IH]; intros i j Hnd Hij H1 H2 Hx1 Hx2; [done|].
  simpl in Hnd. apply NoDup_app in Hnd as (_ & Hd & Hnd).
  destruct i as [|i], j as [|j]; simpl in *; simplify_eq.
  - apply (Hd x Hx1). apply elem_of_concat. exists l2. split; [done|].
    by eapply list_elem_of_lookup_2.
  - apply (Hd x Hx2). apply elem_of_concat. exists l1. split; [done|].
    by eapply list_elem_of_lookup_2.
  - eapply (IH i j); eauto.
Qed.

(** X6. When no directed edge occurs twice among the tiles, tiles that
    [splitConnectedComponents] puts in different components share no
    edge. *)
Theorem splitConnectedComponents_separated (polys : list Tile) i j c1 c2 t1 t2 :
  NoDup (allEdges polys) ->
  i ≠ j ->
  splitConnectedComponents (Some polys) !! i = Some c1 ->
  splitConnectedComponents (Some polys) !! j = Some c2 ->
  t1 ∈ c1 -> t2 ∈ c2 ->
  shareEdge t1 t2 = false.
Proof.
  intros Hnd Hij H1 H2 Ht1 Ht2.
  rewrite splitConnectedComponents_components in H1, H2.
  rewrite list_lookup_fmap in H1, H2.
  destruct (components (splitAdjacency polys) (length polys) !! i) as [ci|] eqn:Ei; [|done].
  destruct (components (splitAdjacency polys) (length polys) !! j) as [cj|] eqn:Ej; [|done].
  simpl in H1, H2. simplify_eq.
  apply elem_of_tilesAt in Ht1 as (u & Hu & Htu).
  apply elem_of_tilesAt in Ht2 as (v & Hv & Htv).
  pose proof (splitAdjacency_ok polys) as Hok.
  pose proof (components_partition _ _ (proj1 Hok)) as Hp.
  assert (Hndc : NoDup (concat (components (splitAdjacency polys) (length polys)))).
  { rewrite Hp. apply NoDup_seq. }
  destruct (shareEdge t1 t2) eqn:Hs; [exfalso|done].
  assert (Huv : u ≠ v).
  { intros ->. by eapply (NoDup_concat_disjoint _ i j ci cj v). }
  assert (Hadj : adjacent (splitAdjacency polys) u v).
  { apply splitAdjacency_iff; [done..|]. by exists t1, t2. }
  pose proof (components_isComponent _ _ ci Hok (list_elem_of_lookup_2 _ _ _ Ei))
    as (_ & _ & Hcl).
  destruct (Hcl u Hu) as [_ Hclass].
  assert (Hvi : v ∈ ci). { apply Hclass. by apply rtc_once. }
  by eapply (NoDup_concat_disjoint _ i j ci cj v).
Qed.

End SplitComponents.

Section AssocDelete.

Context {K V : Type} `{!EqDecision K}.

Lemma adelete_sublist (k : K) (m : list (K * V)) : adelete k m `sublist_of` m.
Proof.
  induction m as [|[k' v'] m IH]; simpl; [done|].
  destruct (decide (k = k')); [by apply sublist_cons|by apply sublist_skip].
Qed.

Lemma adelete_NoDup (k : K) (m : list (K * V)) : NoDup m.*1 -> NoDup (adelete k m).*1.
Proof.
  intros Hnd. eapply sublist_NoDup; [exact Hnd|]. apply fmap_sublist, adelete_sublist.
Qed.

Lemma adelete_elem_of (k : K) (m : list (K * V)) kv : kv ∈ adelete k m -> kv ∈ m.
Proof. intros H. eapply elem_of_sublist; [done|apply adelete_sublist]. Qed.

Lemma adelete_keys (k : K) (m : list (K * V)) k' :
  k' ∈ (adelete k m).*1 -> k' ∈ m.*1.
Proof.
  intros H. eapply elem_of_sublist; [done|]. apply fmap_sublist, adelete_sublist.
Qed.

End AssocDelete.

Section Borders.

Context {num : Type} `{!JSNumber num}.
Local Abbreviation Tile := (@Tile num).
Local Abbreviation Edge := (@Edge num).
Local Abbreviation Point := (@Point num).

Lemma foldl_bind {A B C} (f : A -> C -> A) (g : B -> list C) (l : list B) : forall a,
  foldl (fun m x => foldl f m (g x)) a l = foldl f a (l ≫= g).
Proof.
  induction l as [|x l IH]; intros a; [done|].
  cbn [foldl mbind list_bind]. simpl. by rewrite foldl_app, IH.
Qed.

Lemma drawBorders_flat (polys : list Tile) :
  drawBorders polys = (foldl borderEdgeStep [] (allEdges polys)).*2.
Proof. unfold drawBorders, allEdges. by rewrite (foldl_bind borderEdgeStep). Qed.

Lemma elem_of_allEdges (polys : list Tile) (e : Edge) :
  e ∈ allEdges polys <-> exists t, t ∈ polys /\ e ∈ polyEdges (verts t).
Proof. unfold allEdges. rewrite list_elem_of_bind. naive_solver. Qed.

(** The invariant of the edge map of [drawBorders]: each key is recorded
    once, with its own segment, comes from the edges seen so far, and is not
    recorded together with its reverse. *)
Lemma borderEdgeStep_inv (P : list Edge) (m : list (Edge * Edge)) (e : Edge) :
  NoDup m.*1
  /\ (forall k v, (k, v) ∈ m -> v = k /\ k ∈ P)
  /\ (forall k, k ∈ m.*1 -> revEdge k ∈ m.*1 -> revEdge k = k) ->
  NoDup (borderEdgeStep m e).*1
  /\ (forall k v, (k, v) ∈ borderEdgeStep m e -> v = k /\ k ∈ P ++ [e])
  /\ (forall k, k ∈ (borderEdgeStep m e).*1 -> revEdge k ∈ (borderEdgeStep m e).*1 ->
        revEdge k = k).
Proof.
  intros (Hnd & Hval & Hrev). unfold borderEdgeStep.
  destruct (aget (revEdge e) m) as [w|] eqn:E.
  - split_and!.
    + by apply adelete_NoDup.
    + intros k v Hkv%adelete_elem_of. destruct (Hval k v Hkv) as [-> Hk].
      split; [done|]. apply elem_of_app. by left.
    + intros k Hk%adelete_keys Hr%adelete_keys. by apply Hrev.
  - apply aget_None_iff in E. split_and!.
    + by apply aset_NoDup.
    + intros k v [[= -> ->]|Hkv]%aset_elem_of.
      * split; [done|]. apply elem_of_app. right. by left.
      * destruct (Hval k v Hkv) as [-> Hk]. split; [done|]. apply elem_of_app. by left.
    + intros k. rewrite !aset_keys. case_decide as He; [apply Hrev|].
      intros [Hk| ->%list_elem_of_singleton]%elem_of_app
             [Hr|Hr%list_elem_of_singleton]%elem_of_app.
      * by apply Hrev.
      * exfalso. apply E. rewrite <- Hr, revEdge_involutive. done.
      * done.
      * done.
Qed.

(** X7. [drawBorders] strokes no segment twice; every segment it strokes is
    an edge of one of the tiles; and it never strokes both a segment and the
    reverse of that segment. *)
Theorem drawBorders_segments (polys : list Tile) :
  NoDup (drawBorders polys)
  /\ (forall e, e ∈ drawBorders polys ->
        exists t, t ∈ polys /\ e ∈ polyEdges (verts t))
  /\ (forall e, e ∈ drawBorders polys -> revEdge e ∈ drawBorders polys ->
        revEdge e = e).
Proof.
  rewrite drawBorders_flat.
  assert (Hgen : forall todo P (m : list (Edge * Edge)),
    NoDup m.*1
    /\ (forall k v, (k, v) ∈ m -> v = k /\ k ∈ P)
    /\ (forall k, k ∈ m.*1 -> revEdge k ∈ m.*1 -> revEdge k = k) ->
    let m' := foldl borderEdgeStep m todo in
    NoDup m'.*1
    /\ (forall k v, (k, v) ∈ m' -> v = k /\ k ∈ P ++ todo)
    /\ (forall k, k ∈ m'.*1 -> revEdge k ∈ m'.*1 -> revEdge k = k)).
  { induction todo as [|e todo IH]; intros P m Hinv; simpl.
    - by rewrite app_nil_r.
    - replace (P ++ e :: todo) with ((P ++ [e]) ++ todo) by (by rewrite <- app_assoc).
      apply IH. by apply borderEdgeStep_inv. }
  destruct (Hgen (allEdges polys) [] []) as (Hnd & Hval & Hrev).
  { split_and!; [apply NoDup_nil_2|by intros k v ?%elem_of_nil|by intros k ?%elem_of_nil]. }
  simpl in Hval.
  set (m := foldl borderEdgeStep [] (allEdges polys)) in *.
  assert (Eq : m.*2 = m.*1).
  { apply list_eq. intros i. rewrite !list_lookup_fmap.
    destruct (m !! i) as [[k v]|] eqn:Ei; [|done]. simpl.
    apply list_elem_of_lookup_2 in Ei. by destruct (Hval k v Ei) as [-> _]. }
  rewrite Eq. split_and!; [done| |done].
  intros e ([k v] & -> & Hkv)%list_elem_of_fmap. simpl.
  destruct (Hval k v Hkv) as [_ Hk]. by apply elem_of_allEdges.
Qed.

Lemma filter_ext_elem {A} (P1 P2 : A -> Prop) `{!forall x, Decision (P1 x)}
    `{!forall x, Decision (P2 x)} (l : list A) :
  (forall x, x ∈ l -> P1 x <-> P2 x) -> filter P1 l = filter P2 l.
Proof.
  induction l as [|x l IH]; intros Hext; [done|].
  rewrite !filter_cons.
  assert (Hx : P1 x <-> P2 x) by (apply Hext; by left).
  rewrite IH by (intros y Hy; apply Hext; by right).
  destruct (decide (P1 x)), (decide (P2 x)); tauto.
Qed.

Lemma filter_all {A} (P1 : A -> Prop) `{!forall x, Decision (P1 x)} (l : list A) :
  (forall x, x ∈ l -> P1 x) -> filter P1 l = l.
Proof.
  induction l as [|x l IH]; intros Hall; [done|].
  rewrite filter_cons_True by (apply Hall; by left).
  rewrite IH; [done|]. intros y Hy. apply Hall. by right.
Qed.

Lemma filter_none {A} (P1 : A -> Prop) `{!forall x, Decision (P1 x)} (l : list A) :
  (forall x, x ∈ l -> ~ P1 x) -> filter P1 l = [].
Proof.
  induction l as [|x l IH]; intros Hall; [done|].
  rewrite filter_cons_False by (apply Hall; by left).
  apply IH. intros y Hy. apply Hall. by right.
Qed.

Lemma adelete_diag (k : Edge) (l : list Edge) :
  NoDup l ->
  adelete k ((fun e => (e, e)) <$> l) = (fun e => (e, e)) <$> filter (fun x => x ≠ k) l.
Proof.
  induction l as [|x l IH]; intros Hnd; [done|].
  apply NoDup_cons in Hnd as [Hx Hnd]. cbn [fmap list_fmap adelete].
  rewrite filter_cons. destruct (decide (k = x)) as [->|Hne].
  - rewrite decide_False by (intros H; by apply H).
    rewrite filter_all; [done|]. intros y Hy ->. done.
  - rewrite decide_True by congruence. cbn [fmap list_fmap]. by rewrite IH.
Qed.

(** With all directed edges different and no edge its own reverse, the map
    of [drawBorders] after the edges [P] holds the edges of [P] whose
    reverse is not in [P], in order. *)
Lemma borderEdgeStep_boundary (todo : list Edge) : forall P : list Edge,
  NoDup (P ++ todo) ->
  (forall e, e ∈ P ++ todo -> revEdge e ≠ e) ->
  foldl borderEdgeStep ((fun e => (e, e)) <$> filter (fun e => revEdge e ∉ P) P) todo
  = (fun e => (e, e)) <$> filter (fun e => revEdge e ∉ P ++ todo) (P ++ todo).
Proof.
  induction todo as [|e todo IH]; intros P Hnd Hne; simpl.
  { by rewrite app_nil_r. }
  replace (P ++ e :: todo) with ((P ++ [e]) ++ todo) in * by (by rewrite <- app_assoc).
  rewrite <- IH by done. f_equal.
  assert (HndP : NoDup (P ++ [e])).
  { apply NoDup_app in Hnd as (? & _ & _). done. }
  apply NoDup_app in HndP as (HndP & HeP & _).
  assert (He : e ∉ P). { intros Hin. apply (HeP e Hin). by left. }
  assert (Hre : revEdge e ≠ e). { apply Hne. apply elem_of_app. left. apply elem_of_app. right. by left. }
  set (keep := filter (fun x => revEdge x ∉ P) P).
  assert (Hkeys : ((fun x : Edge => (x, x)) <$> keep).*1 = keep).
  { rewrite <- list_fmap_compose. apply list_fmap_id. }
  unfold borderEdgeStep.
  destruct (decide (revEdge e ∈ P)) as [Hin|Hout].
  - (* the reverse is recorded: it is deleted *)
    assert (Hk : revEdge e ∈ keep).
    { apply list_elem_of_filter. split; [|done]. by rewrite revEdge_involutive. }
    destruct (aget (revEdge e) ((fun x => (x, x)) <$> keep)) as [w|] eqn:E.
    2:{ apply aget_None_iff in E. by rewrite Hkeys in E. }
    rewrite adelete_diag by (by apply NoDup_filter).
    f_equal. unfold keep. rewrite list_filter_filter.
    rewrite filter_app. rewrite (filter_cons _ e), filter_nil.
    rewrite decide_False.
    2:{ intros H. apply H. apply elem_of_app. by left. }
    rewrite app_nil_r. apply filter_ext_elem. intros x Hx. split.
    + intros [Hx1 Hx2] [H|H%list_elem_of_singleton]%elem_of_app; [done|].
      apply Hx1. by rewrite <- H, revEdge_involutive.
    + intros Hx1. split.
      * intros ->. apply Hx1. rewrite revEdge_involutive. apply elem_of_app. right. by left.
      * intros H. apply Hx1. apply elem_of_app. by left.
  - (* the reverse is not recorded: the edge is *)
    assert (Hk : revEdge e ∉ keep).
    { intros [_ H]%list_elem_of_filter. done. }
    rewrite aget_None by (by rewrite Hkeys).
    rewrite aset_fresh.
    2:{ rewrite Hkeys. intros [_ H]%list_elem_of_filter. done. }
    rewrite filter_app, (filter_cons _ e), filter_nil.
    rewrite decide_True.
    2:{ intros [H|H%list_elem_of_singleton]%elem_of_app; done. }
    rewrite fmap_app. f_equal. f_equal. unfold keep.
    apply filter_ext_elem. intros x Hx. split.
    + intros Hx1 [H|H%list_elem_of_singleton]%elem_of_app; [done|].
      apply Hout. by rewrite <- H, revEdge_involutive.
    + intros Hx1 H. apply Hx1. apply elem_of_app. by left.
Qed.

(** X8. When no directed edge occurs twice among the tiles of a group and
    no edge joins a point to itself, [drawBorders] strokes exactly the outer
    boundary: the edges whose reverse is not an edge of a tile of the group,
    in the order of the tiles. *)
Theorem drawBorders_boundary (polys : list Tile) :
  NoDup (allEdges polys) ->
  (forall e, e ∈ allEdges polys -> revEdge e ≠ e) ->
  drawBorders polys
  = filter (fun e => revEdge e ∉ allEdges polys) (allEdges polys)
  /\ (forall e, e ∈ drawBorders polys <->
        e ∈ allEdges polys /\ revEdge e ∉ allEdges polys).
Proof.
  intros Hnd Hne.
  assert (E : drawBorders polys
              = filter (fun e => revEdge e ∉ allEdges polys) (allEdges polys)).
  { rewrite drawBorders_flat.
    pose proof (borderEdgeStep_boundary (allEdges polys) [] Hnd Hne) as H.
    simpl in H. rewrite H. rewrite <- list_fmap_compose. apply list_fmap_id. }
  split; [done|]. intros e. rewrite E, list_elem_of_filter. tauto.
Qed.

End Borders.

Section SeederInside.

Context {num : Type} `{!JSNumber num} `{!Externals num}.
Local Abbreviation Tile := (@Tile num).
Local Abbreviation Point := (@Point num).

Lemma acceptRaw_inside (hull : list Point) minX minY n raw : forall centers,
  Forall (fun c => polygonContains hull (cx c, cy c) = true) centers ->
  Forall (fun c => polygonContains hull (cx c, cy c) = true)
         (acceptRaw hull minX minY n raw centers).
Proof.
  induction raw as [|p raw IH]; intros centers Hc; simpl; [done|].
  case_decide; [|done]. apply IH.
  destruct (polygonContains hull (nadd p.1 minX, nadd p.2 minY)) eqn:E; [|done].
  apply Forall_app. split; [done|]. by apply Forall_singleton.
Qed.

Lemma topUp_inside (hull : list Point) minX maxX minY maxY n : forall budget centers s,
  Forall (fun c => polygonContains hull (cx c, cy c) = true) centers ->
  Forall (fun c => polygonContains hull (cx c, cy c) = true)
         (topUp hull minX maxX minY maxY n budget centers s).1.
Proof.
  induction budget as [|budget IH]; intros centers s Hc; simpl; [done|].
  case_decide; [|done]. apply IH.
  destruct (polygonContains hull (random s minX maxX, random (S s) minY maxY)) eqn:E;
    [|done].
  apply Forall_app. split; [done|]. by apply Forall_singleton.
Qed.

Lemma generateCenters_length_le (n : nat) (polygons : list Tile) (s : nat) :
  length (generateCentersInPolygons n polygons s).1 <= n.
Proof.
  unfold generateCentersInPolygons.
  destruct (polygonHull (concat (verts <$> polygons))) as [hull|];
    [|by rewrite jitterCenters_length].
  case_decide; [by rewrite jitterCenters_length|]. cbn zeta.
  set (raw := poissonFill _ _ _ _ _).
  pose proof (acceptRaw_length hull (d3min hull.*1) (d3min hull.*2) n raw.1 []
                ltac:(simpl; lia)) as Ha.
  destruct (topUp_spec hull (d3min hull.*1) (d3max hull.*1) (d3min hull.*2) (d3max hull.*2)
              n 5000 _ raw.2 Ha) as (H1 & _). lia.
Qed.

(** X9. When the hull of the tiles has three points or more, every center
    that [generateCentersInPolygons] returns is a point that
    [d3.polygonContains] finds inside the hull. *)
Theorem generateCenters_inside_hull (n : nat) (polygons : list Tile) (s : nat) :
  ~ hullDegenerate polygons ->
  exists hull,
    polygonHull (concat (verts <$> polygons)) = Some hull
    /\ 3 <= length hull
    /\ Forall (fun c => polygonContains hull (cx c, cy c) = true)
              (generateCentersInPolygons n polygons s).1.
Proof.
  unfold hullDegenerate, generateCentersInPolygons.
  destruct (polygonHull (concat (verts <$> polygons))) as [hull|]; [|by intros []].
  intros Hdeg. exists hull. split_and!; [done|lia|].
  rewrite decide_False by done. cbn zeta.
  apply topUp_inside, acceptRaw_inside, Forall_nil_2.
Qed.

End SeederInside.

Section PushFolds.

Context {X V : Type}.

(** A loop that pushes each item on the group its key selects. *)
Lemma push_fold_spec (key : X -> option nat) (val : X -> V) (items : list X) :
  forall gs0 gs,
  foldl (fun acc it => match acc with
                       | None => None
                       | Some g => match key it with
                                   | None => None
                                   | Some b => pushAt g b (val it)
                                   end
                       end) (Some gs0) items = Some gs ->
  length gs = length gs0
  /\ (forall it, it ∈ items -> exists b, key it = Some b /\ b < length gs0)
  /\ (forall j, groupAt gs j
                = groupAt gs0 j ++ (val <$> filter (fun it => key it = Some j) items)).
Proof.
  induction items as [|it items IH]; intros gs0 gs; simpl.
  - intros [= <-]. split_and!; [done|by intros it ?%elem_of_nil|].
    intros j. by rewrite app_nil_r.
  - destruct (key it) as [b|] eqn:Ek; [|by rewrite foldl_option_None].
    destruct (pushAt gs0 b (val it)) as [gs1|] eqn:E; [|by rewrite foldl_option_None].
    intros (Hl & Hk & Hg)%IH.
    pose proof (pushAt_length _ _ _ _ E) as Hl1.
    unfold pushAt in E. destruct (gs0 !! b) as [l|] eqn:El; [|done].
    injection E as <-.
    pose proof (lookup_lt_Some _ _ _ El) as Hb.
    split_and!.
    + lia.
    + intros it' [->|Hin]%elem_of_cons; [by exists b|].
      destruct (Hk it' Hin) as (b' & ? & ?). exists b'. split; [done|lia].
    + intros j. rewrite Hg, filter_cons. destruct (decide (b = j)) as [->|Hne].
      * rewrite groupAt_insert_eq by done. rewrite (groupAt_lookup _ _ _ El).
        rewrite decide_True by done. by rewrite fmap_cons, <- app_assoc.
      * rewrite groupAt_insert_ne by done.
        rewrite decide_False by congruence. done.
Qed.

End PushFolds.

Section GrowerRounds.

Lemma lookup_fmap_seq {A} (f : nat -> A) N i :
  (f <$> seq 0 N) !! i = if decide (i < N) then Some (f i) else None.
Proof.
  rewrite list_lookup_fmap. case_decide as Hi.
  - by rewrite lookup_seq_lt.
  - by rewrite lookup_seq_ge by lia.
Qed.

Lemma assignedBelow_ext tg N g p g' p' :
  (forall i, i < N -> (tg i < g \/ i ∈ p) <-> (tg i < g' \/ i ∈ p')) ->
  assignedBelow tg N g p = assignedBelow tg N g' p'.
Proof.
  intros Hext. unfold assignedBelow. apply list_eq. intros i.
  rewrite !lookup_fmap_seq. case_decide as Hi; [|done].
  specialize (Hext i Hi). repeat case_decide; tauto.
Qed.

Lemma assignedBelow_lookup tg N g p i :
  assignedBelow tg N g p !! i
  = if decide (i < N)
    then Some (if decide (tg i < g \/ i ∈ p) then Some (tg i) else None)
    else None.
Proof. apply lookup_fmap_seq. Qed.

Lemma assignedBelow_mark tg N g p idx :
  idx < N -> tg idx = g ->
  <[idx := Some g]> (assignedBelow tg N g p) = assignedBelow tg N g (p ++ [idx]).
Proof.
  intros Hidx Htg. apply list_eq. intros i.
  destruct (decide (i = idx)) as [->|Hne].
  - rewrite list_lookup_insert_eq.
    2:{ unfold assignedBelow. by rewrite length_fmap, length_seq. }
    rewrite assignedBelow_lookup. rewrite decide_True by done.
    rewrite decide_True; [by rewrite Htg|]. right. apply elem_of_app. right. by left.
  - rewrite list_lookup_insert_ne by done. rewrite !assignedBelow_lookup.
    case_decide; [|done]. f_equal.
    assert (i ∈ p ++ [idx] <-> i ∈ p).
    { rewrite elem_of_app, list_elem_of_singleton. tauto. }
    repeat case_decide; tauto.
Qed.

Lemma growTile_assign idxAdj g (st : list (option nat) * list nat * bool) idx :
  (growTile idxAdj g st idx).1.1
  = if isUnassigned st.1.1 idx then <[idx := Some g]> st.1.1 else st.1.1.
Proof. by destruct st as [[a f] p]. Qed.

(** The tiles of the frontier of group [g] in the first round get group
    [g]. *)
Lemma growTile_fold_first idxAdj tg N g (frontier : list nat) :
  forall p (st : list (option nat) * list nat * bool),
  NoDup (p ++ frontier) ->
  (forall i, i ∈ frontier -> i < N /\ tg i = g) ->
  st.1.1 = assignedBelow tg N g p ->
  (foldl (growTile idxAdj g) st frontier).1.1 = assignedBelow tg N g (p ++ frontier).
Proof.
  induction frontier as [|idx frontier IH]; intros p st Hnd Hf Hst; simpl.
  - by rewrite app_nil_r.
  - replace (p ++ idx :: frontier) with ((p ++ [idx]) ++ frontier) in *
      by (by rewrite <- app_assoc).
    destruct (Hf idx ltac:(by left)) as [Hidx Htg].
    apply IH; [done|intros i Hi; apply Hf; by right|].
    rewrite growTile_assign, Hst.
    assert (Hun : isUnassigned (assignedBelow tg N g p) idx = true).
    { apply bool_decide_eq_true. rewrite assignedBelow_lookup.
      rewrite decide_True by done. rewrite decide_False; [done|].
      intros [?|Hin]; [lia|].
      apply NoDup_app in Hnd as (Hnd & _ & _). apply NoDup_app in Hnd as (_ & Hd & _).
      apply (Hd idx Hin). by left. }
    rewrite Hun. by apply assignedBelow_mark.
Qed.

Lemma growGroup_first idxAdj tg N g (st : list (option nat) * list (list nat) * bool)
    (fronts0 : list (list nat)) :
  g < length st.1.2 ->
  (forall g', g <= g' -> st.1.2 !! g' = fronts0 !! g') ->
  NoDup (groupAt fronts0 g) ->
  (forall i, i ∈ groupAt fronts0 g <-> i < N /\ tg i = g) ->
  st.1.1 = assignedBelow tg N g [] ->
  let st' := growGroup idxAdj st g in
  st'.1.1 = assignedBelow tg N (S g) []
  /\ length st'.1.2 = length st.1.2
  /\ (forall g', S g <= g' -> st'.1.2 !! g' = fronts0 !! g').
Proof.
  intros Hg Hfr Hnd Hmem Hst. destruct st as [[a fr] pr]. simpl in *.
  unfold growGroup. cbn [fst snd].
  assert (Efr : groupAt fr g = groupAt fronts0 g).
  { unfold groupAt. by rewrite Hfr. }
  rewrite Efr. split_and!.
  - rewrite (growTile_fold_first idxAdj tg N g (groupAt fronts0 g) [] (a, [], pr));
      [|done|intros i Hi; by apply Hmem|done].
    apply assignedBelow_ext. intros i Hi. simpl.
    rewrite Hmem. split; [intros [?|[_ ?]]; left; lia|].
    intros [?|[]%elem_of_nil]. destruct (decide (tg i < g)); [by left|right]. split; [done|lia].
  - by rewrite length_insert.
  - intros g' Hg'. rewrite list_lookup_insert_ne by lia. apply Hfr. lia.
Qed.

Lemma growRound_first idxAdj tg N k (fronts0 : list (list nat)) :
  length fronts0 = k ->
  (forall g, g < k -> NoDup (groupAt fronts0 g)) ->
  (forall g i, g < k -> i ∈ groupAt fronts0 g <-> i < N /\ tg i = g) ->
  (growRound idxAdj k (replicate N None) fronts0).1.1 = assignedBelow tg N k [].
Proof.
  intros Hlen Hnd Hmem. unfold growRound.
  assert (Hgen : forall m g (st : list (option nat) * list (list nat) * bool),
    g + m <= k ->
    length st.1.2 = k ->
    (forall g', g <= g' -> st.1.2 !! g' = fronts0 !! g') ->
    st.1.1 = assignedBelow tg N g [] ->
    (foldl (growGroup idxAdj) st (seq g m)).1.1 = assignedBelow tg N (g + m) []).
  { induction m as [|m IH]; intros g st Hgm Hl Hfr Hst; simpl.
    - by rewrite Nat.add_0_r.
    - destruct (growGroup_first idxAdj tg N g st fronts0) as (H1 & H2 & H3);
        [lia|done|apply Hnd; lia|intros i; apply Hmem; lia|done|].
      rewrite (IH (S g)); [f_equal; lia|lia|lia|done|done]. }
  rewrite (Hgen k 0 (replicate N None, fronts0, false)); [done|lia|done|done|].
  simpl. unfold assignedBelow. apply list_eq. intros i.
  rewrite lookup_fmap_seq. case_decide as Hi.
  - rewrite lookup_replicate_2 by done. rewrite decide_False; [done|].
    intros [?|[]%elem_of_nil]. lia.
  - rewrite lookup_ge_None_2; [done|]. rewrite length_replicate. lia.
Qed.

(** Once every tile has a group, the rounds change nothing. *)
Lemma growTile_full idxAdj g (st : list (option nat) * list nat * bool) idx :
  Forall (fun a => a ≠ None) st.1.1 -> (growTile idxAdj g st idx).1.1 = st.1.1.
Proof.
  intros Hfull. rewrite growTile_assign.
  destruct (isUnassigned st.1.1 idx) eqn:E; [|done].
  apply bool_decide_eq_true in E. rewrite Forall_lookup in Hfull.
  by specialize (Hfull _ _ E).
Qed.

Lemma growGroup_full idxAdj (st : list (option nat) * list (list nat) * bool) g :
  Forall (fun a => a ≠ None) st.1.1 -> (growGroup idxAdj st g).1.1 = st.1.1.
Proof.
  intros Hfull. destruct st as [[a fr] pr]. unfold growGroup. cbn [fst snd] in *.
  generalize (groupAt fr g). intros frontier.
  assert (Hgen : forall (st : list (option nat) * list nat * bool),
    Forall (fun a => a ≠ None) st.1.1 ->
    (foldl (growTile idxAdj g) st frontier).1.1 = st.1.1).
  { induction frontier as [|idx frontier IH]; intros st Hst; simpl; [done|].
    rewrite IH; [by apply growTile_full|]. by rewrite growTile_full. }
  by rewrite Hgen.
Qed.

Lemma growRound_full idxAdj k assign fronts :
  Forall (fun a => a ≠ None) assign -> (growRound idxAdj k assign fronts).1.1 = assign.
Proof.
  intros Hfull. unfold growRound.
  assert (Hgen : forall l (st : list (option nat) * list (list nat) * bool),
    Forall (fun a => a ≠ None) st.1.1 ->
    (foldl (growGroup idxAdj) st l).1.1 = st.1.1).
  { induction l as [|g l IH]; intros st Hst; simpl; [done|].
    rewrite IH; [by apply growGroup_full|]. by rewrite growGroup_full. }
  by rewrite Hgen.
Qed.

Lemma growLoop_full idxAdj k : forall fuel assign fronts,
  Forall (fun a => a ≠ None) assign -> growLoop idxAdj k fuel assign fronts = assign.
Proof.
  induction fuel as [|fuel IH]; intros assign fronts Hfull; simpl; [done|].
  rewrite growRound_full by done. destruct (growRound idxAdj k assign fronts).2; [|done].
  by apply IH.
Qed.

Lemma assignedBelow_full tg N k :
  (forall i, i < N -> tg i < k) ->
  assignedBelow tg N k [] = (fun i => Some (tg i)) <$> seq 0 N
  /\ Forall (fun a => a ≠ None) (assignedBelow tg N k []).
Proof.
  intros Htg.
  assert (E : assignedBelow tg N k [] = (fun i => Some (tg i)) <$> seq 0 N).
  { unfold assignedBelow. apply list_eq. intros i. rewrite !lookup_fmap_seq.
    case_decide as Hi; [|done]. rewrite decide_True; [done|]. left. by apply Htg. }
  split; [done|]. rewrite E. apply Forall_fmap, Forall_forall. by intros i _.
Qed.

(** The growth loop started on the queues of the nearest centers assigns
    every tile to its nearest center. *)
Lemma growLoop_first idxAdj tg N k (fronts0 : list (list nat)) :
  length fronts0 = k ->
  (forall g, g < k -> NoDup (groupAt fronts0 g)) ->
  (forall g i, g < k -> i ∈ groupAt fronts0 g <-> i < N /\ tg i = g) ->
  (forall i, i < N -> tg i < k) ->
  growLoop idxAdj k (S N) (replicate N None) fronts0 = (fun i => Some (tg i)) <$> seq 0 N.
Proof.
  intros Hlen Hnd Hmem Htg. cbn [growLoop].
  pose proof (growRound_first idxAdj tg N k fronts0 Hlen Hnd Hmem) as E.
  destruct (assignedBelow_full tg N k Htg) as [E2 Hfull].
  destruct (growRound idxAdj k (replicate N None) fronts0) as [[a fr] pr].
  simpl in *. subst a. destruct pr; [|done].
  rewrite growLoop_full by done. done.
Qed.

End GrowerRounds.

Section Grower.

Context {num : Type} `{!JSNumber num} `{!Externals num}.
Local Abbreviation Tile := (@Tile num).
Local Abbreviation Point := (@Point num).

Lemma setOf_fold (l : list nat) : forall acc,
  NoDup (acc ++ l) -> foldl (fun s x => sadd x s) acc l = acc ++ l.
Proof.
  induction l as [|x l IH]; intros acc Hnd; simpl.
  - by rewrite app_nil_r.
  - replace (acc ++ x :: l) with ((acc ++ [x]) ++ l) in * by (by rewrite <- app_assoc).
    rewrite <- IH by done. f_equal. unfold sadd. rewrite decide_False; [done|].
    intros Hin. apply NoDup_app in Hnd as (Hnd & _ & _).
    apply NoDup_app in Hnd as (_ & Hd & _). apply (Hd x Hin). by left.
Qed.

Lemma setOf_NoDup (l : list nat) : NoDup l -> setOf l = l.
Proof. intros Hnd. unfold setOf. by rewrite setOf_fold. Qed.

Lemma imap_pair_fst {A} (l : list A) : (imap pair l).*1 = seq 0 (length l).
Proof.
  assert (Hgen : forall k, (imap (fun i => pair (k + i)) l).*1 = seq k (length l)).
  { induction l as [|x l IH]; intros k; [done|]. cbn [imap fmap list_fmap length seq].
    rewrite Nat.add_0_r. f_equal. rewrite <- (IH (S k)). f_equal. apply imap_ext.
    intros i y _. simpl. f_equal. lia. }
  apply (Hgen 0).
Qed.

Lemma elem_of_filter_imap {A} (P1 : nat * A -> Prop) `{!forall x, Decision (P1 x)}
    (l : list A) i :
  i ∈ (filter P1 (imap pair l)).*1 <-> exists x, l !! i = Some x /\ P1 (i, x).
Proof.
  rewrite list_elem_of_fmap. split.
  - intros ([i' x] & -> & [HP Hin]%list_elem_of_filter). exists x.
    by apply elem_of_imap_pair in Hin.
  - intros (x & Hx & HP). exists (i, x). split; [done|].
    apply list_elem_of_filter. split; [done|]. by apply elem_of_imap_pair.
Qed.

Lemma NoDup_filter_imap {A} (P1 : nat * A -> Prop) `{!forall x, Decision (P1 x)}
    (l : list A) :
  NoDup (filter P1 (imap pair l)).*1.
Proof.
  eapply sublist_NoDup; [|apply fmap_sublist, sublist_filter].
  rewrite imap_pair_fst. apply NoDup_seq.
Qed.

(** What the kept part of a group is made of. *)
Lemma pruneGroup_keeps (st : list Tile * list (list Tile)) (g : list Tile) :
  exists keep,
    (pruneGroup st g).2 = st.2 ++ [keep]
    /\ keep ⊆ g
    /\ edgeConnected keep.
Proof.
  unfold pruneGroup. pose proof (split_components_connected g) as Hall.
  pose proof (splitConnectedComponents_perm g) as Hperm.
  set (comps := splitConnectedComponents (Some g)) in *.
  case_decide as Hlen.
  - exists g. split_and!; [done..|].
    destruct comps as [|c [|c' comps]]; simpl in *; [| |lia].
    + apply Permutation_nil_l in Hperm. subst g. by intros t1 t2 ?%elem_of_nil.
    + rewrite app_nil_r in Hperm. apply Forall_singleton in Hall as [_ Hc].
      intros t1 t2 H1 H2. rewrite <- Hperm in H1, H2.
      eapply rtc_subrel; [|by apply Hc]. intros a b (? & ? & ?).
      by rewrite <- !Hperm.
  - exists (groupAt (sortByLength comps) 0). split; [done|].
    pose proof (sortByLength_perm comps) as Hs.
    assert (Hin : groupAt (sortByLength comps) 0 ∈ comps).
    { assert (Hx : forall x, x ∈ sortByLength comps -> x ∈ comps).
      { intros x Hx. by rewrite <- Hs. }
      apply Hx. destruct (sortByLength comps) as [|c cs] eqn:E.
      - apply Permutation_length in Hs. simpl in Hs. lia.
      - by left. }
    split.
    + intros t Ht. rewrite <- Hperm. apply elem_of_concat. eauto.
    + rewrite Forall_forall in Hall. by destruct (Hall _ Hin).
Qed.

Lemma prune_fold_keeps (gs : list (list Tile)) : forall st : list Tile * list (list Tile),
  exists kept,
    (foldl pruneGroup st gs).2 = st.2 ++ kept
    /\ length kept = length gs
    /\ (forall j keep, kept !! j = Some keep -> keep ⊆ groupAt gs j /\ edgeConnected keep).
Proof.
  induction gs as [|g gs IH]; intros st; simpl.
  - exists []. split_and!; [by rewrite app_nil_r|done|by intros j keep ?].
  - destruct (pruneGroup_keeps st g) as (keep & E & Hsub & Hc).
    destruct (IH (pruneGroup st g)) as (kept & E' & Hl & Hk).
    exists (keep :: kept). split_and!.
    + rewrite E', E, <- app_assoc. done.
    + simpl. lia.
    + intros [|j] keep'; simpl.
      * intros [= <-]. split; [|done]. done.
      * apply Hk.
Qed.

(** The groups, the pool and the array [assign] returned by the grower. *)
Lemma grow_nearest (polys : list Tile) k minTiles s G s' :
  growConnectedGroups polys k minTiles s = Some (G, s') ->
  let centerPos := (fun c => (cx c, cy c)) <$> (generateCentersInPolygons k polys s).1 in
  let nearest := fun t : Tile => nearestIndex (polygonCentroid (verts t)) centerPos k in
  assign G = nearest <$> polys
  /\ (forall j t, t ∈ groupAt (groups G) j -> nearest t = Some j)
  /\ Forall edgeConnected (groups G).
Proof.
  unfold growConnectedGroups. cbn zeta.
  set (centerPos := (fun c => (cx c, cy c)) <$> (generateCentersInPolygons k polys s).1).
  set (nearest := fun t : Tile => nearestIndex (polygonCentroid (verts t)) centerPos k).
  intros Hg. apply bind_Some in Hg as (qs & Hqs & Hg).
  apply bind_Some in Hg as (gs & Hgs & Hg).
  injection Hg as <- <-. cbn [assign groups].
  (* the queues *)
  apply (push_fold_spec (fun it : nat * Tile => nearest it.2) fst) in Hqs
    as (Hlq & Hkq & Hq).
  rewrite length_replicate in Hlq.
  set (tg := fun i => default 0 (polys !! i ≫= nearest)).
  assert (Htg : forall i t, polys !! i = Some t -> nearest t = Some (tg i) /\ tg i < k).
  { intros i t Hi. destruct (Hkq (i, t)) as (b & Hb & Hbk).
    { by apply elem_of_imap_pair. }
    rewrite length_replicate in Hbk. simpl in Hb. unfold tg. rewrite Hi. simpl.
    by rewrite Hb. }
  assert (Hqg : forall g, groupAt qs g
                = (filter (fun it : nat * Tile => nearest it.2 = Some g) (imap pair polys)).*1).
  { intros g. rewrite Hq.
    assert (groupAt (replicate k (@nil nat)) g = []) as ->; [|done].
    unfold groupAt. destruct (replicate k [] !! g) eqn:E; [|done].
    by apply lookup_replicate in E as [-> _]. }
  assert (Hfr : forall g, groupAt (setOf <$> qs) g = groupAt qs g).
  { intros g. unfold groupAt at 1. rewrite list_lookup_fmap.
    destruct (qs !! g) as [q|] eqn:E; simpl.
    - rewrite <- (groupAt_lookup _ _ _ E). apply setOf_NoDup.
      rewrite Hqg. apply NoDup_filter_imap.
    - by rewrite groupAt_ge by (by apply lookup_ge_None). }
  assert (Eassign : growLoop (buildAdjacency polys) k (S (length polys))
                      (replicate (length polys) None) (setOf <$> qs)
                    = nearest <$> polys).
  { rewrite (growLoop_first _ tg).
    - apply list_eq. intros i. rewrite lookup_fmap_seq, list_lookup_fmap.
      case_decide as Hi.
      + destruct (lookup_lt_is_Some_2 polys i Hi) as [t Ht]. rewrite Ht. simpl.
        by destruct (Htg i t Ht) as [-> _].
      + by rewrite lookup_ge_None_2 by lia.
    - by rewrite length_fmap.
    - intros g _. rewrite Hfr, Hqg. apply NoDup_filter_imap.
    - intros g i _. rewrite Hfr, Hqg, elem_of_filter_imap. simpl. split.
      + intros (t & Ht & Hn). split; [by eapply lookup_lt_Some|].
        destruct (Htg i t Ht) as [E _]. congruence.
      + intros [Hi <-]. destruct (lookup_lt_is_Some_2 polys i Hi) as [t Ht].
        exists t. split; [done|]. by destruct (Htg i t Ht).
    - intros i Hi. destruct (lookup_lt_is_Some_2 polys i Hi) as [t Ht].
      by destruct (Htg i t Ht). }
  rewrite Eassign in Hgs.
  split; [exact Eassign|].
  (* the groups collected from [assign] *)
  apply (push_fold_spec
           (fun it : nat * Tile => Some (default 0 (mjoin ((nearest <$> polys) !! it.1)))) snd)
    in Hgs as (Hlg & _ & Hcol).
  destruct (prune_fold_keeps gs ([], [])) as (kept & Ek & Hlk & Hkept).
  simpl in Ek. rewrite Ek.
  split.
  - intros j t Ht.
    destruct (kept !! j) as [keep|] eqn:Ej.
    2:{ unfold groupAt in Ht. rewrite Ej in Ht. by apply elem_of_nil in Ht. }
    rewrite (groupAt_lookup _ _ _ Ej) in Ht.
    destruct (Hkept j keep Ej) as [Hsub _]. apply Hsub in Ht.
    rewrite Hcol in Ht.
    assert (groupAt (replicate k (@nil Tile)) j = []) as Hnil.
    { unfold groupAt. destruct (replicate k [] !! j) eqn:E; [|done].
      by apply lookup_replicate in E as [-> _]. }
    rewrite Hnil in Ht. simpl in Ht.
    apply list_elem_of_fmap in Ht as ([i t'] & -> & [Hkey Hin]%list_elem_of_filter).
    simpl in *. apply elem_of_imap_pair in Hin. simpl in Hin.
    rewrite list_lookup_fmap, Hin in Hkey. simpl in Hkey.
    destruct (Htg i t' Hin) as [E _]. rewrite E in Hkey. simpl in Hkey.
    injection Hkey as <-. exact E.
  - apply Forall_lookup. intros j keep Hj. by destruct (Hkept j keep Hj).
Qed.

(** The search loop of the grower finds the first nearest center. *)
Lemma nearestFrom_first (c : Point) (centerPos : list Point) : forall n a best bd j,
  ltOrders (sqDist c <$> centerPos) ->
  a + n <= length centerPos ->
  bd ∈ nInfinity :: (sqDist c <$> centerPos) ->
  (forall i p, i < a -> centerPos !! i = Some p -> nlt (sqDist c p) bd = false) ->
  ((exists pb, best < a /\ centerPos !! best = Some pb /\ bd = sqDist c pb
               /\ forall i p, i < best -> centerPos !! i = Some p ->
                    nlt bd (sqDist c p) = true)
   \/ (best = 0 /\ bd = nInfinity)) ->
  nearestFrom c centerPos (seq a n) best bd = Some j ->
  exists bd',
    (forall i p, i < a + n -> centerPos !! i = Some p -> nlt (sqDist c p) bd' = false)
    /\ ((exists pb, j < a + n /\ centerPos !! j = Some pb /\ bd' = sqDist c pb
                    /\ forall i p, i < j -> centerPos !! i = Some p ->
                         nlt bd' (sqDist c p) = true)
        \/ (j = 0 /\ bd' = nInfinity)).
Proof.
  intros n a best bd j (Hirr & Htr & Hneg & Htop).
  revert a best bd.
  assert (Hin : forall i p, centerPos !! i = Some p ->
                  sqDist c p ∈ nInfinity :: (sqDist c <$> centerPos)).
  { intros i p Hp. right. apply list_elem_of_fmap. exists p. split; [done|].
    by eapply list_elem_of_lookup_2. }
  induction n as [|n IH]; intros a best bd Hlen Hbd Hlow Hbest; simpl.
  - intros [= ->]. exists bd. rewrite Nat.add_0_r. split; [done|].
    destruct Hbest as [(pb & ? & ? & ? & ?)|?]; [left|by right].
    by exists pb.
  - destruct (lookup_lt_is_Some_2 centerPos a) as [p Hp]; [lia|]. rewrite Hp.
    destruct (nlt (sqDist c p) bd) eqn:Hd; intros Hj.
    + destruct (IH (S a) a (sqDist c p)) as (bd' & H1 & H2); [lia|by eapply (Hin a)| | |done|].
      * intros i q Hi Hq. destruct (decide (i = a)) as [->|Hne].
        -- rewrite Hp in Hq. injection Hq as <-. apply Hirr. by eapply (Hin a).
        -- destruct (nlt (sqDist c q) (sqDist c p)) eqn:E; [|done].
           rewrite <- (Hlow i q ltac:(lia) Hq).
           symmetry. apply (Htr _ (sqDist c p)); [by eapply (Hin i)|by eapply (Hin a)|done..].
      * left. exists p. split_and!; [lia|done|done|].
        intros i q Hi Hq.
        destruct (Hneg (sqDist c p) bd (sqDist c q)) as [E|E];
          [by eapply (Hin a)|done|by eapply (Hin i)|done|done|].
        by rewrite (Hlow i q Hi Hq) in E.
      * exists bd'. replace (a + S n) with (S a + n) by lia. done.
    + destruct (IH (S a) best bd) as (bd' & H1 & H2); [lia|done| | |done|].
      * intros i q Hi Hq. destruct (decide (i = a)) as [->|Hne].
        -- rewrite Hp in Hq. by injection Hq as <-.
        -- apply (Hlow i); [lia|done].
      * destruct Hbest as [(pb & ? & ? & ? & ?)|?]; [left|by right].
        exists pb. split_and!; [lia|done..].
      * exists bd'. replace (a + S n) with (S a + n) by lia. done.
Qed.

Lemma nearestIndex_first (c : Point) (centerPos : list Point) k j :
  ltOrders (sqDist c <$> centerPos) ->
  0 < k -> k <= length centerPos ->
  nearestIndex c centerPos k = Some j ->
  firstNearest c centerPos k j.
Proof.
  intros Hord Hk Hlen Hj. pose proof Hord as (Hirr & Htr & Hneg & Htop).
  destruct (nearestFrom_first c centerPos k 0 0 nInfinity j Hord) as (bd' & Hlow & Hbest);
    [done|by left|intros; lia|by right|done|].
  simpl in Hlow, Hbest.
  assert (Hin : forall i p, centerPos !! i = Some p ->
                  sqDist c p ∈ nInfinity :: (sqDist c <$> centerPos)).
  { intros i p Hp. right. apply list_elem_of_fmap. exists p. split; [done|].
    by eapply list_elem_of_lookup_2. }
  destruct Hbest as [(pb & Hjk & Hpb & -> & Hfirst)|[-> ->]].
  - split; [done|]. exists pb. by split_and!.
  - split; [done|]. destruct (lookup_lt_is_Some_2 centerPos 0) as [p0 Hp0]; [lia|].
    exists p0. split_and!; [done| |intros; lia].
    intros i p Hi Hp. destruct (nlt (sqDist c p) (sqDist c p0)) eqn:E; [|done].
    destruct (Hneg (sqDist c p) (sqDist c p0) nInfinity) as [E'|E'];
      [by eapply (Hin i)|by eapply (Hin 0)|by left|done| |].
    + by rewrite (Hlow i p Hi Hp) in E'.
    + rewrite Htop in E'; [done|by eapply (Hin 0)].
Qed.

(** X10. The multi-source growth of [growConnectedGroups] assigns every tile
    to the center nearest to its centroid, the first among equally near
    ones: when [<] orders the distances from the centroid of each tile to
    the centers (none is [NaN]), the array [assign] holds for every tile a
    center than which no center is nearer and before which every center is
    farther, and every tile of the returned group [j] has [j] as this
    center. *)
Theorem grow_assigns_nearest (polys : list Tile) k minTiles s G s' :
  let centerPos := (fun c => (cx c, cy c)) <$> (generateCentersInPolygons k polys s).1 in
  (forall t, t ∈ polys -> ltOrders (sqDist (polygonCentroid (verts t)) <$> centerPos)) ->
  growConnectedGroups polys k minTiles s = Some (G, s') ->
  length (assign G) = length polys
  /\ (forall i t, polys !! i = Some t ->
        exists j, assign G !! i = Some (Some j)
                  /\ firstNearest (polygonCentroid (verts t)) centerPos k j)
  /\ (forall j t, t ∈ groupAt (groups G) j ->
        firstNearest (polygonCentroid (verts t)) centerPos k j).
Proof.
  intros centerPos Hord Hg.
  destruct (grow_nearest polys k minTiles s G s' Hg) as (H1 & H2 & _).
  fold centerPos in H1, H2.
  assert (Hk : polys ≠ [] -> 0 < k /\ k <= length centerPos).
  { intros Hne.
    destruct (decide (0 < k /\ length (generateCentersInPolygons k polys s).1 = k))
      as [[? Hl]|Hn].
    - split; [done|]. unfold centerPos. rewrite length_fmap. lia.
    - rewrite grow_None in Hg; [done|done|].
      pose proof (generateCenters_length_le k polys s). lia. }
  assert (Hfirst : forall t j, t ∈ polys ->
            nearestIndex (polygonCentroid (verts t)) centerPos k = Some j ->
            firstNearest (polygonCentroid (verts t)) centerPos k j).
  { intros t j Ht Hj. destruct Hk as [Hk0 Hkl]; [by intros ->; apply elem_of_nil in Ht|].
    apply nearestIndex_first; [by apply Hord|done..]. }
  assert (Hperm : pool G ++ concat (groups G) ≡ₚ polys) by (by apply grow_Some in Hg as (_ & ? & _)).
  split_and!.
  - by rewrite H1, length_fmap.
  - intros i t Hi.
    assert (Ht : t ∈ polys) by (by eapply list_elem_of_lookup_2).
    destruct Hk as [Hk0 Hkl]; [by intros ->; apply elem_of_nil in Ht|].
    destruct (nearestIndex_is_Some (polygonCentroid (verts t)) centerPos k Hkl) as [j Hj].
    exists j. split; [|by apply Hfirst].
    by rewrite H1, list_lookup_fmap, Hi; simpl; rewrite Hj.
  - intros j t Ht. apply Hfirst; [|by apply H2].
    rewrite <- Hperm. apply elem_of_app. right. apply elem_of_concat.
    unfold groupAt in Ht. destruct (groups G !! j) as [g|] eqn:E; [|by apply elem_of_nil in Ht].
    exists g. split; [done|by eapply list_elem_of_lookup_2].
Qed.

(** X11. Every group that [growConnectedGroups] returns is in one piece:
    every two of its tiles are joined by a chain of tiles of the group in
    which consecutive tiles share an edge; there are [k] groups. *)
Theorem grow_groups_connected (polys : list Tile) k minTiles s G s' :
  growConnectedGroups polys k minTiles s = Some (G, s') ->
  length (groups G) = k /\ Forall edgeConnected (groups G).
Proof.
  intros Hg. destruct (grow_nearest polys k minTiles s G s' Hg) as (_ & _ & H3).
  split; [|done]. by apply grow_Some in Hg as (? & _).
Qed.

(** X12. [growConnectedGroups] returns exactly when the tile list is empty
    or the seeder has produced a center for each of [k >= 1] groups; in every
    other case it raises a [TypeError]. *)
Theorem grow_returns_iff (polys : list Tile) k minTiles s :
  is_Some (growConnectedGroups polys k minTiles s)
  <-> polys = [] \/ (0 < k /\ length (generateCentersInPolygons k polys s).1 = k).
Proof.
  split; [|apply grow_is_Some].
  intros Hs. destruct (decide (polys = [])) as [->|Hne]; [by left|right].
  pose proof (generateCenters_length_le k polys s) as Hle.
  destruct (decide (0 < k /\ length (generateCentersInPolygons k polys s).1 = k))
    as [?|Hn]; [done|].
  rewrite grow_None in Hs; [by destruct Hs|done|]. lia.
Qed.

End Grower.

Section RebalanceMore.

Context {num : Type} `{!JSNumber num} `{!Externals num}.
Local Abbreviation Tile := (@Tile num).
Local Abbreviation Point := (@Point num).

Lemma safeTransfer_minimum minTiles (groups groups' : list (list Tile)) j :
  NoDup (tid <$> concat groups) ->
  safeTransfer minTiles groups groups' ->
  minTiles <= length (groupAt groups j) -> minTiles <= length (groupAt groups' j).
Proof.
  intros Hnd (gi & gj & t & Hne & Hsize & Ht & (r & Hr & _) & _ & -> & Hd & Hrcv & _) Hj.
  pose proof (groupAt_elem_lookup _ _ _ Ht) as Hlj.
  pose proof (groupAt_elem_lookup _ _ _ Hr) as Hli.
  destruct (decide (j = gj)) as [->|Hnj].
  - rewrite Hd.
    pose proof (removeTile_perm _ t (NoDup_concat_lookup _ _ _ Hnd Hlj) Ht) as Hp.
    apply Permutation_length in Hp. simpl in Hp. lia.
  - destruct (decide (j = gi)) as [->|Hni].
    + rewrite Hrcv, length_app. simpl. lia.
    + unfold moveTile. by rewrite !groupAt_insert_ne by done.
Qed.

Lemma safeTransfers_minimum minTiles (groups groups' : list (list Tile)) j :
  NoDup (tid <$> concat groups) ->
  rtc (safeTransfer minTiles) groups groups' ->
  minTiles <= length (groupAt groups j) -> minTiles <= length (groupAt groups' j).
Proof.
  intros Hnd Hrtc. induction Hrtc as [gs|gs gs1 gs2 Hst _ IH]; [done|].
  intros Hj. apply IH.
  - rewrite (safeTransfer_perm _ _ _ Hnd Hst). done.
  - by eapply safeTransfer_minimum.
Qed.

(** X13. When the tiles are distinct objects, a group that has at least
    [minTiles] tiles when [rebalanceBoundaries] is called has at least
    [minTiles] tiles in the result: the pool is only added to groups, and a
    donor never gives below the minimum. *)
Theorem rebalance_keeps_minimum (groups : list (list Tile)) pool idxAdj minTiles
    targetCounts out j :
  NoDup (tid <$> (concat groups ++ pool)) ->
  rebalanceBoundaries groups pool idxAdj minTiles targetCounts = Some out ->
  minTiles <= length (groupAt groups j) ->
  minTiles <= length (groupAt out j).
Proof.
  intros Hnd Hr Hj. unfold rebalanceBoundaries in Hr. cbn zeta in Hr.
  apply bind_Some in Hr as (groups1 & H1 & Hr).
  apply (inj Some) in Hr. subst out.
  pose proof (assign_fold _ _ _ _ _ H1) as [_ Hperm].
  apply (push_fold_spec
           (fun p : Tile => nearestIndex (polygonCentroid (verts p))
                              (centroidOfGroup <$> groups) (length groups)) (fun p : Tile => p))
    in H1 as (_ & _ & Hg).
  eapply safeTransfers_minimum; [|apply exchangeRounds_safe|].
  - by rewrite Hperm.
  - rewrite Hg, length_app. lia.
Qed.

(** X14. [rebalanceBoundaries] raises a [TypeError] exactly when it is given
    no group and a pool that is not empty; and it returns the groups as they
    are when the pool is empty and no group is below [minTiles]. *)
Theorem rebalance_returns_iff (groups : list (list Tile)) pool idxAdj minTiles targetCounts :
  (is_Some (rebalanceBoundaries groups pool idxAdj minTiles targetCounts)
   <-> 0 < length groups \/ pool = [])
  /\ (pool = [] -> Forall (fun g => minTiles <= length g) groups ->
      rebalanceBoundaries groups pool idxAdj minTiles targetCounts = Some groups).
Proof.
  split.
  - split; [|apply rebalance_is_Some].
    intros Hs. destruct groups as [|g groups]; [right|left; simpl; lia].
    destruct pool as [|p pool]; [done|exfalso].
    unfold rebalanceBoundaries in Hs. cbn zeta in Hs. cbn [foldl] in Hs.
    assert (E : assignToNearest (centroidOfGroup <$> []) (length (@nil (list Tile)))
                  (Some []) p = None) by reflexivity.
    rewrite E, foldl_option_None in Hs by done.
    cbn [mbind option_bind] in Hs. by destruct Hs.
  - intros -> Hall. unfold rebalanceBoundaries. cbn zeta. cbn [foldl mbind option_bind].
    rewrite filter_none; [reflexivity|].
    intros i [_ Hi]%elem_of_seq. cbn [Nat.add] in Hi.
    destruct (lookup_lt_is_Some_2 groups i Hi) as [g Hg].
    rewrite (groupAt_lookup _ _ _ Hg). rewrite Forall_lookup in Hall.
    specialize (Hall _ _ Hg). lia.
Qed.

End RebalanceMore.

Section LargestMore.

Context {num : Type} `{!JSNumber num}.
Local Abbreviation Tile := (@Tile num).
Local Abbreviation Edge := (@Edge num).
Local Abbreviation Point := (@Point num).

Lemma largestIndices_cases (polys : list Tile) :
  largestIndices polys = []
  \/ isComponent (largestAdjacency polys) (length polys) (largestIndices polys).
Proof.
  rewrite largestIndices_components.
  destruct (pickBest_spec (components (largestAdjacency polys) (length polys)))
    as [_ Hfirst].
  destruct (decide (pickBest (components (largestAdjacency polys) (length polys)) = []))
    as [?|Hne]; [by left|right].
  destruct (Hfirst Hne) as (j & Hj & _).
  apply components_isComponent; [apply largestAdjacency_ok|].
  by eapply list_elem_of_lookup_2.
Qed.

Lemma largestIndices_nonempty (polys : list Tile) :
  polys ≠ [] -> largestIndices polys ≠ [].
Proof.
  intros Hne. rewrite largestIndices_components.
  pose proof (largestAdjacency_ok polys) as Hok.
  pose proof (components_partition _ _ (proj1 Hok)) as Hperm.
  destruct (pickBest_spec (components (largestAdjacency polys) (length polys)))
    as [Hmax _].
  assert (0 ∈ concat (components (largestAdjacency polys) (length polys)))
    as (c & H0 & Hc)%elem_of_concat.
  { rewrite Hperm. apply elem_of_seq. destruct polys; [done|]. simpl. lia. }
  specialize (Hmax c Hc). destruct c; [by apply elem_of_nil in H0|].
  intros E. rewrite E in Hmax. simpl in Hmax. lia.
Qed.

Lemma largest_submseteq (polys : list Tile) : largestConnectedComponent polys ⊆+ polys.
Proof.
  unfold largestConnectedComponent.
  destruct (decide (largestIndices polys = [])) as [->|Hne];
    [apply submseteq_nil_l|].
  pose proof (largestAdjacency_ok polys) as Hok.
  pose proof (components_partition _ _ (proj1 Hok)) as Hperm.
  assert (Hin : largestIndices polys
                ∈ components (largestAdjacency polys) (length polys)).
  { rewrite largestIndices_components in Hne |- *.
    destruct (pickBest_spec (components (largestAdjacency polys) (length polys)))
      as [_ Hfirst].
    destruct (Hfirst Hne) as (j & Hj & _). by eapply list_elem_of_lookup_2. }
  apply elem_of_Permutation in Hin as [others Ho].
  apply concat_perm in Ho. simpl in Ho. rewrite Ho in Hperm.
  assert (Hp : tilesAt polys (seq 0 (length polys))
               ≡ₚ tilesAt polys (largestIndices polys ++ concat others)).
  { unfold tilesAt. apply omap_Permutation. by symmetry. }
  rewrite (tilesAt_all polys) in Hp.
  etrans; [|apply Permutation_submseteq; symmetry; exact Hp].
  unfold tilesAt. rewrite omap_app. by apply submseteq_inserts_r.
Qed.

Lemma largest_nil_iff (polys : list Tile) :
  largestConnectedComponent polys = [] <-> polys = [].
Proof.
  unfold largestConnectedComponent. split.
  - intros E. destruct (decide (polys = [])) as [?|Hne]; [done|exfalso].
    pose proof (largestIndices_nonempty polys Hne) as Hb.
    destruct (largestIndices_cases polys) as [?|(_ & _ & Hcl)]; [done|].
    apply (f_equal length) in E. rewrite tilesAt_length in E.
    + destruct (largestIndices polys); done.
    + intros v Hv. by destruct (Hcl v Hv).
  - by intros ->.
Qed.

Lemma largest_edgeConnected (polys : list Tile) :
  edgeConnected (largestConnectedComponent polys).
Proof.
  unfold largestConnectedComponent.
  destruct (largestIndices_cases polys) as [->|Hcomp].
  - by intros t1 t2 ?%elem_of_nil.
  - apply connectedWithin_edgeConnected. by eapply isComponent_connectedWithin.
Qed.

(** X15. [largestConnectedComponent] returns tiles of its input, each at
    most as often as the input has it; it returns the empty list only for
    the empty list. *)
Theorem largestConnectedComponent_subset (polys : list Tile) :
  largestConnectedComponent polys ⊆+ polys
  /\ (largestConnectedComponent polys = [] <-> polys = []).
Proof. split; [apply largest_submseteq|apply largest_nil_iff]. Qed.

(** In a connected graph on [n > 0] tiles the largest component holds all
    the tiles. *)
Lemma pickBest_connected adj n :
  adjOk n adj -> 0 < n ->
  (forall u v, u < n -> v < n -> connected adj u v) ->
  pickBest (components adj n) ≡ₚ seq 0 n.
Proof.
  intros Hok Hn Hconn.
  pose proof (components_partition adj n (proj1 Hok)) as Hperm.
  assert (0 ∈ concat (components adj n)) as (c0 & H0 & Hc0)%elem_of_concat.
  { rewrite Hperm. apply elem_of_seq. lia. }
  pose proof (components_isComponent adj n c0 Hok Hc0) as (_ & Hnd0 & Hcl0).
  destruct (Hcl0 0 H0) as [_ Hclass].
  assert (Hlen0 : n <= length c0).
  { rewrite <- (length_seq n 0). apply submseteq_length, NoDup_submseteq; [apply NoDup_seq|].
    intros v [_ Hv]%elem_of_seq. apply Hclass, Hconn; lia. }
  destruct (pickBest_spec (components adj n)) as [Hmax Hfirst].
  specialize (Hmax c0 Hc0).
  assert (Hne : pickBest (components adj n) ≠ []).
  { intros E. rewrite E in Hmax. simpl in Hmax. lia. }
  destruct (Hfirst Hne) as (j & Hj & _).
  pose proof (components_isComponent adj n _ Hok (list_elem_of_lookup_2 _ _ _ Hj))
    as (_ & Hnd & Hcl).
  apply submseteq_length_Permutation; [|rewrite length_seq; lia].
  apply NoDup_submseteq; [done|]. intros v Hv. apply elem_of_seq.
  destruct (Hcl v Hv). lia.
Qed.

(** X16. [largestConnectedComponent] applied to its own result returns the
    same tiles: the component it returns is connected by itself. *)
Theorem largestConnectedComponent_idempotent (polys : list Tile) :
  largestConnectedComponent (largestConnectedComponent polys)
  ≡ₚ largestConnectedComponent polys.
Proof.
  destruct (largestIndices_cases polys) as [E|Hcomp].
  { unfold largestConnectedComponent at 2 3. rewrite E. done. }
  set (best := largestIndices polys) in *.
  set (R := largestConnectedComponent polys).
  pose proof Hcomp as (Hbne & Hnd & Hcl).
  assert (Hb : forall v, v ∈ best -> v < length polys).
  { intros v Hv. by destruct (Hcl v Hv). }
  assert (HlenR : length R = length best) by (by apply tilesAt_length).
  assert (HR : forall a, R !! a = best !! a ≫= fun u => polys !! u).
  { intros a. unfold R, largestConnectedComponent, tilesAt. fold best.
    apply omap_lookup_total. intros u Hu. apply lookup_lt_is_Some_2. by apply Hb. }
  pose proof (isComponent_connectedWithin _ _ _ Hcomp) as Hwithin.
  (* a path inside the component is a path between positions of the result *)
  assert (Hpath : forall u v,
    rtc (fun a b => adjacent (largestAdjacency polys) a b /\ a ∈ best /\ b ∈ best) u v ->
    forall a, best !! a = Some u ->
    exists b, best !! b = Some v /\ connected (largestAdjacency R) a b).
  { intros u v Huv. induction Huv as [x|x y z (Hxy & Hx & Hy) _ IH]; intros a Ha.
    - exists a. split; [done|apply rtc_refl].
    - apply list_elem_of_lookup_1 in Hy as [a' Ha'].
      destruct (IH a' Ha') as (b & Hb' & Hc). exists b. split; [done|].
      destruct (decide (x = y)) as [->|Hne].
      + by rewrite (NoDup_lookup _ _ _ _ Hnd Ha Ha').
      + eapply rtc_l; [|exact Hc].
        apply largestAdjacency_touching in Hxy as (tx & ty & Htx & Hty & Hs); [|done].
        apply largestAdjacency_touching.
        * intros ->. congruence.
        * exists tx, ty. rewrite !HR, Ha, Ha'. done. }
  assert (Hconn : forall a b, a < length R -> b < length R ->
                              connected (largestAdjacency R) a b).
  { intros a b Ha Hb'. rewrite HlenR in Ha, Hb'.
    destruct (lookup_lt_is_Some_2 best a Ha) as [u Hu].
    destruct (lookup_lt_is_Some_2 best b Hb') as [v Hv].
    destruct (Hpath u v) with (a := a) as (b' & Hb'' & Hc); [|done|].
    - apply Hwithin; by eapply list_elem_of_lookup_2.
    - by rewrite (NoDup_lookup _ _ _ _ Hnd Hv Hb''). }
  unfold largestConnectedComponent at 1. fold R.
  rewrite largestIndices_components.
  transitivity (tilesAt R (seq 0 (length R))); [|by rewrite tilesAt_all].
  unfold tilesAt.
  apply omap_Permutation. apply pickBest_connected; [apply largestAdjacency_ok| |done].
  rewrite HlenR. destruct best; [done|simpl; lia].
Qed.

End LargestMore.

Module IslandBands.
Import Island.
Local Open Scope R_scope.

Section Bands.

Context {Polygon : Type}.
Variable polygonCentroid : Polygon -> R * R.
Variable pixelScale : R.

Lemma length_le_dist c o : length_ c o <= distToCenter c o.
Proof.
  unfold length_, distToCenter.
  set (dx := fst c - cpx o). set (dy := snd c - cpy o).
  assert (Hx : Rabs dx <= sqrt (dx ^ 2 + dy ^ 2)).
  { rewrite <- sqrt_Rsqr_abs. apply sqrt_le_1_alt. unfold Rsqr. nra. }
  assert (Hy : Rabs dy <= sqrt (dx ^ 2 + dy ^ 2)).
  { rewrite <- sqrt_Rsqr_abs. apply sqrt_le_1_alt. unfold Rsqr. nra. }
  pose proof (Rmax_lub _ _ _ Hx Hy). lra.
Qed.

Lemma IsTargetPokygon_near polygon o startAngle bumps scale :
  0 < pixelScale * scale ->
  distToCenter (polygonCentroid polygon) o < 0.1 * (pixelScale * scale) ->
  IsTargetPokygon polygonCentroid pixelScale polygon o startAngle bumps scale = true.
Proof.
  intros Hps Hd. unfold IsTargetPokygon.
  set (c := polygonCentroid polygon) in *.
  pose proof (IslandFacts.r1_bounds pixelScale c o startAngle bumps scale ltac:(lra)).
  pose proof (length_le_dist c o).
  apply orb_true_iff. left. apply IslandFacts.Rltb_true. lra.
Qed.

Lemma IsTargetPokygon_far polygon o startAngle bumps scale :
  0 < pixelScale * scale ->
  1.8 * (pixelScale * scale) <= distToCenter (polygonCentroid polygon) o ->
  IsTargetPokygon polygonCentroid pixelScale polygon o startAngle bumps scale = false.
Proof.
  intros Hps Hd. unfold IsTargetPokygon.
  set (c := polygonCentroid polygon) in *.
  pose proof (IslandFacts.r1_bounds pixelScale c o startAngle bumps scale ltac:(lra)).
  pose proof (IslandFacts.r2_bounds pixelScale c o startAngle bumps scale ltac:(lra)).
  pose proof (IslandFacts.length_ge_half_dist c o).
  apply orb_false_iff. split; [apply IslandFacts.Rltb_false; lra|].
  apply andb_false_iff. right. apply IslandFacts.Rltb_false. lra.
Qed.

Lemma IsTargetPokygon_flat polygon o startAngle bumps scale :
  pixelScale * scale <= 0 ->
  IsTargetPokygon polygonCentroid pixelScale polygon o startAngle bumps scale = false.
Proof.
  intros Hps. unfold IsTargetPokygon.
  set (c := polygonCentroid polygon) in *.
  pose proof (IslandFacts.length_nonneg c o).
  pose proof (SIN_bound (startAngle + bumps * angle c o + cos ((bumps + 3) * angle c o)))
    as [Hs1 Hs2].
  pose proof (SIN_bound (startAngle + bumps * angle c o - sin ((bumps + 2) * angle c o)))
    as [Hs3 Hs4].
  apply orb_false_iff. split.
  - apply IslandFacts.Rltb_false. unfold r1. rewrite Rmult_assoc.
    set (k := sin _) in *. nra.
  - apply andb_false_iff. right. apply IslandFacts.Rltb_false. unfold r2. rewrite Rmult_assoc.
    set (k := sin _) in *. nra.
Qed.

(** X17. For every start angle, number of bumps and scale: when
    [pixelScale * scale] is positive, a tile whose centroid is nearer to the
    center than a tenth of it is land and a tile whose centroid is at least
    1.8 times it away is water; when [pixelScale * scale] is not positive,
    no tile is land. *)
Theorem IsTargetPokygon_bands polygon o startAngle bumps scale :
  (0 < pixelScale * scale ->
   distToCenter (polygonCentroid polygon) o < 0.1 * (pixelScale * scale) ->
   IsTargetPokygon polygonCentroid pixelScale polygon o startAngle bumps scale = true)
  /\ (0 < pixelScale * scale ->
      1.8 * (pixelScale * scale) <= distToCenter (polygonCentroid polygon) o ->
      IsTargetPokygon polygonCentroid pixelScale polygon o startAngle bumps scale = false)
  /\ (pixelScale * scale <= 0 ->
      IsTargetPokygon polygonCentroid pixelScale polygon o startAngle bumps scale = false).
Proof.
  split_and!;
    [apply IsTargetPokygon_near|apply IsTargetPokygon_far|apply IsTargetPokygon_flat].
Qed.

End Bands.

End IslandBands.

Section MainlandFacts.

Context {num : Type} `{!JSNumber num} `{!Externals num}.
Local Abbreviation Tile := (@Tile num).
Variable toR : num -> R.
Variable pixelScale : num.

Lemma elem_of_landCandidates (polygons : list (option Tile)) t :
  t ∈ landCandidates toR pixelScale polygons
  <-> Some t ∈ polygons /\ 4 <= length (verts t) /\ isLand toR pixelScale t = true.
Proof.
  unfold landCandidates. rewrite list_elem_of_omap. split.
  - intros ([p|] & Hin & Hp); [|done].
    case_decide; [done|]. destruct (isLand toR pixelScale p) eqn:E; [|done].
    injection Hp as ->. split_and!; [done|lia|done].
  - intros (Hin & Hlen & Hland). exists (Some t). split; [done|].
    rewrite decide_False by lia. by rewrite Hland.
Qed.

Lemma isLand_within (t : Tile) :
  isLand toR pixelScale t = true ->
  (Island.distToCenter (tileCentroid toR t) (mapCenterPoint toR) < 1.8 * toR pixelScale)%R.
Proof.
  intros Hland. unfold isLand in Hland.
  destruct (Rle_lt_dec (toR pixelScale * 1) 0) as [Hle|Hlt].
  { rewrite IslandBands.IsTargetPokygon_flat in Hland; done. }
  destruct (Rlt_le_dec (Island.distToCenter (tileCentroid toR t) (mapCenterPoint toR))
                       (1.8 * toR pixelScale)) as [?|Hfar]; [done|].
  rewrite IslandBands.IsTargetPokygon_far in Hland; [done|done|]. lra.
Qed.

(** X18. [buildMainland] returns cells of its input that have four points
    or more and pass the island test around the map center, each at most as
    often as it is a candidate; their centroids are nearer to the map center
    than 1.8 times [pixelScale]; every two returned tiles are joined by a
    chain of returned tiles sharing edges; and the result is empty exactly
    when no cell is a candidate. *)
Theorem buildMainland_land (polygons : list (option Tile)) :
  buildMainland toR pixelScale polygons ⊆+ landCandidates toR pixelScale polygons
  /\ (forall t, t ∈ buildMainland toR pixelScale polygons ->
        Some t ∈ polygons /\ 4 <= length (verts t) /\ isLand toR pixelScale t = true
        /\ (Island.distToCenter (tileCentroid toR t) (mapCenterPoint toR)
            < 1.8 * toR pixelScale)%R)
  /\ edgeConnected (buildMainland toR pixelScale polygons)
  /\ (buildMainland toR pixelScale polygons = []
      <-> landCandidates toR pixelScale polygons = []).
Proof.
  assert (Hsub : buildMainland toR pixelScale polygons
                 ⊆+ landCandidates toR pixelScale polygons).
  { unfold buildMainland. cbn zeta. case_decide; [apply submseteq_nil_l|].
    apply largest_submseteq. }
  split_and!.
  - done.
  - intros t Ht. eapply elem_of_submseteq in Ht; [|exact Hsub].
    apply elem_of_landCandidates in Ht as (H1 & H2 & H3).
    split_and!; [done..|]. by apply isLand_within.
  - unfold buildMainland. cbn zeta. case_decide.
    + by intros t1 t2 ?%elem_of_nil.
    + apply largest_edgeConnected.
  - unfold buildMainland. cbn zeta. case_decide as Hlen.
    + split; [|done]. intros _. by apply nil_length_inv.
    + rewrite largest_nil_iff. done.
Qed.

End MainlandFacts.

Section StatePushFolds.

Context {X V : Type}.

(** A loop that pushes each item on a group picked from the groups as they
    are. *)
Lemma push_state_fold (pick : list (list V) -> X -> nat) (val : X -> V) (items : list X) :
  forall gs0 gs,
  foldl (fun acc it => match acc with
                       | None => None
                       | Some g => pushAt g (pick g it) (val it)
                       end) (Some gs0) items = Some gs ->
  length gs = length gs0
  /\ concat gs ≡ₚ concat gs0 ++ (val <$> items)
  /\ (forall j, exists extra, groupAt gs j = groupAt gs0 j ++ extra).
Proof.
  induction items as [|it items IH]; intros gs0 gs; simpl.
  - intros [= <-]. split_and!; [done|by rewrite app_nil_r|].
    intros j. exists []. by rewrite app_nil_r.
  - destruct (pushAt gs0 (pick gs0 it) (val it)) as [gs1|] eqn:E;
      [|by rewrite foldl_option_None].
    intros (Hl & Hp & Hg)%IH.
    pose proof (pushAt_length _ _ _ _ E) as Hl1.
    pose proof (pushAt_perm _ _ _ _ E) as Hp1.
    split_and!.
    + lia.
    + rewrite Hp, Hp1. by rewrite <- app_assoc.
    + intros j. destruct (Hg j) as [extra He].
      unfold pushAt in E. destruct (gs0 !! pick gs0 it) as [l|] eqn:El; [|done].
      injection E as <-. pose proof (lookup_lt_Some _ _ _ El) as Hb.
      destruct (decide (pick gs0 it = j)) as [<-|Hne].
      * rewrite groupAt_insert_eq in He by done. rewrite (groupAt_lookup _ _ _ El).
        exists ([val it] ++ extra). by rewrite He, <- app_assoc.
      * rewrite groupAt_insert_ne in He by done. by exists extra.
Qed.

Lemma push_state_fold_is_Some (pick : list (list V) -> X -> nat) (val : X -> V)
    (items : list X) n :
  (forall g it, length g = n -> pick g it < n) ->
  forall gs0, length gs0 = n ->
  is_Some (foldl (fun acc it => match acc with
                                | None => None
                                | Some g => pushAt g (pick g it) (val it)
                                end) (Some gs0) items).
Proof.
  intros Hpick. induction items as [|it items IH]; intros gs0 Hl; simpl; [by eexists|].
  destruct (pushAt_is_Some gs0 (pick gs0 it) (val it)) as [gs1 E].
  { rewrite Hl. by apply Hpick. }
  rewrite E. apply IH. apply pushAt_length in E. lia.
Qed.

End StatePushFolds.

Section Earlier.

Context {num : Type} `{!JSNumber num} `{!Externals num}.
Local Abbreviation Tile := (@Tile num).
Local Abbreviation Point := (@Point num).

Lemma nearestEach_bound (c : Point) points : forall i idx minDist,
  nearestEach c points i idx minDist = idx
  \/ i <= nearestEach c points i idx minDist < i + length points.
Proof.
  induction points as [|p points IH]; intros i idx minDist; simpl; [by left|].
  destruct (nlt _ _).
  - destruct (IH (S i) i (sqDist c p)) as [->|?]; right; lia.
  - destruct (IH (S i) idx minDist) as [->|?]; [by left|right; lia].
Qed.

Lemma nearestValid_bound (c : Point) valid : forall i idx minDist,
  nearestValid c valid i idx minDist = idx
  \/ i <= nearestValid c valid i idx minDist < i + length valid.
Proof.
  induction valid as [|g valid IH]; intros i idx minDist; simpl; [by left|].
  case_decide.
  - destruct (IH (S i) i (nofZ (-1))) as [->|?]; right; lia.
  - destruct (nlt _ _).
    + destruct (IH (S i) i (sqDist c (centroidOfGroup g))) as [->|?]; right; lia.
    + destruct (IH (S i) idx minDist) as [->|?]; [by left|right; lia].
Qed.

Lemma nearestBig_bound (c : Point) minTiles gs : forall j idx minDist,
  nearestBig c minTiles gs j idx minDist = idx
  \/ j <= nearestBig c minTiles gs j idx minDist < j + length gs.
Proof.
  induction gs as [|gg gs IH]; intros j idx minDist; simpl; [by left|].
  case_decide.
  - destruct (nlt _ _).
    + destruct (IH (S j) j (sqDist c (centroidOfGroup gg))) as [->|?]; right; lia.
    + destruct (IH (S j) idx minDist) as [->|?]; [by left|right; lia].
  - destruct (IH (S j) idx minDist) as [->|?]; [by left|right; lia].
Qed.

Lemma concat_replicate_nil {A} n : concat (replicate n (@nil A)) = [].
Proof. induction n; simpl; done. Qed.

Lemma concat_bind_split (gs : list (list Tile)) :
  concat (gs ≫= fun g => splitConnectedComponents (Some g)) ≡ₚ concat gs.
Proof.
  induction gs as [|g gs IH]; [done|].
  rewrite bind_cons, concat_app, IH.
  change (concat (g :: gs)) with (g ++ concat gs).
  by rewrite splitConnectedComponents_perm.
Qed.

Lemma concat_filter_split {A} (P1 : list A -> Prop) `{!forall x, Decision (P1 x)}
    (ls : list (list A)) :
  concat (filter P1 ls) ++ concat (filter (fun l => ~ P1 l) ls) ≡ₚ concat ls.
Proof.
  rewrite <- concat_app. apply concat_perm. apply filter_app_complement.
Qed.

Lemma concat_filter_submseteq {A} (P1 : list A -> Prop) `{!forall x, Decision (P1 x)}
    (ls : list (list A)) :
  concat (filter P1 ls) ⊆+ concat ls.
Proof.
  rewrite <- (concat_filter_split P1 ls). by apply submseteq_inserts_r.
Qed.

(** The stages of the first loop. *)
Lemma assignInitial_Some (centers : list Center) (polygons : list Tile) gs0 gs :
  foldl (assignInitial centers) (Some gs0) polygons = Some gs ->
  length gs = length gs0 /\ concat gs ≡ₚ concat gs0 ++ polygons.
Proof.
  intros H.
  apply (push_state_fold
    (fun _ poly => nearestEach (polygonCentroid (verts poly))
                     ((fun c => (cx c, cy c)) <$> centers) 0 0 nInfinity)
    (fun poly : Tile => poly)) in H as (Hl & Hp & _).
  by rewrite list_fmap_id in Hp.
Qed.

Lemma assignInitial_is_Some (centers : list Center) (polygons : list Tile) gs0 :
  0 < length gs0 -> length centers <= length gs0 ->
  is_Some (foldl (assignInitial centers) (Some gs0) polygons).
Proof.
  intros Hpos Hle.
  apply (push_state_fold_is_Some
    (fun _ poly => nearestEach (polygonCentroid (verts poly))
                     ((fun c => (cx c, cy c)) <$> centers) 0 0 nInfinity)
    (fun poly : Tile => poly) polygons (length gs0)); [|done].
  intros g poly _.
  destruct (nearestEach_bound (polygonCentroid (verts poly))
              ((fun c => (cx c, cy c)) <$> centers) 0 0 nInfinity) as [->|H]; [done|].
  rewrite length_fmap in H. lia.
Qed.

Lemma mergeOrphan_Some (orphans : list Tile) vgs0 vgs :
  foldl mergeOrphan (Some vgs0) orphans = Some vgs ->
  length vgs = length vgs0
  /\ concat vgs ≡ₚ concat vgs0 ++ orphans
  /\ (forall j, length (groupAt vgs0 j) <= length (groupAt vgs j)).
Proof.
  intros H.
  apply (push_state_fold
    (fun vgs poly => nearestEach (polygonCentroid (verts poly))
                       (centroidOfGroup <$> vgs) 0 0 nInfinity)
    (fun poly : Tile => poly)) in H as (Hl & Hp & Hg).
  rewrite list_fmap_id in Hp. split_and!; [done..|].
  intros j. destruct (Hg j) as [extra ->]. rewrite length_app. lia.
Qed.

Lemma mergeOrphan_is_Some (orphans : list Tile) vgs0 :
  vgs0 ≠ [] -> is_Some (foldl mergeOrphan (Some vgs0) orphans).
Proof.
  intros Hne.
  apply (push_state_fold_is_Some
    (fun vgs poly => nearestEach (polygonCentroid (verts poly))
                       (centroidOfGroup <$> vgs) 0 0 nInfinity)
    (fun poly : Tile => poly) orphans (length vgs0)); [|done].
  intros g poly Hg.
  destruct (nearestEach_bound (polygonCentroid (verts poly))
              (centroidOfGroup <$> g) 0 0 nInfinity) as [->|H].
  - destruct vgs0; [done|simpl; lia].
  - rewrite length_fmap in H. lia.
Qed.

(** What the count repair returns, when it returns. *)
Lemma repairLoop_Some minTiles : forall n (validGroups out : list (list Tile)),
  repairLoop n minTiles validGroups = Some out ->
  rtc (bisectLargest minTiles) validGroups out
  /\ (length validGroups + n <= length out
      \/ forall g, g ∈ out -> length g <= minTiles * 2).
Proof.
  intros n validGroups out Hr.
  destruct (decide (validGroups = [])) as [->|Hne].
  - destruct n; simpl in Hr; [|done]. injection Hr as <-.
    split; [apply rtc_refl|]. left. simpl. lia.
  - destruct (repairLoop_spec minTiles n validGroups Hne) as (out' & Ho & H1 & H2).
    rewrite Ho in Hr. by injection Hr as <-.
Qed.

Lemma half_bounds n m : m * 2 < n -> m <= n / 2 /\ m <= n - n / 2.
Proof.
  intros Hn. pose proof (Nat.div_mod_eq n 2). pose proof (Nat.mod_upper_bound n 2). lia.
Qed.

Lemma bisectLargest_minimum minTiles (gs gs' : list (list Tile)) :
  bisectLargest minTiles gs gs' ->
  Forall (fun g => minTiles <= length g) gs ->
  Forall (fun g => minTiles <= length g) gs'.
Proof.
  intros (i & Hi & Hbig & ->) Hall.
  destruct (half_bounds _ _ Hbig) as [H1 H2].
  apply Forall_app. split.
  - apply Forall_insert; [done|]. rewrite length_drop. lia.
  - apply Forall_singleton. rewrite length_take. lia.
Qed.

Lemma bisects_minimum minTiles (gs gs' : list (list Tile)) :
  rtc (bisectLargest minTiles) gs gs' ->
  Forall (fun g => minTiles <= length g) gs ->
  Forall (fun g => minTiles <= length g) gs'.
Proof.
  intros Hrtc. induction Hrtc as [|x y z Hxy _ IH]; [done|].
  intros Hx. apply IH. by eapply bisectLargest_minimum.
Qed.

Lemma bisects_perm minTiles (gs gs' : list (list Tile)) :
  rtc (bisectLargest minTiles) gs gs' -> concat gs' ≡ₚ concat gs.
Proof.
  intros Hrtc. induction Hrtc as [|x y z Hxy _ IH]; [done|].
  rewrite IH. by apply bisectLargest_perm in Hxy as [? _].
Qed.

(** What [forceAssignWithConnectivity] returns, when it returns. *)
Lemma forceAssignWithConnectivity_Some (polygons : list Tile) numGroups minTiles s out s' :
  forceAssignWithConnectivity polygons numGroups minTiles s = Some (out, s') ->
  concat out ≡ₚ polygons
  /\ Forall (fun g => minTiles <= length g) out
  /\ (numGroups <= length out \/ Forall (fun g => length g <= minTiles * 2) out).
Proof.
  unfold forceAssignWithConnectivity. cbn zeta. intros H.
  apply bind_Some in H as (groups & Hg & H).
  apply bind_Some in H as (merged & Hm & H).
  apply bind_Some in H as (out' & Ho & H). injection H as <- <-.
  apply assignInitial_Some in Hg as [Hlg Hpg].
  rewrite concat_replicate_nil in Hpg. simpl in Hpg.
  set (comps := groups ≫= fun g => splitConnectedComponents (Some g)) in *.
  apply mergeOrphan_Some in Hm as (Hlm & Hpm & Hgm).
  pose proof (concat_filter_split (fun g : list Tile => minTiles <= length g) comps) as Hsplit.
  apply repairLoop_Some in Ho as [Hrtc Hend].
  assert (Hvalid : Forall (fun g : list Tile => minTiles <= length g) merged).
  { apply Forall_lookup. intros j g Hj.
    destruct (filter (fun g : list Tile => minTiles <= length g) comps !! j) as [g0|] eqn:E.
    - specialize (Hgm j). rewrite (groupAt_lookup _ _ _ Hj), (groupAt_lookup _ _ _ E) in Hgm.
      apply list_elem_of_lookup_2, list_elem_of_filter in E as [? _]. lia.
    - apply lookup_ge_None in E. apply lookup_lt_Some in Hj. lia. }
  split_and!.
  - rewrite (bisects_perm _ _ _ Hrtc), Hpm, Hsplit. unfold comps.
    by rewrite concat_bind_split.
  - by eapply bisects_minimum.
  - destruct Hend as [Hlen|Hsmall]; [left; lia|right]. by apply Forall_forall.
Qed.

(** X19. When [forceAssignWithConnectivity] returns, its groups hold every
    input tile exactly once, and either there are at least [numGroups]
    groups or no group has more than [2 * minTiles] tiles. *)
Theorem forceAssignWithConnectivity_partition (polygons : list Tile)
    numGroups minTiles s out s' :
  forceAssignWithConnectivity polygons numGroups minTiles s = Some (out, s') ->
  concat out ≡ₚ polygons
  /\ (numGroups <= length out \/ Forall (fun g => length g <= minTiles * 2) out).
Proof.
  intros H. apply forceAssignWithConnectivity_Some in H as (H1 & _ & H3). by split.
Qed.

(** X20. Every group that [forceAssignWithConnectivity] returns has at least
    [minTiles] tiles: the components below the minimum are merged into the
    others, and only a group of more than [2 * minTiles] tiles is
    bisected. *)
Theorem forceAssignWithConnectivity_minimum (polygons : list Tile)
    numGroups minTiles s out s' :
  forceAssignWithConnectivity polygons numGroups minTiles s = Some (out, s') ->
  Forall (fun g => minTiles <= length g) out.
Proof.
  intros H. by apply forceAssignWithConnectivity_Some in H as (_ & H2 & _).
Qed.

Lemma bind_replicate_nil n :
  (replicate n (@nil Tile) ≫= fun g => splitConnectedComponents (Some g)) = [].
Proof.
  induction n as [|n IH]; [done|].
  change (replicate (S n) (@nil Tile)) with ([] :: replicate n (@nil Tile)).
  by rewrite bind_cons, IH.
Qed.

Lemma split_component_length (g c : list Tile) :
  c ∈ splitConnectedComponents (Some g) -> 0 < length c <= length g.
Proof.
  intros Hc. pose proof (split_components_connected g) as Hall.
  rewrite Forall_forall in Hall. destruct (Hall c Hc) as [Hne _].
  split; [destruct c; [done|simpl; lia]|].
  pose proof (splitConnectedComponents_perm g) as Hp.
  apply elem_of_Permutation in Hc as [others Ho]. apply concat_perm in Ho.
  rewrite Ho in Hp. apply Permutation_length in Hp. simpl in Hp.
  rewrite length_app in Hp. lia.
Qed.

(** X21. The errors of [forceAssignWithConnectivity]: on the empty tile list
    it returns (the empty list) only when no group is asked for, and raises
    a [TypeError] otherwise; on tiles with no group asked for, or with fewer
    tiles than [minTiles], it raises a [TypeError]; on tiles with at least
    one group asked for and [minTiles] at most 1 it returns. *)
Theorem forceAssignWithConnectivity_errors (polygons : list Tile) numGroups minTiles s :
  (polygons = [] ->
   (is_Some (forceAssignWithConnectivity polygons numGroups minTiles s) <-> numGroups = 0))
  /\ (polygons ≠ [] -> numGroups = 0 ->
      forceAssignWithConnectivity polygons numGroups minTiles s = None)
  /\ (polygons ≠ [] -> length polygons < minTiles ->
      forceAssignWithConnectivity polygons numGroups minTiles s = None)
  /\ (polygons ≠ [] -> 0 < numGroups -> minTiles <= 1 ->
      is_Some (forceAssignWithConnectivity polygons numGroups minTiles s)).
Proof.
  split_and!.
  - intros ->. unfold forceAssignWithConnectivity. cbn zeta. cbn [foldl mbind option_bind].
    rewrite bind_replicate_nil. cbn [filter list_filter concat foldl mbind option_bind].
    unfold countRepair. cbn [length]. rewrite Nat.sub_0_r.
    destruct numGroups as [|n].
    + split; [done|]. intros _. simpl. by eexists.
    + split; [|done]. simpl. by intros [? ?].
  - intros Hne ->. unfold forceAssignWithConnectivity. cbn zeta.
    destruct polygons as [|p polygons]; [done|]. cbn [foldl].
    assert (E : forall centers, assignInitial centers (Some (replicate 0 [])) p = None).
    { intros centers. unfold assignInitial, pushAt. simpl. done. }
    rewrite E, foldl_option_None by done. done.
  - intros Hne Hlen. unfold forceAssignWithConnectivity. cbn zeta.
    destruct (foldl (assignInitial (generateCentersInPolygons numGroups polygons s).1)
                (Some (replicate numGroups [])) polygons) as [groups|] eqn:Hg; [|done].
    cbn [mbind option_bind].
    apply assignInitial_Some in Hg as [Hlg Hpg].
    rewrite concat_replicate_nil in Hpg. simpl in Hpg.
    set (comps := groups ≫= fun g => splitConnectedComponents (Some g)).
    assert (Hsmall : forall c, c ∈ comps -> length c < minTiles).
    { intros c (g & Hc & Hgin)%list_elem_of_bind.
      apply split_component_length in Hc.
      apply elem_of_Permutation in Hgin as [others Ho]. apply concat_perm in Ho.
      rewrite Ho in Hpg. apply Permutation_length in Hpg. simpl in Hpg.
      rewrite length_app in Hpg. lia. }
    rewrite (filter_none (fun g : list Tile => minTiles <= length g)).
    2:{ intros c Hc. specialize (Hsmall c Hc). lia. }
    rewrite (filter_all (fun g : list Tile => ~ minTiles <= length g)).
    2:{ intros c Hc. specialize (Hsmall c Hc). lia. }
    assert (Hcne : concat comps ≠ []).
    { intros E. pose proof (concat_bind_split groups) as Hp. fold comps in Hp.
      rewrite E, Hpg in Hp. apply Permutation_nil_l in Hp. done. }
    destruct (concat comps) as [|o orphans]; [done|]. cbn [foldl].
    assert (E : mergeOrphan (Some []) o = None) by done.
    rewrite E, foldl_option_None by done. done.
  - intros Hne Hn Hm. unfold forceAssignWithConnectivity. cbn zeta.
    pose proof (generateCenters_length_le numGroups polygons s) as Hc.
    destruct (assignInitial_is_Some (generateCentersInPolygons numGroups polygons s).1
                polygons (replicate numGroups [])) as [groups Hg].
    { rewrite length_replicate. lia. }
    { rewrite length_replicate. lia. }
    rewrite Hg. cbn [mbind option_bind].
    apply assignInitial_Some in Hg as [Hlg Hpg].
    rewrite concat_replicate_nil in Hpg. simpl in Hpg.
    set (comps := groups ≫= fun g => splitConnectedComponents (Some g)).
    assert (Hbig : forall c, c ∈ comps -> minTiles <= length c).
    { intros c (g & Hcg & _)%list_elem_of_bind.
      apply split_component_length in Hcg. lia. }
    assert (Hcne : comps ≠ []).
    { intros E. pose proof (concat_bind_split groups) as Hp. fold comps in Hp.
      rewrite E, Hpg in Hp. simpl in Hp. apply Permutation_nil_l in Hp. done. }
    rewrite (filter_all (fun g : list Tile => minTiles <= length g)) by done.
    destruct (mergeOrphan_is_Some
                (concat (filter (fun g : list Tile => ~ minTiles <= length g) comps))
                comps Hcne) as [merged Hmg].
    rewrite Hmg. cbn [mbind option_bind].
    apply mergeOrphan_Some in Hmg as (Hlm & _).
    assert (Hmne : merged ≠ []).
    { intros ->. destruct comps; done. }
    unfold countRepair.
    destruct (repairLoop_spec minTiles (numGroups - length merged) merged Hmne)
      as (out & -> & _).
    by eexists.
Qed.

(** ** [assignPolygonsToCenters] *)

Lemma reassignOrphan_Some (orphans : list Tile) vs0 vs :
  foldl reassignOrphan (Some vs0) orphans = Some vs ->
  length vs = length vs0 /\ concat vs ≡ₚ concat vs0 ++ orphans.
Proof.
  intros H.
  apply (push_state_fold
    (fun vs poly => nearestValid (polygonCentroid (verts poly)) vs 0 0 nInfinity)
    (fun poly : Tile => poly)) in H as (Hl & Hp & _).
  by rewrite list_fmap_id in Hp.
Qed.

Lemma reassignOrphan_is_Some (orphans : list Tile) vs0 :
  vs0 ≠ [] -> is_Some (foldl reassignOrphan (Some vs0) orphans).
Proof.
  intros Hne.
  apply (push_state_fold_is_Some
    (fun vs poly => nearestValid (polygonCentroid (verts poly)) vs 0 0 nInfinity)
    (fun poly : Tile => poly) orphans (length vs0)); [|done].
  intros g poly Hg.
  destruct (nearestValid_bound (polygonCentroid (verts poly)) g 0 0 nInfinity) as [->|H].
  - destruct vs0; [done|simpl; lia].
  - lia.
Qed.

Lemma assignPolygonsToCenters_Some (polygons : list Tile) (centers : list Center)
    minTiles out :
  assignPolygonsToCenters polygons centers minTiles = Some out ->
  length out = length centers /\ concat out ≡ₚ polygons.
Proof.
  unfold assignPolygonsToCenters. intros H.
  apply bind_Some in H as (groups & Hg & H).
  apply assignInitial_Some in Hg as [Hlg Hpg].
  rewrite length_replicate in Hlg.
  rewrite concat_replicate_nil in Hpg. simpl in Hpg.
  apply reassignOrphan_Some in H as [Hl Hp].
  pose proof (length_filter (fun g : list Tile => minTiles <= length g) groups) as Hf.
  split.
  - rewrite Hl, length_app, length_replicate. lia.
  - rewrite Hp, concat_app, concat_replicate_nil, app_nil_r.
    by rewrite concat_filter_split.
Qed.

(** X22. [assignPolygonsToCenters] returns as many groups as there are
    centers, holding every input tile exactly once; it raises a [TypeError]
    exactly when there is a tile and no center. *)
Theorem assignPolygonsToCenters_partition (polygons : list Tile) (centers : list Center)
    minTiles :
  (is_Some (assignPolygonsToCenters polygons centers minTiles)
   <-> polygons = [] \/ centers ≠ [])
  /\ (forall out, assignPolygonsToCenters polygons centers minTiles = Some out ->
        length out = length centers /\ concat out ≡ₚ polygons).
Proof.
  split; [|intros out; apply assignPolygonsToCenters_Some].
  split.
  - intros [out Hs]. destruct polygons as [|p polygons]; [by left|right].
    intros ->. unfold assignPolygonsToCenters in Hs. cbn [length foldl] in Hs.
    assert (E : assignInitial [] (Some (replicate 0 [])) p = None) by done.
    rewrite E, foldl_option_None in Hs by done. done.
  - intros Hc. unfold assignPolygonsToCenters.
    destruct (decide (centers = [])) as [->|Hne].
    + destruct Hc as [->|?]; [|done]. by eexists.
    + destruct (assignInitial_is_Some centers polygons (replicate (length centers) []))
        as [groups Hg].
      { rewrite length_replicate. destruct centers; [done|simpl; lia]. }
      { by rewrite length_replicate. }
      rewrite Hg. cbn [mbind option_bind].
      apply assignInitial_Some in Hg as [Hlg _]. rewrite length_replicate in Hlg.
      apply reassignOrphan_is_Some.
      pose proof (length_filter (fun g : list Tile => minTiles <= length g) groups) as Hf.
      intros E. apply (f_equal length) in E.
      rewrite length_app, length_replicate in E. simpl in E.
      destruct centers; [done|simpl in *; lia].
Qed.

(** ** [forceAssign] *)

Lemma mergeTile_Some minTiles (g : list Tile) gs0 gs :
  foldl (mergeTile minTiles) (Some gs0) g = Some gs ->
  length gs = length gs0
  /\ concat gs ≡ₚ concat gs0 ++ g
  /\ (forall j, exists extra, groupAt gs j = groupAt gs0 j ++ extra).
Proof.
  intros H.
  apply (push_state_fold
    (fun gs poly => nearestBig (polygonCentroid (verts poly)) minTiles gs 0 0 nInfinity)
    (fun poly : Tile => poly)) in H as (Hl & Hp & Hg).
  by rewrite list_fmap_id in Hp.
Qed.

Lemma mergeSmall_Some minTiles i (gs gs' : list (list Tile)) :
  mergeSmall minTiles (Some gs) i = Some gs' ->
  length gs' = length gs /\ concat gs' ⊆+ concat gs.
Proof.
  unfold mergeSmall. case_decide as Hsmall; [|by intros [= <-]].
  destruct (foldl (mergeTile minTiles) (Some gs) (groupAt gs i)) as [gs1|] eqn:E; [|done].
  intros [= <-]. apply mergeTile_Some in E as (Hl & Hp & Hg).
  split; [by rewrite length_insert|].
  destruct (gs1 !! i) as [l|] eqn:El.
  - destruct (Hg i) as [extra He]. rewrite (groupAt_lookup _ _ _ El) in He.
    pose proof (concat_insert_perm gs1 i l [] El) as Hi.
    rewrite app_nil_r, Hp, He in Hi.
    apply (submseteq_app_inv_r _ _ (groupAt gs i)).
    rewrite (Permutation_app_comm (concat gs)).
    assert (Hq : concat (<[i:=[]]> gs1) ++ groupAt gs i ++ extra
                 ≡ₚ (concat (<[i:=[]]> gs1) ++ groupAt gs i) ++ extra)
      by (by rewrite app_assoc).
    rewrite Hq in Hi. rewrite (Permutation_app_comm (groupAt gs i) (concat gs)).
    rewrite <- Hi. by apply submseteq_inserts_r.
  - rewrite list_insert_ge by (by apply lookup_ge_None).
    assert (groupAt gs i = []) as Hnil.
    { apply groupAt_ge. apply lookup_ge_None in El. lia. }
    rewrite Hnil, app_nil_r in Hp. by rewrite Hp.
Qed.

Lemma mergeSmall_fold minTiles (idxs : list nat) : forall gs gs',
  foldl (mergeSmall minTiles) (Some gs) idxs = Some gs' ->
  length gs' = length gs /\ concat gs' ⊆+ concat gs.
Proof.
  induction idxs as [|i idxs IH]; intros gs gs'; cbn [foldl].
  - by intros [= <-].
  - destruct (mergeSmall minTiles (Some gs) i) as [gs1|] eqn:E.
    + intros [Hl Hs]%IH. apply mergeSmall_Some in E as [Hl1 Hs1]. split; [lia|].
      by etrans.
    + rewrite foldl_option_None; done.
Qed.

Lemma splitLoop_Some : forall n (gs out : list (list Tile)),
  splitLoop n gs = Some out ->
  length out = length gs + n /\ concat out ≡ₚ concat gs.
Proof.
  induction n as [|n IH]; intros gs out; simpl.
  - intros [= <-]. split; [lia|done].
  - destruct (largestIdx gs) as [i|] eqn:Ei; [|done].
    intros [Hl Hp]%IH. apply largestIdx_spec in Ei as [Hi _].
    rewrite length_app, length_insert in Hl. simpl in Hl. split; [lia|].
    rewrite Hp, concat_app. simpl. rewrite app_nil_r.
    destruct (lookup_lt_is_Some_2 gs i Hi) as [l El].
    rewrite (groupAt_lookup _ _ _ El).
    apply (Permutation_app_inv_r l).
    pose proof (concat_insert_perm gs i l (drop (length l / 2) l) El) as Hq.
    transitivity ((concat (<[i:=drop (length l / 2) l]> gs) ++ l) ++ take (length l / 2) l);
      [solve_Permutation|].
    rewrite Hq. rewrite <- (take_drop (length l / 2) l) at 5. solve_Permutation.
Qed.

(** X23. When [forceAssign] returns, it returns exactly [numGroups] groups,
    whose tiles are input tiles, none more often than in the input (a tile
    of a group below [minTiles] that is pushed on its own group is
    dropped when the group is emptied). *)
Theorem forceAssign_count (polygons : list Tile) numGroups minTiles s out s' :
  forceAssign polygons numGroups minTiles s = Some (out, s') ->
  length out = numGroups /\ concat out ⊆+ polygons.
Proof.
  unfold forceAssign. cbn zeta. intros H.
  apply bind_Some in H as (groups0 & H0 & H).
  apply bind_Some in H as (groups2 & H2 & H).
  apply bind_Some in H as (out' & Ho & H). injection H as <- <-.
  apply assignPolygonsToCenters_Some in H0 as [Hl0 Hp0].
  apply mergeSmall_fold in H2 as [Hl2 Hs2].
  apply splitLoop_Some in Ho as [Hlo Hpo].
  pose proof (generateCenters_length_le numGroups polygons s) as Hc.
  pose proof (length_filter (fun g : list Tile => 0 < length g) groups0) as Hf0.
  pose proof (length_filter (fun g : list Tile => 0 < length g) groups2) as Hf2.
  split; [lia|].
  rewrite Hpo. etrans; [apply concat_filter_submseteq|].
  etrans; [exact Hs2|]. etrans; [apply concat_filter_submseteq|]. by rewrite Hp0.
Qed.

End Earlier.

Module LegacyFacts.
Import Legacy.

Lemma wrapped_bounds total : (0 <= total)%Z -> (0 <= wrapped total <= 360)%Z.
Proof.
  intros Ht. unfold wrapped. case_decide; [lia|].
  pose proof (Z.mod_pos_bound (total - 1) 360). lia.
Qed.

Lemma wrapped_small total : (0 <= total <= 360)%Z -> wrapped total = total.
Proof.
  intros Ht. unfold wrapped. case_decide; [lia|].
  rewrite Z.mod_small by lia. lia.
Qed.

(** One step of the variable [angle]. *)
Lemma wrapped_step total centerDist :
  (0 <= total)%Z -> (0 <= centerDist <= 360)%Z ->
  (if decide (360 < wrapped total + centerDist)%Z
   then (wrapped total + centerDist - 360)%Z else (wrapped total + centerDist)%Z)
  = wrapped (total + centerDist).
Proof.
  intros Ht Hc. unfold wrapped.
  destruct (decide (total = 0)%Z) as [->|Hne].
  - rewrite decide_False by lia. rewrite Z.add_0_l.
    case_decide; [lia|]. rewrite Z.mod_small by lia. lia.
  - destruct (decide (total + centerDist = 0)%Z); [lia|].
    case_decide; Z.div_mod_to_equations; lia.
Qed.

Lemma centerDistOf_bounds n : 1 <= n -> (0 <= centerDistOf n <= 360)%Z.
Proof.
  intros Hn. unfold centerDistOf. split.
  - apply Z.div_pos; lia.
  - enough ((2 * 360 + Z.of_nat n) / (2 * Z.of_nat n) < 361)%Z by lia.
    apply Z.div_lt_upper_bound; lia.
Qed.

Section RandomCenterFacts.

Context {num : Type} `{!JSNumber num} `{!JSMath num}.
Variable mapCenter : num * num.
Variable height width : num.

Lemma centersFrom_length a b centerDist : forall n angle,
  length (centersFrom mapCenter a b centerDist n angle) = n.
Proof. induction n as [|n IH]; intros angle; simpl; [done|]. by rewrite IH. Qed.

Lemma centersFrom_lookup a b centerDist :
  (0 <= centerDist <= 360)%Z ->
  forall n total i p,
    (0 <= total)%Z ->
    centersFrom mapCenter a b centerDist n (wrapped total) !! i = Some p ->
    p = countCoordinate mapCenter a b
          (toRadians (wrapped (total + Z.of_nat i * centerDist))).
Proof.
  intros Hc. induction n as [|n IH]; intros total i p Ht Hp; [done|].
  cbn [centersFrom] in Hp. destruct i as [|i].
  - injection Hp as <-. do 3 f_equal. lia.
  - change ((?x :: ?l) !! S i) with (l !! i) in Hp.
    rewrite (wrapped_step total centerDist Ht Hc) in Hp.
    apply IH in Hp; [|lia]. rewrite Hp. do 3 f_equal. lia.
Qed.

(** X24. [randomCenter(num, a)] returns [num] points; for a start angle
    between 0 and 360 the variable [angle] stays between 0 and 360, and the
    point of index [i] is [countCoordinate] at the angle of
    [initCenter + i * centerDist] degrees taken back by whole turns into
    the range from 1 to 360 (0 only for the sum 0): so a sum of 360 degrees
    is used as 360, not as 0. *)
Theorem randomCenter_angles (initCenter : Z) (n : nat) (a : num) :
  (0 <= initCenter <= 360)%Z ->
  let b := ndiv (nmul a height) width in
  let centerDist := centerDistOf n in
  length (randomCenter mapCenter height width initCenter n a) = n
  /\ (1 <= n -> (0 <= centerDist <= 360)%Z)
  /\ (forall i p, randomCenter mapCenter height width initCenter n a !! i = Some p ->
        let angle := wrapped (initCenter + Z.of_nat i * centerDist) in
        (0 <= angle <= 360)%Z
        /\ p = countCoordinate mapCenter a b (toRadians angle)).
Proof.
  intros Hi b centerDist. unfold randomCenter. fold b centerDist.
  split_and!; [apply centersFrom_length|apply centerDistOf_bounds|].
  intros i p Hp.
  assert (Hn : 1 <= n).
  { apply lookup_lt_Some in Hp. rewrite centersFrom_length in Hp. lia. }
  pose proof (centerDistOf_bounds n Hn) as Hc. fold centerDist in Hc.
  split.
  - apply wrapped_bounds. nia.
  - rewrite <- (wrapped_small initCenter Hi) in Hp.
    apply centersFrom_lookup in Hp; [done|done|lia].
Qed.

End RandomCenterFacts.

End LegacyFacts.

Section CountriesFacts.

Context {num : Type} `{!JSNumber num} `{!Externals num}.
Local Abbreviation Tile := (@Tile num).

Lemma assignCountries_Some (regionTiles : list Tile) cn mc s countries s' :
  assignCountriesWithinRegion regionTiles cn mc s = Some (countries, s') ->
  length countries = cn
  /\ (NoDup (tid <$> regionTiles) -> concat countries ≡ₚ regionTiles).
Proof.
  unfold assignCountriesWithinRegion. intros H.
  apply bind_Some in H as ([g s1] & Hg & H).
  apply bind_Some in H as (balanced & Hb & H). injection H as <- <-. simpl in Hb.
  apply grow_Some in Hg as (Hl & Hperm & _).
  apply rebalance_Some in Hb as [Hlen Hp]. split; [lia|].
  intros Hnd. rewrite Hp.
  - rewrite <- Hperm. solve_Permutation.
  - rewrite (Permutation_app_comm _ (pool g)), Hperm. done.
Qed.

Lemma regionCountries_fold cn mc (regions : list (list Tile)) :
  forall done s out s',
  foldl (regionCountries cn mc) (Some (done, s)) regions = Some (out, s') ->
  NoDup (tid <$> concat regions) ->
  exists new,
    out = done ++ new
    /\ length new = length regions
    /\ Forall (fun cs => length cs = cn) new
    /\ Forall2 (fun cs region => concat cs ≡ₚ region) new regions.
Proof.
  induction regions as [|r regions IH]; intros done s out s'; cbn [foldl].
  - intros [= <- <-] _. exists []. split_and!; [by rewrite app_nil_r|done|done|done].
  - unfold regionCountries at 2.
    destruct (assignCountriesWithinRegion r cn mc s) as [[countries s1]|] eqn:E.
    2:{ rewrite foldl_option_None; done. }
    intros Hf Hnd. simpl in Hnd. rewrite fmap_app in Hnd.
    apply NoDup_app in Hnd as (Hr & _ & Hrest).
    destruct (IH _ _ _ _ Hf Hrest) as (new & -> & Hl & Hall & Hp).
    apply assignCountries_Some in E as [Hlc Hpc].
    exists (countries :: new). split_and!.
    + by rewrite <- app_assoc.
    + simpl. lia.
    + by apply Forall_cons.
    + apply Forall2_cons. split; [by apply Hpc|done].
Qed.

Lemma concat_Forall2_perm {A} (ls1 : list (list (list A))) (ls2 : list (list A)) :
  Forall2 (fun cs region => concat cs ≡ₚ region) ls1 ls2 ->
  concat (concat ls1) ≡ₚ concat ls2.
Proof.
  induction 1 as [|cs region ls1 ls2 Hp _ IH]; [done|].
  simpl. rewrite concat_app, Hp, IH. done.
Qed.

(** X25. When the mainland is not empty, its tiles are distinct objects and
    [createMap] gets its regions and the countries of each region, there are
    [regionNum] regions with [countriesPerRegion] countries each; the
    regions hold every mainland tile exactly once, the countries of a region
    hold every tile of the region exactly once, and so the countries hold
    every mainland tile exactly once. *)
Theorem createMap_countries_partition (mainland : list Tile)
    regionNum countriesPerRegion minTilesRegion minTilesCountry s regions countries s' :
  mainland ≠ [] ->
  NoDup (tid <$> mainland) ->
  createMapCountries mainland regionNum countriesPerRegion minTilesRegion minTilesCountry s
  = Some (regions, countries, s') ->
  length regions = regionNum
  /\ concat regions ≡ₚ mainland
  /\ length countries = regionNum
  /\ Forall (fun cs => length cs = countriesPerRegion) countries
  /\ Forall2 (fun cs region => concat cs ≡ₚ region) countries regions
  /\ concat (concat countries) ≡ₚ mainland.
Proof.
  intros _ Hnd H. unfold createMapCountries in H.
  apply bind_Some in H as ([g s1] & Hg & H).
  apply bind_Some in H as (regions' & Hb & H).
  apply bind_Some in H as ([out s2] & Hf & H). injection H as <- <- <-. simpl in *.
  apply grow_Some in Hg as (Hl & Hperm & _).
  apply rebalance_Some in Hb as [Hlen Hp].
  assert (Hpr : concat regions' ≡ₚ mainland).
  { rewrite Hp.
    - rewrite <- Hperm. solve_Permutation.
    - rewrite (Permutation_app_comm _ (pool g)), Hperm. done. }
  destruct (regionCountries_fold _ _ _ _ _ _ _ Hf) as (new & -> & Hln & Hall & Hf2).
  { by rewrite Hpr. }
  simpl. split_and!; [lia|done|lia|done|done|].
  rewrite (concat_Forall2_perm _ _ Hf2). done.
Qed.

End CountriesFacts.

Section ExchangeConnectivity.

Context {num : Type} `{!JSNumber num} `{!Externals num}.
Local Abbreviation Tile := (@Tile num).

Lemma shareEdge_sym (p1 p2 : Tile) : shareEdge p1 p2 = true -> shareEdge p2 p1 = true.
Proof. by intros ?%shareEdge_touching%touching_sym%shareEdge_touching. Qed.

(** A group in one piece stays in one piece when it receives a tile that
    shares an edge with one of its tiles. *)
Lemma edgeConnected_snoc (l : list Tile) t r :
  edgeConnected l -> r ∈ l -> shareEdge t r = true -> edgeConnected (l ++ [t]).
Proof.
  intros Hl Hr Hs.
  assert (Hin : forall a b, rtc (fun a b => a ∈ l /\ b ∈ l /\ shareEdge a b = true) a b ->
    rtc (fun a b => a ∈ l ++ [t] /\ b ∈ l ++ [t] /\ shareEdge a b = true) a b).
  { intros a b. apply rtc_subrel. intros x y (? & ? & ?).
    split_and!; [apply elem_of_app; by left..|done]. }
  assert (Htr : rtc (fun a b => a ∈ l ++ [t] /\ b ∈ l ++ [t] /\ shareEdge a b = true) t r).
  { apply rtc_once. split_and!; [|apply elem_of_app; by left|done].
    apply elem_of_app. right. by left. }
  assert (Hrt : rtc (fun a b => a ∈ l ++ [t] /\ b ∈ l ++ [t] /\ shareEdge a b = true) r t).
  { apply rtc_once. split_and!; [apply elem_of_app; by left| |by apply shareEdge_sym].
    apply elem_of_app. right. by left. }
  intros t1 t2 [H1| ->%list_elem_of_singleton]%elem_of_app
               [H2| ->%list_elem_of_singleton]%elem_of_app.
  - by apply Hin, Hl.
  - etrans; [|exact Hrt]. by apply Hin, Hl.
  - etrans; [exact Htr|]. by apply Hin, Hl.
  - apply rtc_refl.
Qed.

Lemma safeTransfer_connected minTiles (groups groups' : list (list Tile)) :
  safeTransfer minTiles groups groups' ->
  (forall j, edgeConnected (groupAt groups j)) ->
  forall j, edgeConnected (groupAt groups' j).
Proof.
  intros (gi & gj & t & Hne & _ & Ht & (r & Hr & Hs) & _ & -> & Hd & Hrcv & _ & Hdc) Hall j.
  destruct (decide (j = gj)) as [->|Hnj]; [done|].
  destruct (decide (j = gi)) as [->|Hni].
  - rewrite Hrcv. by eapply edgeConnected_snoc.
  - unfold moveTile. rewrite !groupAt_insert_ne by done. apply Hall.
Qed.

Lemma safeTransfers_connected minTiles (groups groups' : list (list Tile)) :
  rtc (safeTransfer minTiles) groups groups' ->
  (forall j, edgeConnected (groupAt groups j)) ->
  forall j, edgeConnected (groupAt groups' j).
Proof.
  intros Hrtc. induction Hrtc as [|x y z Hxy _ IH]; [done|].
  intros Hx. apply IH. by eapply safeTransfer_connected.
Qed.

(** X26. The boundary exchange keeps every group in one piece: when
    [rebalanceBoundaries] is called with an empty pool and groups that are
    each connected through shared edges, every group it returns is connected
    through shared edges. *)
Theorem rebalance_preserves_connectivity (groups : list (list Tile)) idxAdj minTiles
    targetCounts out :
  Forall edgeConnected groups ->
  rebalanceBoundaries groups [] idxAdj minTiles targetCounts = Some out ->
  Forall edgeConnected out.
Proof.
  intros Hall Hr. unfold rebalanceBoundaries in Hr. cbn zeta in Hr.
  cbn [foldl mbind option_bind] in Hr. apply (inj Some) in Hr. subst out.
  apply Forall_lookup. intros j g Hj. rewrite <- (groupAt_lookup _ _ _ Hj).
  eapply safeTransfers_connected; [apply exchangeRounds_safe|].
  intros j'. unfold groupAt. destruct (groups !! j') as [g'|] eqn:E; simpl.
  - rewrite Forall_lookup in Hall. by eapply Hall.
  - by intros t1 t2 ?%elem_of_nil.
Qed.

End ExchangeConnectivity.

Module ClipFacts.
Import Clip.

Section ClipLoop.

Context {num : Type} `{!JSNumber num} `{!JSMath num}.
Local Abbreviation Pt := (@Pt num).

(** ** The clipping loop *)

Lemma prevPairs_lookup (l : list Pt) j :
  prevPairs l !! j
  = match l !! ((j + length l - 1) mod length l)%nat, l !! j with
    | Some prev, Some current => Some (prev, current)
    | _, _ => None
    end.
Proof.
  unfold prevPairs. rewrite omap_lookup_total.
  - destruct (decide (j < length l)%nat) as [Hj|Hj].
    + by rewrite lookup_seq_lt.
    + rewrite lookup_seq_ge by lia. simpl.
      rewrite (lookup_ge_None_2 l j) by lia. by destruct (l !! _).
  - intros i [_ Hi]%elem_of_seq. simpl in Hi.
    destruct (lookup_lt_is_Some_2 l i Hi) as [c ->].
    destruct (lookup_lt_is_Some_2 l ((i + length l - 1) mod length l)) as [p ->];
      [apply Nat.mod_upper_bound; lia|by eexists].
Qed.

Lemma elem_of_prevPairs (l : list Pt) pc : pc ∈ prevPairs l -> pc.1 ∈ l /\ pc.2 ∈ l.
Proof.
  intros [j Hj]%list_elem_of_lookup_1. rewrite prevPairs_lookup in Hj.
  destruct (l !! ((j + length l - 1) mod length l)%nat) as [p|] eqn:Ep; [|done].
  destruct (l !! j) as [c|] eqn:Ec; [|done]. injection Hj as <-.
  split; by eapply list_elem_of_lookup_2.
Qed.

Lemma prevPairs_snd (l : list Pt) : (prevPairs l).*2 = l.
Proof.
  apply list_eq. intros j. rewrite list_lookup_fmap, prevPairs_lookup.
  destruct (l !! j) as [c|] eqn:Ec.
  - destruct (lookup_lt_is_Some_2 l ((j + length l - 1) mod length l)) as [p ->]; [|done].
    apply Nat.mod_upper_bound. apply lookup_lt_Some in Ec. lia.
  - destruct (l !! ((j + length l - 1) mod length l)%nat); reflexivity.
Qed.




Lemma bind_ext_elem {A B} (f g : A -> list B) (l : list A) :
  (forall x, x ∈ l -> f x = g x) -> l ≫= f = l ≫= g.
Proof.
  induction l as [|x l IH]; intros Hext; [done|].
  rewrite !bind_cons, (Hext x) by (by left). f_equal. apply IH.
  intros y Hy. apply Hext. by right.
Qed.

Lemma bind_singleton_fmap {A B} (g : A -> B) (l : list A) :
  l ≫= (fun x => [g x]) = g <$> l.
Proof. induction l as [|x l IH]; [done|]. rewrite bind_cons, IH. done. Qed.

(** Clipping against an edge that has all the points inside changes
    nothing. *)
Lemma clipEdge_fixed u (l : list Pt) (e : Pt * Pt) :
  (forall P, P ∈ l -> insideHalfPlane P e.1 e.2 u = true) -> clipEdge u l e = l.
Proof.
  intros Hall. unfold clipEdge.
  rewrite (bind_ext_elem _ (fun pc => [pc.2])).
  - by rewrite bind_singleton_fmap, prevPairs_snd.
  - intros pc [Hp Hc]%elem_of_prevPairs. unfold clipPair. cbn zeta.
    by rewrite (Hall _ Hp), (Hall _ Hc).
Qed.

Lemma clipEdges_fixed u (l : list Pt) (es : list (Pt * Pt)) :
  (forall P e, P ∈ l -> e ∈ es -> insideHalfPlane P e.1 e.2 u = true) ->
  foldl (clipEdge u) l es = l.
Proof.
  induction es as [|e es IH]; intros Hall; [done|]. simpl.
  rewrite clipEdge_fixed.
  - apply IH. intros P e' HP He'. apply Hall; [done|by right].
  - intros P HP. apply Hall; [done|by left].
Qed.


Lemma clip_fixed (s c : list Pt) :
  3 <= length s -> 3 <= length c ->
  (forall P e, P ∈ s -> e ∈ polyEdges c ->
     insideHalfPlane P e.1 e.2 (nlt (nofZ 0) (polygonSignedArea c)) = true) ->
  clipPolygonWithConvex (Some s) (Some c) = Some s.
Proof.
  intros Hs Hc Hall. unfold clipPolygonWithConvex.
  rewrite !decide_False by lia. cbn zeta. rewrite clipEdges_fixed by done.
  by rewrite decide_True by lia.
Qed.


(** X29. A subject polygon of three points or more that has all its points
    inside the half planes of the edges of the clip polygon is returned as
    it is. *)
Theorem clipPolygonWithConvex_fixed (s c : list Pt) :
  3 <= length s -> 3 <= length c ->
  (forall P e, P ∈ s -> e ∈ polyEdges c ->
     insideHalfPlane P e.1 e.2 (nlt (nofZ 0) (polygonSignedArea c)) = true) ->
  clipPolygonWithConvex (Some s) (Some c) = Some s.
Proof. apply clip_fixed. Qed.

End ClipLoop.

End ClipFacts.

(* ================================================================== *)
(** * The model run on concrete tiles *)
(* ================================================================== *)

Import Grid.

Section Examples.

(** The run of the pipeline on the 2 x 2 block with two groups of at least
    two tiles: the grower gives three tiles to the first group, and the
    boundary exchange moves tile 1 to the second. *)
Lemma pipeline_partition_witness :
  NoDup (tid <$> block)
  /\ partitionIntoGroups block 2 2 0
     = Some [[square 0 0 0; square 2 0 2]; [square 3 2 2; square 1 2 0]]
  /\ concat [[square 0 0 0; square 2 0 2]; [square 3 2 2; square 1 2 0]] ≡ₚ block.
Proof.
  assert (Hnd : NoDup (tid <$> block)).
  { apply (bool_decide_unpack _). vm_compute. exact I. }
  assert (Hrun : partitionIntoGroups block 2 2 0
     = Some [[square 0 0 0; square 2 0 2]; [square 3 2 2; square 1 2 0]]).
  { vm_compute. reflexivity. }
  split; [exact Hnd|]. split; [exact Hrun|].
  exact (proj1 (pipeline_partition block 2 2 0 Hnd) _ Hrun).
Defined.

Lemma rebalance_group_count_witness :
  exists g s',
    growConnectedGroups block 2 2 0 = Some (g, s')
    /\ exists out,
         rebalanceBoundaries (groups g) (pool g) (idxAdj g) 2 2 = Some out
         /\ length out = 2.
Proof.
  destruct (growConnectedGroups block 2 2 0) as [[g s']|] eqn:E.
  - exists g, s'. split; [reflexivity|].
    exact (rebalance_group_count block 2 2 0 g s' E).
  - vm_compute in E. discriminate E.
Defined.

(** The transfer made on the block: tile 1 leaves the donor of three tiles. *)
Example exchange_transfer_example :
  seekDonor [[square 0 0 0; square 1 2 0; square 2 0 2]; [square 3 2 2]] 1
    (donorsOf [[square 0 0 0; square 1 2 0; square 2 0 2]; [square 3 2 2]] 2 1)
  = Some (0, square 1 2 0).
Proof. vm_compute. reflexivity. Qed.

Lemma largestConnectedComponent_largest_witness :
  [square 0 0 0; square 3 2 2; square 1 2 0] ≠ []
  /\ largestConnectedComponent [square 0 0 0; square 3 2 2; square 1 2 0]
     = [square 0 0 0; square 1 2 0; square 3 2 2]
  /\ isComponent (largestAdjacency [square 0 0 0; square 3 2 2; square 1 2 0]) 3
                 (largestIndices [square 0 0 0; square 3 2 2; square 1 2 0]).
Proof.
  assert (Hne : [square 0 0 0; square 3 2 2; square 1 2 0] ≠ []) by discriminate.
  split; [exact Hne|]. split; [vm_compute; reflexivity|].
  exact (proj1 (proj2 (proj2
    (largestConnectedComponent_largest [square 0 0 0; square 3 2 2; square 1 2 0] Hne)))).
Defined.

Lemma drawBorders_single_tile_witness :
  drawBorders [square 0 0 0] = polyEdges (verts (square 0 0 0))
  /\ length (drawBorders [square 0 0 0]) = 4.
Proof.
  assert (H : drawBorders [square 0 0 0] = polyEdges (verts (square 0 0 0))
              /\ length (drawBorders [square 0 0 0]) = 4
              /\ (verts (square 0 0 0) ≠ [] -> drawBorders [square 0 0 0] ≠ [])).
  { apply (drawBorders_single_tile (square 0 0 0)).
    - apply (bool_decide_unpack _). vm_compute. exact I.
    - intros i j e e' Hne Hi Hj.
      destruct i as [|[|[|[|i]]]]; destruct j as [|[|[|[|j]]]];
        vm_compute in Hi, Hj; try discriminate; try (exfalso; apply Hne; reflexivity);
        injection Hi as <-; injection Hj as <-; vm_compute; discriminate. }
  exact (conj (proj1 H) (proj1 (proj2 H))).
Defined.

(** C4, as stated, fails: the rebalancer given the strip of five tiles and
    an empty group, with [minTiles = 1] and target count 2, has one
    qualifying group, fewer than the target, and a largest group of more
    than [2 * minTiles] tiles, and returns the groups as they are.  The
    count repair of [forceAssignWithConnectivity] on the qualifying groups
    would bisect the strip. *)
Lemma rebalance_no_count_repair_counterexample :
  rebalanceBoundaries [strip; []] [] [] 1 2 = Some [strip; []]
  /\ length (filter (fun g : list Tile => 1 <= length g) [strip; []]) < 2
  /\ 1 * 2 < length strip
  /\ countRepair [strip] 2 1 = Some [drop 2 strip; take 2 strip].
Proof.
  split; [vm_compute; reflexivity|].
  split; [vm_compute; lia|].
  split; [vm_compute; lia|].
  vm_compute. reflexivity.
Qed.

Lemma countRepair_bisects_witness :
  exists out,
    countRepair [strip] 2 1 = Some out
    /\ rtc (bisectFirstLargest 2 1) [strip] out
    /\ (2 <= length out \/ forall g, g ∈ out -> length g <= 1 * 2).
Proof.
  exact (proj1 (countRepair_bisects [strip] 2 1 ltac:(discriminate))).
Defined.

(** C8, as stated, fails: for one square tile the hull has four points, the
    Poisson sample yields one center inside it, the 5000 attempts of the
    top-up all draw the upper right corner, which the hull does not
    contain, and the seeder returns one center where two were asked for. *)
Lemma generateCenters_short_counterexample :
  polygonHull (concat (verts <$> [square 0 0 0]))
  = Some [(ZFin 0, ZFin 0); (ZFin 2, ZFin 0); (ZFin 2, ZFin 2); (ZFin 0, ZFin 2)]
  /\ generateCentersInPolygons 2 [square 0 0 0] 0
     = ([mkCenter (ZFin 1) (ZFin 1)], S (2 * 5000))
  /\ length (generateCentersInPolygons 2 [square 0 0 0] 0).1 < 2.
Proof.
  split; [vm_compute; reflexivity|].
  split; [vm_compute; reflexivity|].
  vm_compute. lia.
Qed.

End Examples.

Section MoreExamples.

(** Two squares side by side, and two squares apart. *)
Lemma splitAdjacency_oriented_witness :
  NoDup (allEdges block) /\ 0 ≠ 1
  /\ adjacent (splitAdjacency block) 0 1
  /\ adjacent (buildAdjacency block) 0 1.
Proof.
  assert (Hnd : NoDup (allEdges block)).
  { apply (bool_decide_unpack _). vm_compute. exact I. }
  assert (Hne : 0 ≠ 1) by discriminate.
  assert (Hs : exists t1 t2, block !! 0 = Some t1 /\ block !! 1 = Some t2
                             /\ shareEdge t1 t2 = true).
  { exists (square 0 0 0), (square 1 2 0). split_and!; [done..|]. vm_compute. reflexivity. }
  split; [exact Hnd|]. split; [exact Hne|].
  split.
  - exact (proj2 (proj1 (splitAdjacency_oriented block 0 1 Hnd Hne)) Hs).
  - exact (proj2 (proj2 (splitAdjacency_oriented block 0 1 Hnd Hne)) Hs).
Defined.

Lemma splitConnectedComponents_separated_witness :
  NoDup (allEdges [square 0 0 0; square 1 4 0])
  /\ splitConnectedComponents (Some [square 0 0 0; square 1 4 0])
     = [[square 0 0 0]; [square 1 4 0]]
  /\ shareEdge (square 0 0 0) (square 1 4 0) = false.
Proof.
  assert (Hnd : NoDup (allEdges [square 0 0 0; square 1 4 0])).
  { apply (bool_decide_unpack _). vm_compute. exact I. }
  assert (Hc : splitConnectedComponents (Some [square 0 0 0; square 1 4 0])
               = [[square 0 0 0]; [square 1 4 0]]) by (vm_compute; reflexivity).
  split; [exact Hnd|]. split; [exact Hc|].
  apply (splitConnectedComponents_separated [square 0 0 0; square 1 4 0] 0 1
           [square 0 0 0] [square 1 4 0]).
  - exact Hnd.
  - discriminate.
  - rewrite Hc. reflexivity.
  - rewrite Hc. reflexivity.
  - apply list_elem_of_here.
  - apply list_elem_of_here.
Defined.

(** The border of two squares side by side: the six outer edges. *)
Lemma drawBorders_boundary_witness :
  NoDup (allEdges [square 0 0 0; square 1 2 0])
  /\ drawBorders [square 0 0 0; square 1 2 0]
     = filter (fun e => revEdge e ∉ allEdges [square 0 0 0; square 1 2 0])
              (allEdges [square 0 0 0; square 1 2 0])
  /\ length (drawBorders [square 0 0 0; square 1 2 0]) = 6.
Proof.
  assert (Hnd : NoDup (allEdges [square 0 0 0; square 1 2 0])).
  { apply (bool_decide_unpack _). vm_compute. exact I. }
  assert (Hrev : forall e, e ∈ allEdges [square 0 0 0; square 1 2 0] -> revEdge e ≠ e).
  { apply Forall_forall. apply (bool_decide_unpack _). vm_compute. exact I. }
  split; [exact Hnd|]. split.
  - exact (proj1 (drawBorders_boundary [square 0 0 0; square 1 2 0] Hnd Hrev)).
  - vm_compute. reflexivity.
Defined.

Lemma generateCenters_inside_hull_witness :
  ~ hullDegenerate [square 0 0 0]
  /\ exists hull,
       polygonHull (concat (verts <$> [square 0 0 0])) = Some hull
       /\ 3 <= length hull
       /\ Forall (fun c => polygonContains hull (cx c, cy c) = true)
                 (generateCentersInPolygons 2 [square 0 0 0] 0).1.
Proof.
  assert (Hd : ~ hullDegenerate [square 0 0 0]).
  { intros H. vm_compute in H. lia. }
  split; [exact Hd|]. exact (generateCenters_inside_hull 2 [square 0 0 0] 0 Hd).
Defined.

(** The order of the integers with [Infinity] on top. *)
Lemma zlt_orders (ds : list znum) : ltOrders ds.
Proof.
  unfold ltOrders. split_and!.
  - intros [x|] _; simpl; [|done]. apply bool_decide_eq_false. lia.
  - intros [x|] [y|] [z|] _ _ _; simpl; try done.
    rewrite !bool_decide_eq_true. lia.
  - intros [x|] [y|] [z|] _ _ _; simpl; try done; try (by left); try (by right).
    rewrite !bool_decide_eq_true. lia.
  - by intros [x|] _.
Qed.

(** The grower on the 2 x 2 block with two centers: three tiles are nearest
    to the first center, one to the second. *)
Lemma grow_assigns_nearest_witness :
  exists G s',
    growConnectedGroups block 2 2 0 = Some (G, s')
    /\ assign G = [Some 0; Some 0; Some 0; Some 1]
    /\ forall i t, block !! i = Some t ->
         exists j, assign G !! i = Some (Some j)
                   /\ firstNearest (polygonCentroid (verts t))
                        ((fun c => (cx c, cy c)) <$> (generateCentersInPolygons 2 block 0).1)
                        2 j.
Proof.
  destruct (growConnectedGroups block 2 2 0) as [[G s']|] eqn:E.
  - exists G, s'. split; [reflexivity|].
    pose proof (grow_assigns_nearest block 2 2 0 G s' (fun t _ => zlt_orders _) E)
      as (_ & H & _).
    split; [|exact H]. vm_compute in E. injection E as <- _. reflexivity.
  - vm_compute in E. discriminate E.
Defined.

Lemma grow_groups_connected_witness :
  exists G s',
    growConnectedGroups block 2 2 0 = Some (G, s')
    /\ length (groups G) = 2 /\ Forall edgeConnected (groups G).
Proof.
  destruct (growConnectedGroups block 2 2 0) as [[G s']|] eqn:E.
  - exists G, s'. split; [reflexivity|].
    exact (grow_groups_connected block 2 2 0 G s' E).
  - vm_compute in E. discriminate E.
Defined.

(** The donor of three tiles gives one and keeps the minimum of two. *)
Lemma rebalance_keeps_minimum_witness :
  rebalanceBoundaries [[square 0 0 0; square 1 2 0; square 2 0 2]; [square 3 2 2]] [] [] 2 2
  = Some [[square 0 0 0; square 2 0 2]; [square 3 2 2; square 1 2 0]]
  /\ 2 <= length (groupAt [[square 0 0 0; square 2 0 2]; [square 3 2 2; square 1 2 0]] 0).
Proof.
  assert (Hnd : NoDup (tid <$> (concat [[square 0 0 0; square 1 2 0; square 2 0 2];
                                        [square 3 2 2]] ++ []))).
  { apply (bool_decide_unpack _). vm_compute. exact I. }
  assert (Hr : rebalanceBoundaries
                 [[square 0 0 0; square 1 2 0; square 2 0 2]; [square 3 2 2]] [] [] 2 2
               = Some [[square 0 0 0; square 2 0 2]; [square 3 2 2; square 1 2 0]])
    by (vm_compute; reflexivity).
  split; [exact Hr|].
  apply (rebalance_keeps_minimum _ _ _ _ _ _ 0 Hnd Hr). simpl. lia.
Defined.

(** The earlier partitioner on the block: the single tile of the second
    group is merged into the first. *)
Lemma forceAssignWithConnectivity_partition_witness :
  forceAssignWithConnectivity block 2 2 0
  = Some ([[square 0 0 0; square 1 2 0; square 2 0 2; square 3 2 2]], 1)
  /\ concat [[square 0 0 0; square 1 2 0; square 2 0 2; square 3 2 2]] ≡ₚ block.
Proof.
  assert (Hr : forceAssignWithConnectivity block 2 2 0
               = Some ([[square 0 0 0; square 1 2 0; square 2 0 2; square 3 2 2]], 1))
    by (vm_compute; reflexivity).
  split; [exact Hr|].
  exact (proj1 (forceAssignWithConnectivity_partition block 2 2 0 _ _ Hr)).
Defined.

Lemma forceAssignWithConnectivity_minimum_witness :
  forceAssignWithConnectivity block 2 2 0
  = Some ([[square 0 0 0; square 1 2 0; square 2 0 2; square 3 2 2]], 1)
  /\ Forall (fun g : list Tile => 2 <= length g)
            [[square 0 0 0; square 1 2 0; square 2 0 2; square 3 2 2]].
Proof.
  assert (Hr : forceAssignWithConnectivity block 2 2 0
               = Some ([[square 0 0 0; square 1 2 0; square 2 0 2; square 3 2 2]], 1))
    by (vm_compute; reflexivity).
  split; [exact Hr|].
  exact (forceAssignWithConnectivity_minimum block 2 2 0 _ _ Hr).
Defined.

(** [forceAssign] on two squares apart, each the only tile of its group and
    below the minimum of two: the first tile is pushed on its own group and
    dropped with it, the second survives. *)
Lemma forceAssign_count_witness :
  forceAssign [square 0 0 0; square 1 2 2] 2 2 0 = Some ([[square 1 2 2]; []], 1)
  /\ length [[square 1 2 2]; @nil Tile] = 2
  /\ concat [[square 1 2 2]; []] ⊆+ [square 0 0 0; square 1 2 2].
Proof.
  assert (Hr : forceAssign [square 0 0 0; square 1 2 2] 2 2 0
               = Some ([[square 1 2 2]; []], 1)) by (vm_compute; reflexivity).
  split; [exact Hr|].
  exact (forceAssign_count [square 0 0 0; square 1 2 2] 2 2 0 _ _ Hr).
Defined.

(** The regions of the block and their countries, one per region. *)
Lemma createMap_countries_partition_witness :
  block ≠ []
  /\ createMapCountries block 2 1 2 1 0
  = Some ([[square 0 0 0; square 2 0 2]; [square 3 2 2; square 1 2 0]],
          [[[square 0 0 0; square 2 0 2]]; [[square 3 2 2; square 1 2 0]]], 3)
  /\ concat (concat [[[square 0 0 0; square 2 0 2]]; [[square 3 2 2; square 1 2 0]]])
     ≡ₚ block.
Proof.
  assert (Hnd : NoDup (tid <$> block)).
  { apply (bool_decide_unpack _). vm_compute. exact I. }
  assert (Hr : createMapCountries block 2 1 2 1 0
    = Some ([[square 0 0 0; square 2 0 2]; [square 3 2 2; square 1 2 0]],
            [[[square 0 0 0; square 2 0 2]]; [[square 3 2 2; square 1 2 0]]], 3))
    by (vm_compute; reflexivity).
  assert (Hne : block ≠ []) by discriminate.
  split; [exact Hne|]. split; [exact Hr|].
  exact (proj2 (proj2 (proj2 (proj2 (proj2
    (createMap_countries_partition block 2 1 2 1 0 _ _ _ Hne Hnd Hr)))))).
Defined.

(** The groups the grower returns for the block are each in one piece, and
    stay so through the boundary exchange. *)
Lemma rebalance_preserves_connectivity_witness :
  Forall edgeConnected [[square 0 0 0; square 1 2 0; square 2 0 2]; [square 3 2 2]]
  /\ rebalanceBoundaries
       [[square 0 0 0; square 1 2 0; square 2 0 2]; [square 3 2 2]] [] [] 2 2
     = Some [[square 0 0 0; square 2 0 2]; [square 3 2 2; square 1 2 0]]
  /\ Forall edgeConnected [[square 0 0 0; square 2 0 2]; [square 3 2 2; square 1 2 0]].
Proof.
  assert (Hc : Forall edgeConnected
                 [[square 0 0 0; square 1 2 0; square 2 0 2]; [square 3 2 2]]).
  { destruct (growConnectedGroups block 2 2 0) as [[G s']|] eqn:E;
      [|vm_compute in E; discriminate E].
    pose proof (grow_nearest block 2 2 0 G s' E) as (_ & _ & H).
    vm_compute in E. injection E as <- _. exact H. }
  assert (Hr : rebalanceBoundaries
                 [[square 0 0 0; square 1 2 0; square 2 0 2]; [square 3 2 2]] [] [] 2 2
               = Some [[square 0 0 0; square 2 0 2]; [square 3 2 2; square 1 2 0]])
    by (vm_compute; reflexivity).
  split; [exact Hc|]. split; [exact Hr|].
  exact (rebalance_preserves_connectivity _ _ _ _ _ Hc Hr).
Defined.

End MoreExamples.

Section HelperExamples.

Import GridMath Clip Legacy.

(** Three centers from the start angle 350: the angles are 350, 110 and
    230. *)
Lemma randomCenter_angles_witness :
  (0 <= 350 <= 360)%Z
  /\ (fun i => wrapped (350 + Z.of_nat i * centerDistOf 3)) <$> [0; 1; 2]
     = [350; 110; 230]%Z
  /\ forall i p,
       randomCenter (ZFin 0, ZFin 0) (ZFin 1) (ZFin 1) 350 3 (ZFin 2) !! i = Some p ->
       (0 <= wrapped (350 + Z.of_nat i * centerDistOf 3) <= 360)%Z
       /\ p = countCoordinate (ZFin 0, ZFin 0) (ZFin 2)
                (ndiv (nmul (ZFin 2) (ZFin 1)) (ZFin 1))
                (toRadians (wrapped (350 + Z.of_nat i * centerDistOf 3))).
Proof.
  assert (H : (0 <= 350 <= 360)%Z) by lia.
  split; [exact H|]. split; [vm_compute; reflexivity|].
  exact (proj2 (proj2 (LegacyFacts.randomCenter_angles (ZFin 0, ZFin 0) (ZFin 1) (ZFin 1)
                         350 3 (ZFin 2) H))).
Defined.


(** A triangle inside a square. *)
Lemma clipPolygonWithConvex_fixed_witness :
  clipPolygonWithConvex (Some [pt 1 1; pt 3 1; pt 1 3])
                        (Some [pt 0 0; pt 4 0; pt 4 4; pt 0 4])
  = Some [pt 1 1; pt 3 1; pt 1 3].
Proof.
  apply (ClipFacts.clipPolygonWithConvex_fixed [pt 1 1; pt 3 1; pt 1 3]
                                               [pt 0 0; pt 4 0; pt 4 4; pt 0 4]).
  - simpl. lia.
  - simpl. lia.
  - intros P e HP He.
    change (polyEdges [pt 0 0; pt 4 0; pt 4 4; pt 0 4])
      with [(pt 0 0, pt 4 0); (pt 4 0, pt 4 4); (pt 4 4, pt 0 4); (pt 0 4, pt 0 0)] in He.
    repeat (apply elem_of_cons in HP as [->|HP]); [| | |by apply elem_of_nil in HP];
      repeat (apply elem_of_cons in He as [->|He]); try (by apply elem_of_nil in He);
      vm_compute; reflexivity.
Defined.

End HelperExamples.
